(** * zkstark: field arithmetic, polynomials, Merkle commitment, prover
    and verifier

  A shallow embedding of [src/field.ts], [src/merkle.ts], [src/prover.ts],
  [src/verifier.ts] and [src/polynomial.ts].  JavaScript [bigint] and
  integral [number] values are [Z], the arithmetic of [number] rounding
  to double precision ([Number]); a [Uint8Array] is a [list byte]; a
  JavaScript string is a [list ascii]; a [throw] is the [Throw] outcome of
  the [result] monad and a loop whose exit depends on hash outputs carries
  fuel ([Timeout]). *)

From Stdlib Require Import Ascii String.
From Stdlib Require Import ZArith List Lia Bool Znumtheory.
From Stdlib Require Import Setoid Morphisms.
From coqutil Require Import Byte.
From Equations Require Import Equations.
Import ListNotations.

Local Open Scope Z_scope.

(** ** Outcomes of a JavaScript computation *)

Module Js.

(** What a [throw] carries: [new Error(msg)] of the sources, and the two
    run-time errors of the language that the sources can provoke. *)
Inductive exn : Type :=
| Error (msg : string)
| RangeError (msg : string)
| TypeError (msg : string).

(** A computation returns, throws, or has not ended when the fuel of one
    of its loops ran out ([Timeout], which no [catch] sees). *)
Inductive result (A : Type) : Type :=
| Ret (a : A)
| Throw (e : exn)
| Timeout.

Arguments Ret {A} a.
Arguments Throw {A} e.
Arguments Timeout {A}.

Definition bind {A B : Type} (m : result A) (k : A -> result B) : result B :=
  match m with
  | Ret a => k a
  | Throw e => Throw e
  | Timeout => Timeout
  end.

(** [try { body } catch (err) { return handler }] *)
Definition tryCatch {A : Type} (body : result A) (handler : A) : result A :=
  match body with
  | Ret a => Ret a
  | Throw _ => Ret handler
  | Timeout => Timeout
  end.

(** Reading a property of a value that may be [undefined]. *)
Definition dyn (A : Type) : Type := option A.

Definition prop {A : Type} (name : string) (v : dyn A) : result A :=
  match v with
  | Some a => Ret a
  | None => Throw (TypeError ("Cannot read properties of undefined: " ++ name)%string)
  end.

(** The names the specification gives to the errors of the sources. *)
Definition DivisionByZero : exn := Error "Cannot invert zero".
Definition NotInvertible : exn := Error "Element is not invertible".
Definition FieldMismatch : exn := Error "Field mismatch".
Definition InvalidLength : exn := Error "Expected 32 bytes for field element".
Definition EmptyInput : exn := Error "Merkle tree must have at least one leaf".
Definition IndexOutOfRange : exn := Error "Invalid leaf index".
Definition WitnessMismatch : exn :=
  Error "Witness does not match statement.finalHash".

End Js.
Import Js.

Declare Scope js_scope.
Notation "x <- m ;; k" := (bind m (fun x => k))
(at level 61, m at next level, right associativity) : js_scope.
Notation "m ;;; k" := (bind m (fun _ => k))
(at level 61, right associativity) : js_scope.
Local Open Scope js_scope.

(** ** Numbers

    A JavaScript [number] that holds an integer is modelled by that
    integer.  [number] is IEEE 754 binary64: every integer up to [2^53]
    in absolute value is a number, and beyond it the result of an
    operation is the nearest number, ties going to the even significand.
    Non-integral numbers, infinities and [NaN] are outside the model.
    What the code computes on lengths and positions of arrays (loop
    counters, [length * 4]) stays below [2^32] times a small constant
    and is written with the operations of [Z]. *)

Module Number.

(** The nearest number: beyond [2^53] the 53 leading bits [q] are kept
    and the [e] bits below them decide the rounding. *)
Definition round (x : Z) : Z :=
  let a := Z.abs x in
  if a <=? 2 ^ 53 then x
  else
    let e := Z.log2 a - 52 in
    let q := a / 2 ^ e in
    let r := a mod 2 ^ e in
    let half := 2 ^ (e - 1) in
    let q' :=
      if (r >? half) || ((r =? half) && Z.odd q) then q + 1 else q in
    Z.sgn x * (q' * 2 ^ e).

(** [a - b] and [a + b] on numbers. *)
Definition sub (a b : Z) : Z := round (a - b).
Definition add (a b : Z) : Z := round (a + b).

(** [Number(n)] of a bigint [n]; [BigInt(x)] of an integral number is
    exact. *)
Definition ofBigInt (n : Z) : Z := round n.

End Number.

(** ** src/field.ts *)

Module Field.

Record FieldElement : Type := mkFE { value : Z; modulus : Z }.

(** [private mod(n)]: bigint [%] truncates towards zero ([Z.rem]) and
    raises a [RangeError] on a zero divisor. *)
Definition mod_ (m n : Z) : result Z :=
  if m =? 0 then Throw (RangeError "Division by zero")
  else
    let result := Z.rem n m in
    Ret (if result >=? 0 then result else result + m).

(** [constructor(value, modulus)] *)
Definition new (v m : Z) : result FieldElement :=
  r <- mod_ m v ;; Ret (mkFE r m).

Definition ensureSameField (this other : FieldElement) : result unit :=
  if negb (modulus this =? modulus other) then Throw FieldMismatch
  else Ret tt.

Definition add (this other : FieldElement) : result FieldElement :=
  ensureSameField this other ;;;
  new (value this + value other) (modulus this).

Definition sub (this other : FieldElement) : result FieldElement :=
  ensureSameField this other ;;;
  new (value this - value other) (modulus this).

Definition mul (this other : FieldElement) : result FieldElement :=
  ensureSameField this other ;;;
  new (value this * value other) (modulus this).

(** The [while (r !== 0n)] loop of [extendedGcd]; bigint [/] is [Z.quot].
    The remainder shrinks in absolute value, which is the order the loop
    descends along.  The accessibility proof is guarded so that closed
    terms evaluate without unfolding it. *)
Definition absLt (x y : Z) : Prop := Z.abs x < Z.abs y.

#[local] Instance absLt_wf : WellFounded absLt.
Proof.
  apply (Acc_intro_generator 16).
  apply well_founded_lt_compat with (f := Z.abs_nat).
  unfold absLt. lia.
Defined.

Equations? egcdLoop (oldR r oldS s : Z) : Z * Z by wf r absLt :=
  egcdLoop oldR r oldS s with Z.eq_dec r 0 => {
    | left _ => (oldR, oldS);
    | right _ =>
        egcdLoop r (oldR - Z.quot oldR r * r) s (oldS - Z.quot oldR r * s) }.
Proof.
  unfold absLt.
  pose proof (Z.quot_rem' oldR r) as E.
  pose proof (Z.rem_bound_abs oldR r ltac:(assumption)) as B.
  replace (oldR - Z.quot oldR r * r) with (Z.rem oldR r) by lia.
  exact B.
Qed.

Definition extendedGcd (a b : Z) : Z * Z :=
  if b =? 0 then (a, 1) else egcdLoop a b 1 0.

Definition inverse (this : FieldElement) : result FieldElement :=
  if value this =? 0 then Throw DivisionByZero
  else
    let '(gcd, x) := extendedGcd (value this) (modulus this) in
    if negb (gcd =? 1) then Throw NotInvertible
    else new x (modulus this).

Definition div (this other : FieldElement) : result FieldElement :=
  ensureSameField this other ;;;
  inv <- inverse other ;; mul this inv.

(** The [while (exp > 0n)] loop of [pow]: one iteration per binary digit
    of the exponent, lowest first ([exp % 2n], then [exp / 2n]).  The
    squaring of [base] also runs in the last iteration. *)
Fixpoint powLoop (exp : positive) (result base : FieldElement)
  : Js.result FieldElement :=
  match exp with
  | xH => r <- mul result base ;; mul base base ;;; Ret r
  | xO e => b <- mul base base ;; powLoop e result b
  | xI e => r <- mul result base ;; b <- mul base base ;; powLoop e r b
  end.

Definition powNonneg (this : FieldElement) (exponent : Z)
  : result FieldElement :=
  one <- new 1 (modulus this) ;;
  match exponent with
  | Zpos p => powLoop p one this
  | _ => Ret one
  end.

Definition pow (this : FieldElement) (exponent : Z) : result FieldElement :=
  if exponent <? 0 then inv <- inverse this ;; powNonneg inv (- exponent)
  else powNonneg this exponent.

Definition neg (this : FieldElement) : result FieldElement :=
  new (- value this) (modulus this).

Definition equals (this other : FieldElement) : bool :=
  (value this =? value other) && (modulus this =? modulus other).

Definition isZero (this : FieldElement) : bool := value this =? 0.

Definition zero (m : Z) : result FieldElement := new 0 m.
Definition one (m : Z) : result FieldElement := new 1 m.

Definition STARK_PRIME : Z := 2 ^ 251 + 17 * 2 ^ 192 + 1.

(** [createField], on its [bigint] and integral [number] inputs. *)
Definition createField (v : Z) : result FieldElement := new v STARK_PRIME.

(** [authHash(x) = x^3 + 7], the transition of the hash chain. *)
Definition authHash (x : FieldElement) : result FieldElement :=
  c7 <- new 7 (modulus x) ;;
  x3 <- pow x 3 ;;
  add x3 c7.

(** *** Fixed-width encoding

    [fe.value.toString(16).padStart(64, '0')], cut into 32 two-character
    slices, each read back with [parseInt(_, 16)] and stored in a
    [Uint8Array] cell (which keeps the value modulo 256, and 0 for NaN). *)

Definition hexChars : list ascii :=
  ["0"; "1"; "2"; "3"; "4"; "5"; "6"; "7";
   "8"; "9"; "a"; "b"; "c"; "d"; "e"; "f"]%char.

Definition digitChar (d : Z) : ascii := nth (Z.to_nat d) hexChars "0"%char.

(** Number of hexadecimal digits of a positive [v]. *)
Definition hexLength (v : Z) : nat := Z.to_nat (Z.log2 v / 4 + 1).

(** Digits of a positive [v], most significant first. *)
Definition hexDigits (v : Z) : list ascii :=
  map (fun i => digitChar ((v / 16 ^ Z.of_nat (hexLength v - 1 - i)) mod 16))
      (seq 0 (hexLength v)).

(** [BigInt.prototype.toString(16)] *)
Definition toString16 (v : Z) : list ascii :=
  match v with
  | Z0 => ["0"%char]
  | Zpos _ => hexDigits v
  | Zneg p => "-"%char :: hexDigits (Zpos p)
  end.

(** [String.prototype.padStart(n, c)] for a one-character filler. *)
Definition padStart (n : nat) (c : ascii) (s : list ascii) : list ascii :=
  repeat c (n - length s) ++ s.

(** [String.prototype.slice(a, b)] for [0 <= a <= b]. *)
Definition slice (a b : nat) (s : list ascii) : list ascii :=
  firstn (b - a) (skipn a s).

Definition hexValue (c : ascii) : option Z :=
  let n := Z.of_N (N_of_ascii c) in
  if (48 <=? n) && (n <=? 57) then Some (n - 48)
  else if (97 <=? n) && (n <=? 102) then Some (n - 87)
  else if (65 <=? n) && (n <=? 70) then Some (n - 55)
  else None.

(** Value of the longest prefix of hexadecimal digits; [None] is NaN. *)
Fixpoint parseDigits (acc : option Z) (s : list ascii) : option Z :=
  match s with
  | [] => acc
  | c :: rest =>
      match hexValue c with
      | Some d =>
          parseDigits (Some (match acc with Some a => a * 16 + d | None => d end))
                      rest
      | None => acc
      end
  end.

(** [parseInt(s, 16)] on the slices above: an optional sign, then digits. *)
Definition parseInt16 (s : list ascii) : option Z :=
  match s with
  | c :: rest =>
      if Ascii.eqb c "-"%char then option_map Z.opp (parseDigits None rest)
      else parseDigits None s
  | [] => None
  end.

(** Storing a number in a [Uint8Array] cell. *)
Definition toUint8 (n : option Z) : byte :=
  match n with
  | Some z => byte.of_Z z
  | None => byte.of_Z 0
  end.

Definition fieldElementToBytes (fe : FieldElement) : list byte :=
  let hex := padStart 64 "0"%char (toString16 (value fe)) in
  map (fun i => toUint8 (parseInt16 (slice (i * 2) (i * 2 + 2) hex)))
      (seq 0 32).

(** The [for (const b of bytes)] loop of [fieldElementFromBytes]. *)
Definition bytesToBigint (bytes : list byte) : Z :=
  fold_left (fun v b => Z.lor (Z.shiftl v 8) (byte.unsigned b)) bytes 0.

Definition fieldElementFromBytes (bytes : list byte) : result FieldElement :=
  if negb (Nat.eqb (length bytes) 32) then Throw InvalidLength
  else new (bytesToBigint bytes) STARK_PRIME.

End Field.

Import Field.

(** ** The hash primitive

    [sha256] of [@noble/hashes/sha256] is an external dependency: the
    development is parametric in a function from byte strings to 32-byte
    digests. *)

Class Hash256 : Type := {
  sha256 : list byte -> list byte;
  sha256_length : forall data, length (sha256 data) = 32%nat
}.

(** ** Arrays *)

Module JsArray.

(** [arr[i]]: [undefined] outside the array. *)
Definition get {A : Type} (arr : list A) (i : Z) : dyn A :=
  if i <? 0 then None else nth_error arr (Z.to_nat i).

(** An array is a list.  The language bounds the length of an array by
    [2^32 - 1]; the bound is written out where the code sizes an array from
    a number it is given: [new Array(n)] and a [push] in a loop raise a
    [RangeError] beyond it. *)
Definition maxLength : Z := 2 ^ 32 - 1.

Definition invalidLength : exn := RangeError "Invalid array length".

Definition push {A : Type} (arr : list A) (x : A) : result (list A) :=
  if Z.of_nat (length arr) >=? maxLength then Throw invalidLength
  else Ret (arr ++ [x]).

Definition includes (arr : list Z) (x : Z) : bool := existsb (Z.eqb x) arr.

(** [arraysEqual] of [merkle.ts] and of [verifier.ts] (the same text). *)
Fixpoint arraysEqual (a b : list byte) : bool :=
  match a, b with
  | [], [] => true
  | x :: a', y :: b' => Byte.eqb x y && arraysEqual a' b'
  | _, _ => false
  end.

(** [arrayEqualNumbers] of [verifier.ts]. *)
Fixpoint arrayEqualNumbers (a b : list Z) : bool :=
  match a, b with
  | [], [] => true
  | x :: a', y :: b' => (x =? y) && arrayEqualNumbers a' b'
  | _, _ => false
  end.

(** [arr.map(f)] for an [f] that may throw. *)
Fixpoint mapM {A B : Type} (f : A -> result B) (arr : list A)
  : result (list B) :=
  match arr with
  | [] => Ret []
  | x :: rest => y <- f x ;; ys <- mapM f rest ;; Ret (y :: ys)
  end.

End JsArray.
Import JsArray.

(** ** src/merkle.ts *)

Inductive Position : Type := Left | Right.

Record ProofNode : Type := mkNode { hash : list byte; position : Position }.

Module MerkleProof.

Record t : Type := mk {
  leaf : list byte;
  proof : list ProofNode;
  root : list byte
}.

Section WithHash.
Context {H : Hash256}.

(** One turn of the [for (const { hash, position } of this.proof)] loop. *)
Definition step (currentHash : list byte) (node : ProofNode) : list byte :=
  match position node with
  | Left => sha256 (hash node ++ currentHash)
  | Right => sha256 (currentHash ++ hash node)
  end.

Definition verify (this : t) : bool :=
  arraysEqual (fold_left step (proof this) (leaf this)) (root this).

End WithHash.

Definition getRoot (this : t) : list byte := root this.

End MerkleProof.

Module MerkleTree.

Record t : Type := mk {
  leaves : list (list byte);
  layers : list (list (list byte));
  root : list byte
}.

Section WithHash.
Context {H : Hash256}.

(** The [for (let i = 0; i < currentLayer.length; i += 2)] loop of
    [buildTree]: adjacent pairs are hashed, a trailing node is promoted. *)
Fixpoint nextLayer (currentLayer : list (list byte)) : list (list byte) :=
  match currentLayer with
  | a :: b :: rest => sha256 (a ++ b) :: nextLayer rest
  | [a] => [a]
  | [] => []
  end.

(** The [while (currentLayer.length > 1)] loop of [buildTree]: the layers
    pushed after [currentLayer], in order. *)
Equations? buildLayers (currentLayer : list (list byte))
  : list (list (list byte)) by wf (length currentLayer) lt :=
  buildLayers currentLayer with lt_dec 1 (length currentLayer) => {
    | left _ => nextLayer currentLayer :: buildLayers (nextLayer currentLayer);
    | right _ => [] }.
Proof.
  assert (Hlen : forall n (l : list (list byte)),
             (length l <= n)%nat -> (length (nextLayer l) <= length l)%nat /\
             ((1 < length l)%nat -> (length (nextLayer l) < length l)%nat)).
  { induction n as [| n IH]; intros [| a [| b rest]] Hl; simpl in *;
      try lia.
    destruct (IH rest ltac:(lia)) as [IH1 _]. lia. }
  apply (Hlen (length currentLayer)); [lia | assumption].
Qed.

(** [constructor(leaves)]: the root is [currentLayer[0]] of the last
    layer, a layer that is never empty. *)
Definition new (leaves : list (list byte)) : result t :=
  if Nat.eqb (length leaves) 0 then Throw EmptyInput
  else
    let layers := leaves :: buildLayers leaves in
    Ret (mk leaves layers (hd [] (last layers []))).

Definition getRoot (this : t) : list byte := root this.

(** The [for (let i = 0; i < this.layers.length - 1; i++)] loop of
    [getProof]: every layer but the last contributes its sibling, when
    there is one. *)
Fixpoint proofLoop (layers : list (list (list byte))) (currentIndex : Z)
  : list ProofNode :=
  match layers with
  | layer :: ((_ :: _) as rest) =>
      let isRightNode := Z.rem currentIndex 2 =? 1 in
      let siblingIndex :=
        if isRightNode then currentIndex - 1 else currentIndex + 1 in
      (if siblingIndex <? Z.of_nat (length layer)
       then [mkNode (nth (Z.to_nat siblingIndex) layer [])
                    (if isRightNode then Left else Right)]
       else [])
        ++ proofLoop rest (currentIndex / 2)
  | _ => []
  end.

Definition getProof (this : t) (index : Z) : result MerkleProof.t :=
  if (index <? 0) || (index >=? Z.of_nat (length (leaves this)))
  then Throw IndexOutOfRange
  else
    Ret (MerkleProof.mk (nth (Z.to_nat index) (leaves this) [])
                        (proofLoop (layers this) index)
                        (root this)).

Definition verify (this : t) (proof : MerkleProof.t) : bool :=
  MerkleProof.verify proof.

(** [hashLeaf] on a [Uint8Array]. *)
Definition hashLeaf (data : list byte) : list byte := sha256 data.

End WithHash.

End MerkleTree.

(** ** src/prover.ts *)

Module Statement.
Record t : Type := mk { steps : Z; finalHash : FieldElement }.
End Statement.

Module Witness.
Record t : Type := mk { secret : FieldElement }.
End Witness.

Module AuthParams.
Record t : Type := mk { steps : Z; queries : Z }.
End AuthParams.

(** The objects that cross the prover/verifier boundary are plain
    JavaScript objects: any of their properties may be [undefined] when
    the verifier reads them. *)
Module AuthOpening.
Record t : Type := mk {
  index : dyn Z;
  current : dyn FieldElement;
  next : dyn FieldElement;
  proofCurrent : dyn MerkleProof.t;
  proofNext : dyn MerkleProof.t
}.
End AuthOpening.

Module Proof.
Record t : Type := mk {
  root : dyn (list byte);
  indices : dyn (list Z);
  openings : dyn (list (dyn AuthOpening.t))
}.
End Proof.

Module Prover.

Definition InvalidParams (msg : string) : exn := Error msg.

(** The [for (let i = 1; i < steps; i++)] loop of [buildAuthTrace]: the
    [n] entries that follow [prev]. *)
Fixpoint traceLoop (n : nat) (prev : FieldElement)
  : result (list FieldElement) :=
  match n with
  | O => Ret []
  | S n' =>
      ti <- authHash prev ;;
      rest <- traceLoop n' ti ;;
      Ret (ti :: rest)
  end.

Definition buildAuthTrace (witness : Witness.t) (params : AuthParams.t)
  : result (list FieldElement) :=
  let steps := AuthParams.steps params in
  if steps <? 2 then Throw (InvalidParams "steps must be >= 2")
  else if steps >? maxLength then Throw invalidLength
  else
    t0 <- authHash (Witness.secret witness) ;;
    rest <- traceLoop (Z.to_nat (steps - 1)) t0 ;;
    Ret (t0 :: rest).

(** [ctr[0..3]]: [>>>] and [&] work on the 32-bit value of [counter]. *)
Definition toUint32 (n : Z) : Z := n mod 2 ^ 32.

Definition counterBytes (counter : Z) : list byte :=
  [byte.of_Z (Z.land (Z.shiftr (toUint32 counter) 24) 255);
   byte.of_Z (Z.land (Z.shiftr (toUint32 counter) 16) 255);
   byte.of_Z (Z.land (Z.shiftr (toUint32 counter) 8) 255);
   byte.of_Z (Z.land (toUint32 counter) 255)].

Section WithHash.
Context {H : Hash256}.

Definition computeChallengeSeed (root : list byte) (statement : Statement.t)
  : list byte :=
  let finalBytes := fieldElementToBytes (Statement.finalHash statement) in
  sha256 (root ++ finalBytes).

(** One draw of [deriveQueryIndices]: the first 8 bytes of
    [sha256(seed || ctr)], read big-endian, modulo [BigInt(steps - 1)],
    and back to a number. *)
Definition drawIndex (seed : list byte) (steps : Z) (counter : Z) : Z :=
  let h := sha256 (seed ++ counterBytes counter) in
  let acc :=
    fold_left
      (fun acc i => Z.lor (Z.shiftl acc 8) (byte.unsigned (nth i h Byte.x00)))
      (seq 0 8) 0 in
  Number.ofBigInt (Z.rem acc (Number.sub steps 1)).

(** The [while (indices.length < queries)] loop of [deriveQueryIndices].
    Whether it ends depends on the digests: it runs on fuel.  [counter++]
    is exact below [2^53]; only the low 32 bits of the counter are hashed,
    so from [2^32] draws on nothing new is drawn ([collected_stable]
    below) and what becomes of the counter at [2^53] cannot be
    observed. *)
Fixpoint deriveLoop (fuel : nat) (seed : list byte) (steps queries : Z)
  (indices : list Z) (counter : Z) : result (list Z) :=
  if Z.of_nat (length indices) <? queries then
    match fuel with
    | O => Timeout
    | S fuel' =>
        let idx := drawIndex seed steps counter in
        indices' <- (if negb (includes indices idx) then push indices idx
                     else Ret indices) ;;
        deriveLoop fuel' seed steps queries indices' (counter + 1)
    end
  else Ret indices.

Definition deriveQueryIndices (fuel : nat) (seed : list byte)
  (params : AuthParams.t) : result (list Z) :=
  let steps := AuthParams.steps params in
  let queries := AuthParams.queries params in
  if queries <? 1 then Throw (InvalidParams "queries must be >= 1")
  else if steps <? 2 then Throw (InvalidParams "steps must be >= 2")
  else if queries >? Number.sub steps 1
  then Throw (InvalidParams "queries must be <= steps - 1")
  else
    let forcedIndex := Number.sub steps 2 in
    indices <- push [] forcedIndex ;;
    deriveLoop fuel seed steps queries indices 0.

(** The callback of [indices.map] in [generateAuthProof]. *)
Definition openAt (trace : list FieldElement) (tree : MerkleTree.t)
  (index : Z) : result (dyn AuthOpening.t) :=
  let current := get trace index in
  let next := get trace (Number.add index 1) in
  proofCurrent <- MerkleTree.getProof tree index ;;
  proofNext <- MerkleTree.getProof tree (Number.add index 1) ;;
  Ret (Some (AuthOpening.mk (Some index) current next
                            (Some proofCurrent) (Some proofNext))).

Definition generateAuthProof (fuel : nat) (statement : Statement.t)
  (witness : Witness.t) (params : AuthParams.t) : result Proof.t :=
  let steps := AuthParams.steps params in
  let queries := AuthParams.queries params in
  if queries <? 1 then Throw (InvalidParams "queries must be >= 1")
  else if queries >? Number.sub steps 1
  then Throw (InvalidParams "queries must be <= steps - 1")
  else
    trace <- buildAuthTrace witness params ;;
    finalValue <- prop "equals" (get trace (Number.sub steps 1)) ;;
    if negb (equals finalValue (Statement.finalHash statement))
    then Throw WitnessMismatch
    else
      let leaves := map fieldElementToBytes trace in
      tree <- MerkleTree.new leaves ;;
      let root := MerkleTree.getRoot tree in
      let seed := computeChallengeSeed root statement in
      indices <- deriveQueryIndices fuel seed params ;;
      openings <- mapM (openAt trace tree) indices ;;
      Ret (Proof.mk (Some root) (Some indices) (Some openings)).

End WithHash.

End Prover.

(** ** src/verifier.ts *)

Module StarkVerifier.

Import Prover.

Section WithHash.
Context {H : Hash256}.

(** The body of the [for] loop of [verify], over the pairs
    [(proof.indices[i], proof.openings[i])]; [finalEdgeChecked] is the
    loop's flag, and the result at the end of the list is the value of the
    two statements that follow the loop. *)
Fixpoint verifyLoop (statement : Statement.t) (steps : Z) (root : list byte)
  (pairs : list (Z * dyn AuthOpening.t)) (finalEdgeChecked : bool)
  : result bool :=
  match pairs with
  | [] => Ret finalEdgeChecked
  | (index, o) :: rest =>
      opening <- prop "index" o ;;
      if negb (match AuthOpening.index opening with
               | Some i => i =? index
               | None => false
               end)
      then Ret false
      else if (index <? 0) || (index >=? Number.sub steps 1)
      then Ret false
      else
        proofCurrent <- prop "root" (AuthOpening.proofCurrent opening) ;;
        if negb (arraysEqual (MerkleProof.root proofCurrent) root) then Ret false
        else
          proofNext <- prop "root" (AuthOpening.proofNext opening) ;;
          if negb (arraysEqual (MerkleProof.root proofNext) root) then Ret false
          else if negb (MerkleProof.verify proofCurrent) then Ret false
          else if negb (MerkleProof.verify proofNext) then Ret false
          else
            current <- prop "modulus" (AuthOpening.current opening) ;;
            expectedNext <- authHash current ;;
            next <- prop "value" (AuthOpening.next opening) ;;
            if negb (equals expectedNext next) then Ret false
            else if index =? Number.sub steps 2 then
              if negb (equals next (Statement.finalHash statement))
              then Ret false
              else verifyLoop statement steps root rest true
            else verifyLoop statement steps root rest finalEdgeChecked
  end.

(** The [try] block of [verify]. *)
Definition verifyBody (fuel : nat) (statement : Statement.t)
  (params : AuthParams.t) (proof : Proof.t) : result bool :=
  let steps := AuthParams.steps params in
  let queries := AuthParams.queries params in
  if (steps <? 2) || (queries <? 1) then Ret false
  else
    indices <- prop "length" (Proof.indices proof) ;;
    if negb (Z.of_nat (length indices) =? queries) then Ret false
    else
      openings <- prop "length" (Proof.openings proof) ;;
      if negb (Z.of_nat (length openings) =? queries) then Ret false
      else
        root <- prop "length" (Proof.root proof) ;;
        let seed := computeChallengeSeed root statement in
        expectedIndices <- deriveQueryIndices fuel seed params ;;
        if negb (arrayEqualNumbers expectedIndices indices) then Ret false
        else verifyLoop statement steps root (combine indices openings) false.

(** [verify(proof)]: the [catch] clause turns every throw into [false]. *)
Definition verify (fuel : nat) (statement : Statement.t)
  (params : AuthParams.t) (proof : Proof.t) : result bool :=
  tryCatch (verifyBody fuel statement params proof) false.

End WithHash.

(** [serializedMerkleProofSize]: 33 bytes for every node of the path.
    An array has fewer than [2^32] elements: the product is exact, and so
    is [proof.indices.length * 4] below. *)
Definition serializedMerkleProofSize (mp : MerkleProof.t) : Z :=
  Z.of_nat (length (MerkleProof.proof mp)) * 33.

(** The [for (const opening of proof.openings)] loop of [getProofSize]. *)
Fixpoint sizeLoop (openings : list (dyn AuthOpening.t)) (size : Z)
  : result Z :=
  match openings with
  | [] => Ret size
  | o :: rest =>
      opening <- prop "proofCurrent" o ;;
      proofCurrent <- prop "proof" (AuthOpening.proofCurrent opening) ;;
      proofNext <- prop "proof" (AuthOpening.proofNext opening) ;;
      sizeLoop rest
        (Number.add
           (Number.add (Number.add size 64)
                       (serializedMerkleProofSize proofCurrent))
           (serializedMerkleProofSize proofNext))
  end.

(** [getProofSize(proof)], which runs outside any [try]. *)
Definition getProofSize (proof : Proof.t) : result Z :=
  root <- prop "length" (Proof.root proof) ;;
  indices <- prop "length" (Proof.indices proof) ;;
  openings <- prop "Symbol.iterator" (Proof.openings proof) ;;
  sizeLoop openings
    (Number.add (Number.add 0 (Z.of_nat (length root)))
                (Z.of_nat (length indices) * 4)).

End StarkVerifier.

(** ** src/polynomial.ts *)

Module Polynomial.

(** Coefficients from the constant term upwards. *)
Record t : Type := mk { coefficients : list FieldElement; modulus : Z }.

Definition EmptyPolynomial : exn :=
  Error "Polynomial must have at least one coefficient".
Definition MixedCoefficients : exn :=
  Error "All coefficients must be from the same field".
Definition PointMismatch : exn := Error "Point must be from the same field".
Definition ScalarMismatch : exn := Error "Scalar must be from the same field".
Definition PolynomialMismatch : exn :=
  Error "Polynomials must be over the same field".
Definition NoPoints : exn :=
  Error "Need at least one point for interpolation".

(** The [while (i > 0 && coeffs[i].isZero())] loop of [trimLeadingZeros];
    the index stays inside the array. *)
Fixpoint trimLoop (coeffs : list FieldElement) (i : nat) : nat :=
  match i with
  | O => O
  | S j =>
      match nth_error coeffs i with
      | Some c => if Field.isZero c then trimLoop coeffs j else i
      | None => i
      end
  end.

Definition trimLeadingZeros (coeffs : list FieldElement)
  : list FieldElement :=
  firstn (trimLoop coeffs (length coeffs - 1) + 1) coeffs.

(** [constructor(coefficients)] *)
Definition new (coeffs : list FieldElement) : result t :=
  match coeffs with
  | [] => Throw EmptyPolynomial
  | c0 :: _ =>
      if forallb (fun coef => Field.modulus coef =? Field.modulus c0) coeffs
      then Ret (mk (trimLeadingZeros coeffs) (Field.modulus c0))
      else Throw MixedCoefficients
  end.

Definition degree (this : t) : Z := Z.of_nat (length (coefficients this)) - 1.

(** The [for (const coef of this.coefficients)] loop of [evaluate]. *)
Fixpoint evaluateLoop (coeffs : list FieldElement)
  (x result xPower : FieldElement) : Js.result FieldElement :=
  match coeffs with
  | [] => Ret result
  | coef :: rest =>
      term <- Field.mul coef xPower ;;
      result' <- Field.add result term ;;
      xPower' <- Field.mul xPower x ;;
      evaluateLoop rest x result' xPower'
  end.

Definition evaluate (this : t) (x : FieldElement) : result FieldElement :=
  if negb (Field.modulus x =? modulus this) then Throw PointMismatch
  else
    result <- Field.zero (modulus this) ;;
    xPower <- Field.one (modulus this) ;;
    evaluateLoop (coefficients this) x result xPower.

Definition ensureSameField (this other : t) : result unit :=
  if negb (modulus this =? modulus other) then Throw PolynomialMismatch
  else Ret tt.

(** [i < coefficients.length ? coefficients[i] : FieldElement.zero(modulus)] *)
Definition coefficientOrZero (coeffs : list FieldElement) (m : Z) (i : nat)
  : result FieldElement :=
  match nth_error coeffs i with
  | Some c => Ret c
  | None => Field.zero m
  end.

(** The loop that [add] and [sub] share, over [i = 0 .. maxLen - 1]. *)
Definition combine
  (op : FieldElement -> FieldElement -> result FieldElement)
  (this other : t) : result (list FieldElement) :=
  let maxLen := Nat.max (length (coefficients this))
                        (length (coefficients other)) in
  mapM (fun i =>
          a <- coefficientOrZero (coefficients this) (modulus this) i ;;
          b <- coefficientOrZero (coefficients other) (modulus this) i ;;
          op a b)
       (seq 0 maxLen).

Definition add (this other : t) : result t :=
  ensureSameField this other ;;;
  result <- combine Field.add this other ;;
  new result.

Definition sub (this other : t) : result t :=
  ensureSameField this other ;;;
  result <- combine Field.sub this other ;;
  new result.

(** [result[k] = v] at an index inside the array, which is where [mul]
    writes: it reads [result[k]] first. *)
Fixpoint setAt (k : nat) (v : FieldElement) (arr : list FieldElement)
  : list FieldElement :=
  match arr, k with
  | [], _ => []
  | _ :: rest, O => v :: rest
  | c :: rest, S k' => c :: setAt k' v rest
  end.

(** The inner loop of [mul], at [k = i + j]. *)
Fixpoint mulInner (a : FieldElement) (bs : list FieldElement) (k : nat)
  (result : list FieldElement) : Js.result (list FieldElement) :=
  match bs with
  | [] => Ret result
  | b :: rest =>
      current <- prop "add" (nth_error result k) ;;
      product <- Field.mul a b ;;
      sum <- Field.add current product ;;
      mulInner a rest (S k) (setAt k sum result)
  end.

(** The outer loop of [mul], from row [i] on. *)
Fixpoint mulOuter (coeffs bs : list FieldElement) (i : nat)
  (result : list FieldElement) : Js.result (list FieldElement) :=
  match coeffs with
  | [] => Ret result
  | a :: rest =>
      result' <- mulInner a bs i result ;;
      mulOuter rest bs (S i) result'
  end.

Definition mul (this other : t) : result t :=
  ensureSameField this other ;;;
  let resultLen := Z.of_nat (length (coefficients this))
                   + Z.of_nat (length (coefficients other)) - 1 in
  if (resultLen <? 0) || (resultLen >? maxLength) then Throw invalidLength
  else
    zeros <- mapM (fun _ : unit => Field.zero (modulus this))
                  (repeat tt (Z.to_nat resultLen)) ;;
    result <- mulOuter (coefficients this) (coefficients other) 0 zeros ;;
    new result.

Definition scalarMul (this : t) (scalar : FieldElement) : result t :=
  if negb (Field.modulus scalar =? modulus this) then Throw ScalarMismatch
  else
    result <- mapM (fun coef => Field.mul coef scalar) (coefficients this) ;;
    new result.

Definition leadingCoefficient (this : t) : dyn FieldElement :=
  get (coefficients this) (Z.of_nat (length (coefficients this)) - 1).

Definition isZero (this : t) : result bool :=
  if negb (length (coefficients this) =? 1)%nat then Ret false
  else c <- prop "isZero" (nth_error (coefficients this) 0) ;;
       Ret (Field.isZero c).

Definition zero (m : Z) : result t :=
  z <- Field.zero m ;; new [z].

Definition one (m : Z) : result t :=
  o <- Field.one m ;; new [o].

(** The inner loop of [interpolate], over [j], for the point of index
    [i] and abscissa [xi]. *)
Fixpoint termLoop (points : list (FieldElement * FieldElement)) (j i : nat)
  (xi : FieldElement) (m : Z) (term : t) : result t :=
  match points with
  | [] => Ret term
  | (xj, _) :: rest =>
      if (i =? j)%nat then termLoop rest (S j) i xi m term
      else
        negated <- Field.neg xj ;;
        unit_ <- Field.one m ;;
        numerator <- new [negated; unit_] ;;
        denominator <- Field.sub xi xj ;;
        product <- mul term numerator ;;
        inv <- Field.inverse denominator ;;
        term' <- scalarMul product inv ;;
        termLoop rest (S j) i xi m term'
  end.

(** The outer loop of [interpolate], from the point of index [i] on. *)
Fixpoint interpolateLoop (rest points : list (FieldElement * FieldElement))
  (i : nat) (m : Z) (result : t) : Js.result t :=
  match rest with
  | [] => Ret result
  | (xi, yi) :: rest' =>
      term0 <- new [yi] ;;
      term <- termLoop points 0 i xi m term0 ;;
      result' <- add result term ;;
      interpolateLoop rest' points (S i) m result'
  end.

Definition interpolate (points : list (FieldElement * FieldElement))
  : result t :=
  match points with
  | [] => Throw NoPoints
  | (x0, _) :: _ =>
      let m := Field.modulus x0 in
      result <- zero m ;;
      interpolateLoop points points 0 m result
  end.

End Polynomial.

(** ** SHA-256

    The function that [@noble/hashes/sha256] computes (FIPS 180-4), as an
    instance of [Hash256] on which the protocol can be run. *)

Module Sha256.

(** The constants are defined as the standard derives them: the first 32
    bits of the fractional parts of the cube roots of the first 64 primes,
    and of the square roots of the first 8 primes. *)
Definition isPrime (n : nat) : bool :=
  forallb (fun d => negb (Nat.eqb (n mod d) 0)) (seq 2 (n - 2)).

Definition primes : list Z :=
  Eval vm_compute in map Z.of_nat (firstn 64 (filter isPrime (seq 2 400))).

(** Integer cube root of a number below [2^105], one bit at a time. *)
Definition cubeRoot (n : Z) : Z :=
  fold_left (fun r bit => if (r + 2 ^ bit) ^ 3 <=? n then r + 2 ^ bit else r)
            (map Z.of_nat (rev (seq 0 35))) 0.

Definition K : list Z :=
  Eval vm_compute in map (fun p => cubeRoot (p * 2 ^ 96) mod 2 ^ 32) primes.

Definition state : Type := (Z * Z * Z * Z * Z * Z * Z * Z)%type.

Definition fractionOfRoot (i : nat) : Z :=
  Z.sqrt (nth i primes 0 * 2 ^ 64) mod 2 ^ 32.

Definition initial : state :=
  Eval vm_compute in
    (fractionOfRoot 0, fractionOfRoot 1, fractionOfRoot 2, fractionOfRoot 3,
     fractionOfRoot 4, fractionOfRoot 5, fractionOfRoot 6, fractionOfRoot 7).

Definition w32 (x : Z) : Z := x mod 2 ^ 32.
Definition add32 (x y : Z) : Z := w32 (x + y).
Definition rotr (n x : Z) : Z :=
  Z.lor (Z.shiftr x n) (w32 (Z.shiftl x (32 - n))).
Definition not32 (x : Z) : Z := 2 ^ 32 - 1 - x.

Definition Ch (x y z : Z) : Z := Z.lxor (Z.land x y) (Z.land (not32 x) z).
Definition Maj (x y z : Z) : Z :=
  Z.lxor (Z.lxor (Z.land x y) (Z.land x z)) (Z.land y z).
Definition Sigma0 (x : Z) : Z :=
  Z.lxor (Z.lxor (rotr 2 x) (rotr 13 x)) (rotr 22 x).
Definition Sigma1 (x : Z) : Z :=
  Z.lxor (Z.lxor (rotr 6 x) (rotr 11 x)) (rotr 25 x).
Definition sigma0 (x : Z) : Z :=
  Z.lxor (Z.lxor (rotr 7 x) (rotr 18 x)) (Z.shiftr x 3).
Definition sigma1 (x : Z) : Z :=
  Z.lxor (Z.lxor (rotr 17 x) (rotr 19 x)) (Z.shiftr x 10).

(** Message padding: a [0x80] byte, zeros up to 56 modulo 64, and the bit
    length on 8 bytes. *)
Definition bigEndian (width : nat) (x : Z) : list byte :=
  map (fun i => byte.of_Z (Z.shiftr x (8 * Z.of_nat (width - 1 - i))))
      (seq 0 width).

Definition pad (msg : list byte) : list byte :=
  let len := Z.of_nat (length msg) in
  msg ++ [Byte.x80]
      ++ repeat Byte.x00 (Z.to_nat ((55 - len) mod 64))
      ++ bigEndian 8 (8 * len).

Fixpoint chunks (n : nat) (data : list byte) : list (list byte) :=
  match n with
  | O => []
  | S n' => firstn 64 data :: chunks n' (skipn 64 data)
  end.

Fixpoint words (n : nat) (block : list byte) : list Z :=
  match n with
  | O => []
  | S n' => bytesToBigint (firstn 4 block) :: words n' (skipn 4 block)
  end.

(** The message schedule, newest word first. *)
Fixpoint extend (n : nat) (w : list Z) : list Z :=
  match n with
  | O => w
  | S n' =>
      let wt := add32 (add32 (sigma1 (nth 1 w 0)) (nth 6 w 0))
                      (add32 (sigma0 (nth 14 w 0)) (nth 15 w 0)) in
      extend n' (wt :: w)
  end.

Definition schedule (block : list byte) : list Z :=
  rev (extend 48 (rev (words 16 block))).

Definition round (s : state) (kw : Z * Z) : state :=
  let '(a, b, c, d, e, f, g, h) := s in
  let t1 := add32 (add32 (add32 h (Sigma1 e)) (Ch e f g))
                  (add32 (fst kw) (snd kw)) in
  let t2 := add32 (Sigma0 a) (Maj a b c) in
  (add32 t1 t2, a, b, c, add32 d t1, e, f, g).

Definition compress (s : state) (block : list byte) : state :=
  let '(a, b, c, d, e, f, g, h) := s in
  let '(a', b', c', d', e', f', g', h') :=
    fold_left round (combine K (schedule block)) s in
  (add32 a a', add32 b b', add32 c c', add32 d d',
   add32 e e', add32 f f', add32 g g', add32 h h').

Definition digest (s : state) : list byte :=
  let '(a, b, c, d, e, f, g, h) := s in
  flat_map (bigEndian 4) [a; b; c; d; e; f; g; h].

Definition hash (msg : list byte) : list byte :=
  let padded := pad msg in
  digest (fold_left compress (chunks (length padded / 64) padded) initial).

#[export] Instance instance : Hash256.
Proof.
  refine {| sha256 := hash |}.
  intros data. unfold hash.
  destruct (fold_left compress _ initial) as [[[[[[[a b] c] d] e] f] g] h].
  reflexivity.
Defined.

End Sha256.

(** ** Notions used to state the properties *)

Import Prover StarkVerifier.

(** The invariant of the data model: the value lies in [[0, modulus)]. *)
Definition canonical (a : FieldElement) : Prop :=
  0 <= value a < modulus a.

(** The integer that a byte string denotes, big-endian. *)
Fixpoint bigEndianValue (bytes : list byte) : Z :=
  match bytes with
  | [] => 0
  | b :: rest =>
      byte.unsigned b * 256 ^ Z.of_nat (length rest) + bigEndianValue rest
  end.

(** The 32-byte big-endian encoding of an integer. *)
Definition encode32 (v : Z) : list byte :=
  map (fun i => byte.of_Z (v / 256 ^ Z.of_nat (31 - i))) (seq 0 32).

(** The transition applied [n] times. *)
Fixpoint applyTransition (n : nat) (x : FieldElement) : result FieldElement :=
  match n with
  | O => Ret x
  | S n' => y <- authHash x ;; applyTransition n' y
  end.

Section Sampling.
Context {H : Hash256}.

(** The specification's account of the index derivation, against which
    [deriveQueryIndices] is compared: draw with the counter at 0, 1, 2, ...,
    discard duplicates, keep drawing until enough indices are collected. *)

(** Keeping a drawn index unless it was drawn before. *)
Definition keepNew (indices : list Z) (idx : Z) : list Z :=
  if includes indices idx then indices else indices ++ [idx].

(** The indices collected once the counter has taken the values
    [0 .. n-1]: the forced index, then the distinct draws in order. *)
Definition collected (seed : list byte) (steps : Z) (n : nat) : list Z :=
  fold_left keepNew
            (map (fun c => drawIndex seed steps (Z.of_nat c)) (seq 0 n))
            [Number.sub steps 2].

(** [n] draws are enough to gather [queries] distinct indices. *)
Definition drawsSuffice (seed : list byte) (params : AuthParams.t) (n : nat)
  : Prop :=
  AuthParams.queries params
  <= Z.of_nat (length (collected seed (AuthParams.steps params) n)).

(** The Merkle root that commits to a trace. *)
Definition traceRoot (trace : list FieldElement) : list byte :=
  let leaves := map fieldElementToBytes trace in
  hd [] (last (leaves :: MerkleTree.buildLayers leaves) []).

(** What the verifier's loop needs of the pair [(index, opening)]; the
    bounds on the index are the ones the code computes. *)
Definition acceptable (statement : Statement.t) (steps : Z) (root : list byte)
  (pair : Z * dyn AuthOpening.t) : Prop :=
  exists cur nxt pc pn,
    snd pair = Some (AuthOpening.mk (Some (fst pair)) (Some cur) (Some nxt)
                                    (Some pc) (Some pn)) /\
    0 <= fst pair < Number.sub steps 1 /\
    MerkleProof.root pc = root /\ MerkleProof.root pn = root /\
    MerkleProof.verify pc = true /\ MerkleProof.verify pn = true /\
    authHash cur = Ret nxt /\
    (fst pair = Number.sub steps 2 ->
     nxt = Statement.finalHash statement).

End Sampling.

(** A proof with its list of indices replaced. *)
Definition withIndices (proof : Proof.t) (indices : list Z) : Proof.t :=
  Proof.mk (Proof.root proof) (Some indices) (Proof.openings proof).

(** A statement with its public value replaced. *)
Definition withFinalHash (statement : Statement.t) (f : FieldElement)
  : Statement.t :=
  Statement.mk (Statement.steps statement) f.

(** What an honest opening of [index] looks like: the two values are
    the entries [index] and [index + 1] of the trace, linked by the
    transition, and the two Merkle proofs verify, under [root], with the
    encodings of the two values as leaves. *)
Definition honestOpening {H : Hash256} (trace : list FieldElement)
  (root : list byte) (index : Z) (o : dyn AuthOpening.t) : Prop :=
  exists cur nxt pc pn,
    o = Some (AuthOpening.mk (Some index) (Some cur) (Some nxt)
                             (Some pc) (Some pn)) /\
    get trace index = Some cur /\
    get trace (index + 1) = Some nxt /\
    authHash cur = Ret nxt /\
    MerkleProof.leaf pc = fieldElementToBytes cur /\
    MerkleProof.leaf pn = fieldElementToBytes nxt /\
    MerkleProof.root pc = root /\ MerkleProof.root pn = root /\
    MerkleProof.verify pc = true /\ MerkleProof.verify pn = true.


(** The integers of [[a, b)], in order. *)
Definition range (a b : Z) : list Z :=
  map Z.of_nat (seq (Z.to_nat a) (Z.to_nat (b - a))).

(** *** Polynomials *)

(** The value at [x] of the polynomial with the integer coefficients
    [cs], constant term first. *)
Fixpoint polyValue (cs : list Z) (x : Z) : Z :=
  match cs with
  | [] => 0
  | c :: rest => c + x * polyValue rest x
  end.

Definition valueAt (p : Polynomial.t) (x : Z) : Z :=
  polyValue (map value (Polynomial.coefficients p)) x.

(** What the constructor guarantees: at least one coefficient, and every
    coefficient in the field of the polynomial. *)
Definition overField (m : Z) (p : Polynomial.t) : Prop :=
  Polynomial.modulus p = m /\ Polynomial.coefficients p <> [] /\
  Forall (fun c => modulus c = m) (Polynomial.coefficients p).

(** The normal form: the leading coefficient is not zero, the constant
    polynomials apart. *)
Definition trimmed (p : Polynomial.t) : Prop :=
  length (Polynomial.coefficients p) = 1%nat \/
  exists c, Polynomial.leadingCoefficient p = Some c /\ isZero c = false.

(** Two integers with the same remainder modulo [m]. *)
Inductive congruent (m a b : Z) : Prop :=
| congruent_intro : a mod m = b mod m -> congruent m a b.

(** *** Concrete instances *)

Module Instances.

(** The acceptance instance: secret 123456789, 16 steps, 5 queries. *)
Definition secret : FieldElement := mkFE 123456789 STARK_PRIME.
Definition witness : Witness.t := Witness.mk secret.
Definition params : AuthParams.t := AuthParams.mk 16 5.
Definition finalHash : FieldElement :=
  mkFE 219140938346724508678589832864411469745782801775363872164495614331709874543
       STARK_PRIME.
Definition statement : Statement.t := Statement.mk 16 finalHash.
Definition trace : list FieldElement :=
  Eval vm_compute in
    match buildAuthTrace witness params with
    | Ret t => t
    | _ => []
    end.

(** A two-step chain from [1]: its only transition is [1 -> 8]. *)
Definition smallParams : AuthParams.t := AuthParams.mk 2 1.
Definition smallStatement : Statement.t :=
  Statement.mk 2 (mkFE 8 STARK_PRIME).
Definition zeroRoot : list byte := repeat Byte.x00 32.
Definition onesRoot : list byte := repeat Byte.xff 32.

(** A proof whose Merkle proofs open the root itself, with an empty path,
    next to the field values [1] and [8]. *)
Definition rootOnly : MerkleProof.t := MerkleProof.mk zeroRoot [] zeroRoot.
Definition detachedOpening : AuthOpening.t :=
  AuthOpening.mk (Some 0) (Some (mkFE 1 STARK_PRIME))
                 (Some (mkFE 8 STARK_PRIME)) (Some rootOnly) (Some rootOnly).
Definition detachedProof : Proof.t :=
  Proof.mk (Some zeroRoot) (Some [0]) (Some [Some detachedOpening]).

(** The proof that [generateAuthProof] returns on the acceptance
    instance. *)
Definition acceptedProof : Proof.t :=
  Eval vm_compute in
    match generateAuthProof (H := Sha256.instance) 8 statement witness params
    with
    | Ret p => p
    | _ => Proof.mk None None None
    end.

(** A proof object without a root. *)
Definition rootlessProof : Proof.t := Proof.mk None (Some [0]) (Some [None]).

(** Parameters that ask for more queries than there are transitions. *)
Definition greedyParams : AuthParams.t := AuthParams.mk 2 2.
Definition twoOpenings : Proof.t :=
  Proof.mk (Some zeroRoot) (Some [0; 0]) (Some [None; None]).

(** A tree of three one-byte leaves, the last of which is promoted. *)
Definition threeLeaves : list (list byte) :=
  [[Byte.x01]; [Byte.x02]; [Byte.x03]].
Definition threeTree : MerkleTree.t :=
  Eval vm_compute in
    match MerkleTree.new (H := Sha256.instance) threeLeaves with
    | Ret t => t
    | _ => MerkleTree.mk [] [] []
    end.


(** Parameters beyond what an array can hold. *)
Definition hugeParams : AuthParams.t := AuthParams.mk (2 ^ 32 + 1) (2 ^ 32).
Definition longParams : AuthParams.t := AuthParams.mk (2 ^ 32) 1.

(** As many queries as an array can hold indices, over [2^32] steps, and
    a proof whose arrays of indices and openings have that length. *)
Definition wideParams : AuthParams.t := AuthParams.mk (2 ^ 32) (2 ^ 32 - 1).
Definition wideStatement : Statement.t := Statement.mk (2 ^ 32) finalHash.
Definition longProof : Proof.t :=
  Proof.mk (Some zeroRoot)
           (Some (repeat 0 (Z.to_nat (2 ^ 32 - 1))))
           (Some (repeat None (Z.to_nat (2 ^ 32 - 1)))).





(** Polynomials and points over the field of 11 elements. *)
Definition quadratic : list FieldElement :=
  [mkFE 3 11; mkFE 0 11; mkFE 5 11; mkFE 0 11].

Definition parabola : Polynomial.t :=
  Polynomial.mk [mkFE 3 11; mkFE 0 11; mkFE 5 11] 11.

Definition line : Polynomial.t := Polynomial.mk [mkFE 1 11; mkFE 2 11] 11.

Definition samples : list (FieldElement * FieldElement) :=
  [(mkFE 1 11, mkFE 3 11); (mkFE 2 11, mkFE 5 11); (mkFE 4 11, mkFE 0 11)].

End Instances.

(** * Properties *)

(** ** The outcome monad *)

Lemma bind_Ret {A B : Type} (m : result A) (k : A -> result B) (b : B) :
  bind m k = Ret b -> exists a, m = Ret a /\ k a = Ret b.
Proof. destruct m as [a | e |]; simpl; intros E; try discriminate; eauto. Qed.

Lemma tryCatch_never_throws {A : Type} (body : result A) (handler : A) (e : exn) :
  tryCatch body handler <> Throw e.
Proof. destruct body; simpl; discriminate. Qed.

(** ** Numbers *)

Lemma round_exact (x : Z) : Z.abs x <= 2 ^ 53 -> Number.round x = x.
Proof.
  intros Hx. unfold Number.round.
  destruct (Z.leb_spec (Z.abs x) (2 ^ 53)); [reflexivity | lia].
Qed.

Lemma sub_exact (a b : Z) :
  Z.abs (a - b) <= 2 ^ 53 -> Number.sub a b = a - b.
Proof. apply round_exact. Qed.

(** Rounding keeps the sign. *)
Lemma round_sign (x : Z) :
  (0 < x -> 0 < Number.round x) /\ (x <= 0 -> Number.round x <= 0).
Proof.
  unfold Number.round.
  destruct (Z.leb_spec (Z.abs x) (2 ^ 53)) as [Hsmall | Hbig]; [lia |].
  set (e := Z.log2 (Z.abs x) - 52).
  assert (Hlog : 53 <= Z.log2 (Z.abs x)).
  { change 53 with (Z.log2 (2 ^ 53)). apply Z.log2_le_mono. lia. }
  assert (He : 0 < 2 ^ e) by (apply Z.pow_pos_nonneg; unfold e; lia).
  assert (Hq : 1 <= Z.abs x / 2 ^ e).
  { apply Z.div_le_lower_bound; [exact He |].
    pose proof (Z.log2_spec (Z.abs x) ltac:(lia)) as [Hlo _].
    assert (2 ^ e <= 2 ^ Z.log2 (Z.abs x))
      by (apply Z.pow_le_mono_r; unfold e; lia).
    lia. }
  set (q := Z.abs x / 2 ^ e) in *.
  destruct ((Z.abs x mod 2 ^ e >? 2 ^ (e - 1))
            || (Z.abs x mod 2 ^ e =? 2 ^ (e - 1)) && Z.odd q).
  - split; intros Hx.
    + rewrite Z.sgn_pos by lia. nia.
    + rewrite Z.sgn_neg by lia. nia.
  - split; intros Hx.
    + rewrite Z.sgn_pos by lia. nia.
    + rewrite Z.sgn_neg by lia. nia.
Qed.

Lemma add_exact (a b : Z) :
  Z.abs (a + b) <= 2 ^ 53 -> Number.add a b = a + b.
Proof. apply round_exact. Qed.

Lemma sub_positive (a b : Z) : b < a -> 1 <= Number.sub a b.
Proof.
  intros Hab. pose proof (proj1 (round_sign (a - b)) ltac:(lia)).
  unfold Number.sub. lia.
Qed.

Lemma sub_nonpositive (a b : Z) : a <= b -> Number.sub a b <= 0.
Proof. intros Hab. apply round_sign. lia. Qed.

(** Within the exact range a subtraction is the integer one. *)
Ltac number_exact :=
  repeat match goal with
         | |- context [Number.sub ?a ?b] =>
             rewrite (sub_exact a b) by lia
         | Hyp : context [Number.sub ?a ?b] |- _ =>
             rewrite (sub_exact a b) in Hyp by lia
         end.

(** Beyond [2^53] a subtraction need not change its first argument:
    [2^60 - 2] is [2^60], [(2^53 + 2) - 1] is [2^53] and [2^54 - 1] is
    [2^54]. *)
Example sub_rounds :
  Number.sub (2 ^ 60) 2 = 2 ^ 60 /\
  Number.sub (2 ^ 53 + 2) 1 = 2 ^ 53 /\
  Number.sub (2 ^ 54) 1 = 2 ^ 54.
Proof. repeat split; vm_compute; reflexivity. Qed.

(** ** Field arithmetic *)

Lemma mod_pos (m n : Z) : 0 < m -> mod_ m n = Ret (n mod m).
Proof.
  intros Hm. unfold mod_.
  destruct (Z.eqb_spec m 0) as [-> | Hne]; [lia |].
  f_equal.
  pose proof (Z.quot_rem' n m) as E.
  pose proof (Z.rem_bound_abs n m Hne) as B.
  destruct (Z.geb_spec (Z.rem n m) 0) as [Hr | Hr].
  - apply Z.mod_unique_pos with (q := Z.quot n m); lia.
  - apply Z.mod_unique_pos with (q := Z.quot n m - 1); lia.
Qed.

Lemma new_pos (v m : Z) : 0 < m -> new v m = Ret (mkFE (v mod m) m).
Proof. intros Hm. unfold new. rewrite mod_pos by exact Hm. reflexivity. Qed.

(** ** The trace *)

Lemma traceLoop_spec (n : nat) :
  forall prev l,
    traceLoop n prev = Ret l ->
    length l = n /\
    forall i x y,
      nth_error (prev :: l) i = Some x -> nth_error l i = Some y ->
      authHash x = Ret y.
Proof.
  induction n as [| n IH]; intros prev l E; simpl in E.
  - injection E as <-. split; [reflexivity |].
    intros i x y _ Hy. destruct i; discriminate.
  - apply bind_Ret in E as (ti & Hti & E).
    apply bind_Ret in E as (rest & Hrest & E).
    injection E as <-.
    destruct (IH _ _ Hrest) as [Hlen Hstep].
    split; [simpl; congruence |].
    intros [| i] x y Hx Hy; simpl in Hx, Hy.
    + congruence.
    + eapply Hstep; eassumption.
Qed.

Lemma get_nth_error {A : Type} (arr : list A) (i : Z) (x : A) :
  get arr i = Some x <-> 0 <= i /\ nth_error arr (Z.to_nat i) = Some x.
Proof.
  unfold get. destruct (Z.ltb_spec i 0); split.
  - discriminate.
  - intros [? _]. lia.
  - auto.
  - intros [_ E]. exact E.
Qed.

Lemma get_in_range {A : Type} (arr : list A) (i : Z) :
  0 <= i < Z.of_nat (length arr) -> exists x, get arr i = Some x.
Proof.
  intros Hi. unfold get.
  destruct (Z.ltb_spec i 0); [lia |].
  destruct (nth_error arr (Z.to_nat i)) as [x |] eqn:E; [eauto |].
  apply nth_error_None in E. lia.
Qed.

Lemma buildAuthTrace_spec (witness : Witness.t) (params : AuthParams.t)
  (trace : list FieldElement) :
  buildAuthTrace witness params = Ret trace ->
  2 <= AuthParams.steps params <= maxLength /\
  Z.of_nat (length trace) = AuthParams.steps params /\
  forall i x y,
    get trace i = Some x -> get trace (i + 1) = Some y -> authHash x = Ret y.
Proof.
  unfold buildAuthTrace. intros E.
  destruct (Z.ltb_spec (AuthParams.steps params) 2); [discriminate |].
  destruct (Z.gtb_spec (AuthParams.steps params) maxLength); [discriminate |].
  apply bind_Ret in E as (t0 & Ht0 & E).
  apply bind_Ret in E as (rest & Hrest & E).
  injection E as <-.
  destruct (traceLoop_spec _ _ _ Hrest) as [Hlen Hstep].
  split; [lia |]. split; [simpl; lia |].
  intros i x y Hx Hy.
  apply get_nth_error in Hx as [Hi Hx].
  apply get_nth_error in Hy as [_ Hy].
  replace (Z.to_nat (i + 1)) with (S (Z.to_nat i)) in Hy by lia.
  simpl in Hy. eapply Hstep; eassumption.
Qed.

(** C4, as stated: 16 applications to [Transition(secret)] give another
    value than [trace[15]]. *)
Lemma trace_final_is_not_16_after_first :
  (trace <- buildAuthTrace Instances.witness Instances.params ;;
   prop "value" (get trace 15))
  <> (t0 <- authHash Instances.secret ;; applyTransition 16 t0).
Proof. vm_compute. discriminate. Qed.

(** C4, amended: for secret 123456789 and 16 steps, [trace[15]] is the
    transition applied 15 times to [Transition(secret)], that is 16 times
    to the secret. *)
Theorem trace_final_value :
  exists trace t0,
    buildAuthTrace Instances.witness Instances.params = Ret trace /\
    authHash Instances.secret = Ret t0 /\
    get trace 0 = Some t0 /\
    get trace 15 = Some Instances.finalHash /\
    applyTransition 15 t0 = Ret Instances.finalHash /\
    applyTransition 16 Instances.secret = Ret Instances.finalHash.
Proof.
  do 2 eexists.
  split; [vm_compute; reflexivity |].
  split; [vm_compute; reflexivity |].
  repeat split; vm_compute; reflexivity.
Qed.

(** ** Decoding *)

Lemma lor_shiftl_byte (v b : Z) :
  0 <= b < 256 -> Z.lor (Z.shiftl v 8) b = v * 256 + b.
Proof.
  intros Hb.
  rewrite Z.shiftl_mul_pow2 by lia.
  change (2 ^ 8) with 256.
  assert (Hland : Z.land (v * 256) b = 0).
  { apply Z.bits_inj'. intros n Hn.
    rewrite Z.land_spec, Z.bits_0.
    destruct (Z.lt_ge_cases n 8) as [Hlow | Hhigh].
    - change 256 with (2 ^ 8).
      rewrite Z.mul_pow2_bits_low by lia. reflexivity.
    - rewrite <- (Z.mod_small b (2 ^ 8)) by (change (2 ^ 8) with 256; lia).
      rewrite Z.mod_pow2_bits_high by lia.
      apply andb_false_r. }
  rewrite <- Z.lxor_lor by exact Hland.
  symmetry. apply Z.add_nocarry_lxor. exact Hland.
Qed.

Lemma fold_bytes_value (bytes : list byte) :
  forall acc,
    fold_left (fun v b => Z.lor (Z.shiftl v 8) (byte.unsigned b)) bytes acc
    = acc * 256 ^ Z.of_nat (length bytes) + bigEndianValue bytes.
Proof.
  induction bytes as [| b rest IH]; intros acc.
  - simpl. lia.
  - cbn [fold_left bigEndianValue length].
    rewrite IH, lor_shiftl_byte.
    + rewrite Nat2Z.inj_succ, Z.pow_succ_r by lia. ring.
    + pose proof (byte.unsigned_range b) as R.
      change (2 ^ 8) with 256 in R. exact R.
Qed.

Lemma bytesToBigint_value (bytes : list byte) :
  bytesToBigint bytes = bigEndianValue bytes.
Proof. unfold bytesToBigint. rewrite fold_bytes_value. lia. Qed.

Lemma STARK_PRIME_pos : 0 < STARK_PRIME.
Proof. reflexivity. Qed.

Lemma fieldElementFromBytes_spec (bytes : list byte) :
  length bytes = 32%nat ->
  fieldElementFromBytes bytes
  = Ret (mkFE (bigEndianValue bytes mod STARK_PRIME) STARK_PRIME).
Proof.
  intros Hlen. unfold fieldElementFromBytes.
  rewrite Hlen. cbn [Nat.eqb negb].
  rewrite bytesToBigint_value.
  apply new_pos, STARK_PRIME_pos.
Qed.

Lemma fieldElementFromBytes_length (bytes : list byte) :
  length bytes <> 32%nat -> fieldElementFromBytes bytes = Throw InvalidLength.
Proof.
  intros Hlen. unfold fieldElementFromBytes.
  destruct (Nat.eqb_spec (length bytes) 32); [contradiction | reflexivity].
Qed.

(** C10: a 32-byte input whose big-endian value is [>= STARK_PRIME] is not
    rejected; it decodes to that value reduced modulo [STARK_PRIME]. *)
Theorem fieldElementFromBytes_reduces (bytes : list byte) :
  length bytes = 32%nat ->
  STARK_PRIME <= bigEndianValue bytes ->
  fieldElementFromBytes bytes
  = Ret (mkFE (bigEndianValue bytes mod STARK_PRIME) STARK_PRIME)
  /\ bigEndianValue bytes mod STARK_PRIME <> bigEndianValue bytes.
Proof.
  intros Hlen Hge. split.
  - apply fieldElementFromBytes_spec, Hlen.
  - pose proof (Z.mod_pos_bound (bigEndianValue bytes) STARK_PRIME
                                STARK_PRIME_pos).
    lia.
Qed.

Lemma fieldElementFromBytes_reduces_witness :
  STARK_PRIME <= bigEndianValue Instances.onesRoot /\
  fieldElementFromBytes Instances.onesRoot
  = Ret (mkFE (bigEndianValue Instances.onesRoot mod STARK_PRIME) STARK_PRIME)
  /\ bigEndianValue Instances.onesRoot mod STARK_PRIME
     <> bigEndianValue Instances.onesRoot.
Proof.
  split.
  - vm_compute. discriminate.
  - apply (fieldElementFromBytes_reduces Instances.onesRoot).
    + reflexivity.
    + vm_compute. discriminate.
Defined.

(** ** Encoding *)

Lemma hexValue_digitChar (d : Z) :
  0 <= d < 16 -> hexValue (digitChar d) = Some d.
Proof.
  intros Hd.
  rewrite <- (Z2Nat.id d) at 2 by lia.
  unfold digitChar.
  assert (Hn : (Z.to_nat d < 16)%nat) by lia.
  revert Hn. generalize (Z.to_nat d). intros k Hk.
  do 16 (destruct k as [| k]; [reflexivity |]). lia.
Qed.

Lemma digitChar_not_minus (d : Z) :
  0 <= d < 16 -> Ascii.eqb (digitChar d) "-"%char = false.
Proof.
  intros Hd. unfold digitChar.
  assert (Hn : (Z.to_nat d < 16)%nat) by lia.
  revert Hn. generalize (Z.to_nat d). intros k Hk.
  do 16 (destruct k as [| k]; [reflexivity |]). lia.
Qed.

Lemma parseInt16_pair (a b : Z) :
  0 <= a < 16 -> 0 <= b < 16 ->
  parseInt16 [digitChar a; digitChar b] = Some (a * 16 + b).
Proof.
  intros Ha Hb. unfold parseInt16.
  rewrite digitChar_not_minus by exact Ha.
  simpl. rewrite !hexValue_digitChar by assumption. reflexivity.
Qed.

Lemma map_constant {A B : Type} (f : A -> B) (c : B) (l : list A) :
  (forall x, In x l -> f x = c) -> map f l = repeat c (length l).
Proof.
  induction l as [| x l IH]; intros Hc; simpl; [reflexivity |].
  rewrite Hc by (left; reflexivity).
  rewrite IH by (intros y Hy; apply Hc; right; exact Hy).
  reflexivity.
Qed.

Lemma map_seq_offset {B : Type} (n : nat) :
  forall (f : nat -> B) (a : nat),
    map f (seq a n) = map (fun i => f (a + i)%nat) (seq 0 n).
Proof.
  induction n as [| n IH]; intros f a; [reflexivity |].
  cbn [seq map]. rewrite Nat.add_0_r. f_equal.
  rewrite (IH f (S a)), (IH (fun i => f (a + i)%nat) 1%nat).
  apply map_ext. intros i. f_equal. lia.
Qed.

Lemma hexLength_bounds (v : Z) :
  0 < v -> v < 16 ^ Z.of_nat (hexLength v) /\
           (v < 16 ^ 64 -> (hexLength v <= 64)%nat).
Proof.
  intros Hv. unfold hexLength.
  pose proof (Z.log2_spec v Hv) as [Hlo Hhi].
  pose proof (Z.log2_nonneg v) as Hnn.
  rewrite Z2Nat.id by (pose proof (Z.div_pos (Z.log2 v) 4); lia).
  split.
  - change 16 with (2 ^ 4). rewrite <- Z.pow_mul_r by
      (pose proof (Z.div_pos (Z.log2 v) 4); lia).
    eapply Z.lt_le_trans; [exact Hhi |].
    apply Z.pow_le_mono_r; [lia |].
    pose proof (Z.div_mod (Z.log2 v) 4 ltac:(lia)).
    pose proof (Z.mod_pos_bound (Z.log2 v) 4 ltac:(lia)).
    lia.
  - intros Hlt.
    assert (Z.log2 v < 256).
    { apply Z.log2_lt_pow2; [exact Hv |].
      change (2 ^ 256) with (16 ^ 64). exact Hlt. }
    pose proof (Z.div_lt_upper_bound (Z.log2 v) 4 64 ltac:(lia) ltac:(lia)).
    lia.
Qed.

(** The padded hexadecimal string of a value below [2^256]: its [j]-th
    character is the digit of weight [16^(63-j)]. *)
Lemma padded_hex (v : Z) :
  0 <= v < 16 ^ 64 ->
  padStart 64 "0"%char (toString16 v)
  = map (fun j => digitChar ((v / 16 ^ Z.of_nat (63 - j)) mod 16)) (seq 0 64).
Proof.
  intros [Hlo Hhi].
  destruct v as [| p | p]; [reflexivity | | lia].
  set (v := Z.pos p) in *.
  destruct (hexLength_bounds v ltac:(reflexivity)) as [Hlt Hlen].
  specialize (Hlen Hhi).
  change (toString16 v) with (hexDigits v).
  unfold padStart, hexDigits.
  rewrite length_map, length_seq.
  set (n := hexLength v) in *.
  replace 64%nat with ((64 - n) + n)%nat at 2 by lia.
  rewrite seq_app, map_app. f_equal.
  - symmetry. rewrite map_constant with (c := "0"%char).
    + rewrite length_seq. reflexivity.
    + intros j Hj. apply in_seq in Hj.
      rewrite Z.div_small; [reflexivity |].
      split; [lia |].
      eapply Z.lt_le_trans; [exact Hlt |].
      apply Z.pow_le_mono_r; lia.
  - symmetry. rewrite (map_seq_offset n _ (0 + (64 - n))).
    apply map_ext_in.
    intros i Hi. apply in_seq in Hi.
    do 4 f_equal. lia.
Qed.

Lemma slice_pair {B : Type} (f : nat -> B) (n a : nat) :
  (a + 2 <= n)%nat ->
  firstn (a + 2 - a) (skipn a (map f (seq 0 n))) = [f a; f (S a)].
Proof.
  intros Ha.
  rewrite skipn_map, skipn_seq.
  replace (a + 2 - a)%nat with 2%nat by lia.
  destruct (n - a)%nat as [| [| m]] eqn:E; try lia.
  reflexivity.
Qed.

Lemma byte_of_Z_mod (x : Z) : byte.of_Z (x mod 256) = byte.of_Z x.
Proof.
  apply byte.unsigned_inj. rewrite !byte.unsigned_of_Z. unfold byte.wrap.
  change (2 ^ 8) with 256. apply Z.mod_mod. lia.
Qed.

Lemma two_digits_one_byte (v : Z) (k : nat) :
  0 <= v ->
  (v / 16 ^ Z.of_nat (2 * k + 1)) mod 16 * 16 + (v / 16 ^ Z.of_nat (2 * k)) mod 16
  = (v / 256 ^ Z.of_nat k) mod 256.
Proof.
  intros Hv.
  replace (Z.of_nat (2 * k + 1)) with (Z.of_nat (2 * k) + 1) by lia.
  rewrite Z.pow_add_r by lia.
  replace (Z.of_nat (2 * k)) with (2 * Z.of_nat k) by lia.
  rewrite Z.pow_mul_r by lia.
  change (16 ^ 2) with 256. change (16 ^ 1) with 16.
  assert (Hpos : 0 < 256 ^ Z.of_nat k) by (apply Z.pow_pos_nonneg; lia).
  rewrite <- Z.div_div by lia.
  set (w := v / 256 ^ Z.of_nat k).
  change 256 with (16 * 16).
  rewrite Z.rem_mul_r by lia. lia.
Qed.

(** On a value in [[0, 2^256)] the string manipulation of
    [fieldElementToBytes] is the 32-byte big-endian encoding. *)
Lemma fieldElementToBytes_encode32 (a : FieldElement) :
  0 <= value a < 2 ^ 256 -> fieldElementToBytes a = encode32 (value a).
Proof.
  intros Hv. unfold fieldElementToBytes, encode32.
  rewrite padded_hex by (change (16 ^ 64) with (2 ^ 256); exact Hv).
  apply map_ext_in. intros i Hi. apply in_seq in Hi.
  unfold slice.
  rewrite slice_pair by lia.
  rewrite parseInt16_pair by (apply Z.mod_pos_bound; lia).
  cbn [toUint8].
  replace (63 - i * 2)%nat with (2 * (31 - i) + 1)%nat by lia.
  replace (63 - S (i * 2))%nat with (2 * (31 - i))%nat by lia.
  rewrite two_digits_one_byte by lia.
  apply byte_of_Z_mod.
Qed.

Lemma bigEndianValue_digits (v : Z) (k : nat) :
  forall s : nat,
    bigEndianValue
      (map (fun i => byte.of_Z (v / 256 ^ Z.of_nat (s + (k - 1 - i)))) (seq 0 k))
    = (v / 256 ^ Z.of_nat s) mod 256 ^ Z.of_nat k.
Proof.
  induction k as [| k IH]; intros s.
  - simpl. rewrite Z.mod_1_r. reflexivity.
  - cbn [seq map bigEndianValue].
    rewrite <- seq_shift, map_map, length_map, length_seq.
    rewrite byte.unsigned_of_Z. unfold byte.wrap. change (2 ^ 8) with 256.
    replace (s + (S k - 1 - 0))%nat with (s + k)%nat by lia.
    erewrite map_ext_in; [rewrite (IH s) |].
    2: { intros i Hi. apply in_seq in Hi.
         replace (s + (S k - 1 - S i))%nat with (s + (k - 1 - i))%nat by lia.
         reflexivity. }
    assert (Hs : 0 < 256 ^ Z.of_nat s) by (apply Z.pow_pos_nonneg; lia).
    assert (Hk : 0 < 256 ^ Z.of_nat k) by (apply Z.pow_pos_nonneg; lia).
    rewrite Nat2Z.inj_add, Z.pow_add_r, <- Z.div_div by lia.
    rewrite Nat2Z.inj_succ, Z.pow_succ_r, (Z.mul_comm 256) by lia.
    rewrite Z.rem_mul_r by lia. lia.
Qed.

Lemma bigEndianValue_encode32 (v : Z) :
  bigEndianValue (encode32 v) = v mod 2 ^ 256.
Proof.
  unfold encode32.
  pose proof (bigEndianValue_digits v 32 0) as E.
  cbn [Nat.add] in E.
  change (Z.of_nat 0) with 0 in E. rewrite Z.pow_0_r, Z.div_1_r in E.
  exact E.
Qed.

Lemma encode32_length (v : Z) : length (encode32 v) = 32%nat.
Proof. reflexivity. Qed.

(** C9: decoding the encoding of a canonical element of the STARK field
    gives the element back, and decoding fails with [InvalidLength] on any
    input that is not 32 bytes long. *)
Theorem encode_decode_roundtrip (a : FieldElement) :
  modulus a = STARK_PRIME ->
  canonical a ->
  fieldElementFromBytes (fieldElementToBytes a) = Ret a
  /\ forall bytes,
       length bytes <> 32%nat ->
       fieldElementFromBytes bytes = Throw InvalidLength.
Proof.
  intros Hm [Hlo Hhi]. rewrite Hm in Hhi. split.
  - assert (Hlt : STARK_PRIME < 2 ^ 256) by reflexivity.
    rewrite fieldElementToBytes_encode32 by lia.
    rewrite fieldElementFromBytes_spec by apply encode32_length.
    rewrite bigEndianValue_encode32.
    rewrite (Z.mod_small (value a) (2 ^ 256)) by lia.
    rewrite Z.mod_small by lia.
    destruct a as [v m]. simpl in *. subst m. reflexivity.
  - apply fieldElementFromBytes_length.
Qed.

Lemma encode_decode_roundtrip_witness :
  fieldElementFromBytes (fieldElementToBytes Instances.finalHash)
  = Ret Instances.finalHash
  /\ forall bytes,
       length bytes <> 32%nat ->
       fieldElementFromBytes bytes = Throw InvalidLength.
Proof.
  apply (encode_decode_roundtrip Instances.finalHash).
  - reflexivity.
  - unfold canonical. split; vm_compute; [discriminate | reflexivity].
Defined.

(** ** Inversion *)

(** The loop of [extendedGcd] on non-negative inputs: it returns the gcd
    and a coefficient [x] with [x * a = gcd] modulo [b]. *)
Lemma egcdLoop_spec (a b : Z) (oldR r oldS s : Z) :
  0 <= oldR -> 0 <= r ->
  Z.gcd oldR r = Z.gcd a b ->
  (b | oldS * a - oldR) ->
  (b | s * a - r) ->
  fst (egcdLoop oldR r oldS s) = Z.gcd a b /\
  (b | snd (egcdLoop oldR r oldS s) * a - Z.gcd a b).
Proof.
  funelim (egcdLoop oldR r oldS s); intros HoldR Hr Hgcd HoldS Hs.
  - subst r. rewrite Z.gcd_0_r, Z.abs_eq in Hgcd by exact HoldR.
    simpl. subst oldR. split; [reflexivity | exact HoldS].
  - match goal with
    | IH : forall x y : Z, 0 <= _ -> _ |- _ => apply IH; clear IH
    end.
    + exact Hr.
    + pose proof (Z.quot_rem' oldR r) as E.
      pose proof (Z.rem_nonneg oldR r ltac:(assumption) HoldR). lia.
    + rewrite <- Hgcd.
      replace (oldR - Z.quot oldR r * r) with (oldR + (- Z.quot oldR r) * r)
        by ring.
      rewrite Z.gcd_add_mult_diag_r. apply Z.gcd_comm.
    + exact Hs.
    + replace ((oldS - Z.quot oldR r * s) * a - (oldR - Z.quot oldR r * r))
        with ((oldS * a - oldR) - Z.quot oldR r * (s * a - r)) by ring.
      apply Z.divide_sub_r; [exact HoldS |].
      apply Z.divide_mul_r. exact Hs.
Qed.

Lemma inverse_spec (v p : Z) :
  Z.prime p -> 0 < v < p ->
  exists x,
    inverse (mkFE v p) = Ret (mkFE (x mod p) p) /\ (v * x) mod p = 1.
Proof.
  intros Hp Hv.
  pose proof (Z.prime_ge_2 p Hp) as Hp2.
  assert (Hg : Z.gcd v p = 1).
  { rewrite Z.gcd_comm. apply Z.coprime_prime_small; [exact Hp | lia]. }
  destruct (egcdLoop_spec v p v p 1 0) as [Hfst Hsnd];
    try lia; try reflexivity.
  { exists 0. ring. }
  { exists (-1). ring. }
  exists (snd (egcdLoop v p 1 0)). split.
  - unfold inverse, extendedGcd. cbn [value modulus].
    destruct (Z.eqb_spec v 0) as [? | _]; [lia |].
    destruct (Z.eqb_spec p 0) as [? | _]; [lia |].
    destruct (egcdLoop v p 1 0) as [g x]. cbn [fst snd] in *.
    rewrite Hfst, Hg. cbn [Z.eqb negb Pos.eqb].
    apply new_pos. lia.
  - rewrite Hg in Hsnd. destruct Hsnd as [k Hk].
    replace (v * snd (egcdLoop v p 1 0)) with (1 + k * p) by lia.
    rewrite Z.mod_add by lia. apply Z.mod_small. lia.
Qed.

Lemma prime_11 : Z.prime 11.
Proof.
  split; [lia |].
  intros n Hn [k Hk].
  assert (C : n = 2 \/ n = 3 \/ n = 4 \/ n = 5 \/ n = 6 \/ n = 7
              \/ n = 8 \/ n = 9 \/ n = 10) by lia.
  repeat (destruct C as [-> | C]; [lia |]). lia.
Qed.

(** C8: over a prime modulus, a non-zero element times its inverse is the
    multiplicative identity; inverting the zero element fails with
    [DivisionByZero]. *)
Theorem inverse_correct (a : FieldElement) :
  Z.prime (modulus a) ->
  canonical a ->
  value a <> 0 ->
  (exists inv,
      inverse a = Ret inv /\
      mul a inv = Ret (mkFE 1 (modulus a)) /\
      Field.one (modulus a) = Ret (mkFE 1 (modulus a)))
  /\ inverse (mkFE 0 (modulus a)) = Throw DivisionByZero.
Proof.
  intros Hp [Hlo Hhi] Hnz. split; [| reflexivity].
  destruct a as [v p]. cbn [value modulus] in *.
  pose proof (Z.prime_ge_2 p Hp) as Hp2.
  destruct (inverse_spec v p Hp ltac:(lia)) as (x & Hinv & Hx).
  exists (mkFE (x mod p) p). split; [exact Hinv |]. split.
  - unfold mul, ensureSameField. cbn [value modulus].
    rewrite Z.eqb_refl. cbn [negb bind].
    rewrite new_pos by lia.
    rewrite Z.mul_mod_idemp_r by lia. rewrite Hx. reflexivity.
  - unfold Field.one. rewrite new_pos by lia.
    rewrite Z.mod_small by lia. reflexivity.
Qed.

Lemma inverse_correct_witness :
  (exists inv,
      inverse (mkFE 7 11) = Ret inv /\
      mul (mkFE 7 11) inv = Ret (mkFE 1 11) /\
      Field.one 11 = Ret (mkFE 1 11))
  /\ inverse (mkFE 0 11) = Throw DivisionByZero.
Proof.
  apply (inverse_correct (mkFE 7 11)).
  - exact prime_11.
  - unfold canonical. simpl. lia.
  - simpl. lia.
Defined.

(** ** Merkle trees *)

Lemma arraysEqual_refl (a : list byte) : arraysEqual a a = true.
Proof.
  induction a as [| x a IH]; [reflexivity |].
  simpl. rewrite IH, (Byte.byte_dec_lb (x := x) (y := x) eq_refl). reflexivity.
Qed.

Lemma arraysEqual_eq (a b : list byte) : arraysEqual a b = true -> a = b.
Proof.
  revert b. induction a as [| x a IH]; intros [| y b] E; simpl in E;
    try discriminate; [reflexivity |].
  apply andb_prop in E as [Exy Eab].
  apply Byte.byte_dec_bl in Exy. f_equal; [exact Exy | apply IH, Eab].
Qed.

Lemma arrayEqualNumbers_refl (a : list Z) : arrayEqualNumbers a a = true.
Proof.
  induction a as [| x a IH]; [reflexivity |].
  simpl. rewrite IH, Z.eqb_refl. reflexivity.
Qed.

Lemma arrayEqualNumbers_eq (a b : list Z) :
  arrayEqualNumbers a b = true -> a = b.
Proof.
  revert b. induction a as [| x a IH]; intros [| y b] E; simpl in E;
    try discriminate; [reflexivity |].
  apply andb_prop in E as [Exy Eab].
  apply Z.eqb_eq in Exy. f_equal; [exact Exy | apply IH, Eab].
Qed.

Section MerkleFacts.
Context {H : Hash256}.

Lemma nextLayer_length (n : nat) :
  forall layer : list (list byte),
    (length layer <= n)%nat ->
    length (MerkleTree.nextLayer layer) = ((length layer + 1) / 2)%nat.
Proof.
  induction n as [| n IH]; intros [| a [| b rest]] Hn; simpl in Hn;
    try reflexivity; try lia.
  cbn [MerkleTree.nextLayer length]. rewrite IH by lia.
  replace (S (S (length rest)) + 1)%nat with ((length rest + 1) + 1 * 2)%nat
    by lia.
  rewrite Nat.div_add by lia. lia.
Qed.

(** Node [j] of the next layer when node [2j] has a right neighbour. *)
Lemma nextLayer_paired (j : nat) :
  forall layer : list (list byte),
    (2 * j + 1 < length layer)%nat ->
    nth j (MerkleTree.nextLayer layer) []
    = sha256 (nth (2 * j) layer [] ++ nth (2 * j + 1) layer []).
Proof.
  induction j as [| j IH]; intros [| a [| b rest]] Hj; simpl in Hj; try lia.
  - reflexivity.
  - cbn [MerkleTree.nextLayer nth].
    replace (2 * S j)%nat with (S (S (2 * j))) by lia.
    cbn [nth Nat.add]. apply IH. lia.
Qed.

(** Node [j] of the next layer when node [2j] is the unpaired last one. *)
Lemma nextLayer_promoted (j : nat) :
  forall layer : list (list byte),
    (2 * j + 1 = length layer)%nat ->
    nth j (MerkleTree.nextLayer layer) [] = nth (2 * j) layer [].
Proof.
  induction j as [| j IH]; intros [| a [| b rest]] Hj; simpl in Hj; try lia.
  - reflexivity.
  - cbn [MerkleTree.nextLayer nth].
    replace (2 * S j)%nat with (S (S (2 * j))) by lia.
    cbn [nth]. apply IH. lia.
Qed.

Lemma buildLayers_unfold (layer : list (list byte)) :
  MerkleTree.buildLayers layer
  = if lt_dec 1 (length layer)
    then MerkleTree.nextLayer layer
           :: MerkleTree.buildLayers (MerkleTree.nextLayer layer)
    else [].
Proof.
  funelim (MerkleTree.buildLayers layer);
    match goal with E : lt_dec _ _ = _ |- _ => rewrite E end; reflexivity.
Qed.

(** One layer of [getProof]: replaying the sibling collected at index [k]
    gives the parent, node [k / 2] of the next layer. *)
Lemma sibling_replays (layer : list (list byte)) (k : nat) :
  (k < length layer)%nat ->
  let i := Z.of_nat k in
  let isRightNode := Z.rem i 2 =? 1 in
  let siblingIndex := if isRightNode then i - 1 else i + 1 in
  fold_left MerkleProof.step
    (if siblingIndex <? Z.of_nat (length layer)
     then [mkNode (nth (Z.to_nat siblingIndex) layer [])
                  (if isRightNode then Left else Right)]
     else [])
    (nth k layer [])
  = nth (Z.to_nat (i / 2)) (MerkleTree.nextLayer layer) [].
Proof.
  intros Hk i isRightNode siblingIndex.
  pose proof (Nat.div_mod_eq k 2) as Ek.
  pose proof (Nat.mod_upper_bound k 2 ltac:(lia)) as Bk.
  remember (k / 2)%nat as j eqn:Ej.
  assert (Ei : Z.to_nat (i / 2) = j).
  { subst i j. rewrite <- (Nat2Z.id (k / 2)). f_equal.
    rewrite Nat2Z.inj_div. reflexivity. }
  rewrite Ei.
  assert (Er : Z.rem i 2 = Z.of_nat (k mod 2)).
  { subst i. rewrite Z.rem_mod_nonneg by lia.
    rewrite Nat2Z.inj_mod. reflexivity. }
  subst isRightNode siblingIndex. rewrite Er. subst i.
  destruct (k mod 2)%nat as [| [| m]] eqn:Em; [| | lia].
  - (* a left node *)
    cbn [Z.of_nat Z.eqb].
    replace (nth k layer []) with (nth (2 * j) layer []) by (f_equal; lia).
    destruct (Z.ltb_spec (Z.of_nat k + 1) (Z.of_nat (length layer)))
      as [Hs | Hs].
    + cbn [fold_left MerkleProof.step position hash].
      replace (Z.to_nat (Z.of_nat k + 1)) with (2 * j + 1)%nat by lia.
      symmetry. apply nextLayer_paired. lia.
    + cbn [fold_left]. symmetry. apply nextLayer_promoted. lia.
  - (* a right node *)
    change (Z.of_nat 1 =? 1) with true. cbv iota.
    replace (nth k layer []) with (nth (2 * j + 1) layer [])
      by (f_equal; lia).
    destruct (Z.ltb_spec (Z.of_nat k - 1) (Z.of_nat (length layer)))
      as [Hs | Hs]; [| lia].
    cbn [fold_left MerkleProof.step position hash].
    replace (Z.to_nat (Z.of_nat k - 1)) with (2 * j)%nat by lia.
    symmetry. apply nextLayer_paired. lia.
Qed.

(** Replaying the whole path collected by [getProof] from a node of a
    layer reaches the single node of the last layer. *)
Lemma path_replays (n : nat) :
  forall (layer : list (list byte)) (k : nat),
    (length layer <= n)%nat ->
    (k < length layer)%nat ->
    fold_left MerkleProof.step
      (MerkleTree.proofLoop (layer :: MerkleTree.buildLayers layer)
                            (Z.of_nat k))
      (nth k layer [])
    = hd [] (last (layer :: MerkleTree.buildLayers layer) []).
Proof.
  induction n as [| n IH]; intros layer k Hn Hk; [lia |].
  rewrite buildLayers_unfold.
  destruct (lt_dec 1 (length layer)) as [Hlong | Hshort].
  - set (rest := MerkleTree.buildLayers (MerkleTree.nextLayer layer)).
    cbn [MerkleTree.proofLoop].
    rewrite fold_left_app.
    rewrite (sibling_replays layer k Hk).
    pose proof (nextLayer_length _ layer (le_n _)) as Hlen.
    assert (Hhalf : ((length layer + 1) / 2 < length layer)%nat).
    { apply Nat.Div0.div_lt_upper_bound. lia. }
    assert (Hidx : Z.of_nat k / 2 = Z.of_nat (k / 2)).
    { rewrite Nat2Z.inj_div. reflexivity. }
    rewrite Hidx, Nat2Z.id.
    change (last (layer :: MerkleTree.nextLayer layer :: rest) [])
      with (last (MerkleTree.nextLayer layer :: rest) []).
    apply IH.
    + lia.
    + rewrite Hlen. apply Nat.Div0.div_lt_upper_bound.
      pose proof (Nat.div_mod_eq (length layer + 1) 2).
      pose proof (Nat.mod_upper_bound (length layer + 1) 2 ltac:(lia)).
      lia.
  - destruct layer as [| a [| b layer]]; simpl in Hk, Hshort; try lia.
    destruct k; [reflexivity | lia].
Qed.

Lemma getProof_verifies (leaves : list (list byte)) (i : Z) :
  leaves <> [] ->
  0 <= i < Z.of_nat (length leaves) ->
  exists tree proof,
    MerkleTree.new leaves = Ret tree /\
    MerkleTree.leaves tree = leaves /\
    MerkleTree.root tree
    = hd [] (last (leaves :: MerkleTree.buildLayers leaves) []) /\
    MerkleTree.getProof tree i = Ret proof /\
    MerkleProof.leaf proof = nth (Z.to_nat i) leaves [] /\
    MerkleProof.root proof = MerkleTree.root tree /\
    fold_left MerkleProof.step (MerkleProof.proof proof)
              (MerkleProof.leaf proof) = MerkleTree.root tree /\
    MerkleProof.verify proof = true.
Proof.
  intros Hne Hi.
  unfold MerkleTree.new.
  destruct (Nat.eqb_spec (length leaves) 0) as [E | _].
  { destruct leaves; [contradiction | discriminate]. }
  do 2 eexists. split; [reflexivity |].
  split; [reflexivity |]. split; [reflexivity |].
  unfold MerkleTree.getProof. cbn [MerkleTree.leaves MerkleTree.layers
                                   MerkleTree.root].
  destruct (Z.ltb_spec i 0); [lia |].
  destruct (Z.geb_spec i (Z.of_nat (length leaves))); [lia |].
  cbn [orb]. split; [reflexivity |].
  cbn [MerkleProof.leaf MerkleProof.root MerkleProof.proof].
  split; [reflexivity |]. split; [reflexivity |].
  assert (Hpath :
    fold_left MerkleProof.step
      (MerkleTree.proofLoop (leaves :: MerkleTree.buildLayers leaves) i)
      (nth (Z.to_nat i) leaves [])
    = hd [] (last (leaves :: MerkleTree.buildLayers leaves) [])).
  { rewrite <- (Z2Nat.id i) at 1 by lia.
    apply (path_replays (length leaves)); lia. }
  split; [exact Hpath |].
  unfold MerkleProof.verify.
  cbn [MerkleProof.leaf MerkleProof.root MerkleProof.proof].
  rewrite Hpath. apply arraysEqual_refl.
Qed.

End MerkleFacts.

(** C6: for a non-empty sequence of leaves and an index within it, the
    proof returned by [getProof] verifies: replaying its hash chain from
    the leaf reaches the root of the tree. *)
Theorem merkle_roundtrip {H : Hash256} (leaves : list (list byte)) (i : Z) :
  leaves <> [] ->
  0 <= i < Z.of_nat (length leaves) ->
  exists tree proof,
    MerkleTree.new leaves = Ret tree /\
    MerkleTree.getProof tree i = Ret proof /\
    MerkleProof.verify proof = true /\
    fold_left MerkleProof.step (MerkleProof.proof proof)
              (MerkleProof.leaf proof) = MerkleTree.getRoot tree.
Proof.
  intros Hne Hi.
  destruct (getProof_verifies leaves i Hne Hi)
    as (tree & proof & Hnew & _ & _ & Hget & _ & _ & Hchain & Hver).
  exists tree, proof. auto.
Qed.

Lemma merkle_roundtrip_witness :
  exists tree proof,
    MerkleTree.new (H := Sha256.instance)
                   [[Byte.x01]; [Byte.x02]; [Byte.x03]] = Ret tree /\
    MerkleTree.getProof tree 2 = Ret proof /\
    MerkleProof.verify (H := Sha256.instance) proof = true /\
    fold_left (MerkleProof.step (H := Sha256.instance))
              (MerkleProof.proof proof) (MerkleProof.leaf proof)
    = MerkleTree.getRoot tree.
Proof.
  apply (merkle_roundtrip (H := Sha256.instance)
                          [[Byte.x01]; [Byte.x02]; [Byte.x03]] 2).
  - discriminate.
  - simpl. lia.
Defined.

(** ** Query indices *)

Lemma includes_In (arr : list Z) (x : Z) : includes arr x = true <-> In x arr.
Proof.
  unfold includes. rewrite existsb_exists. split.
  - intros (y & Hy & E). apply Z.eqb_eq in E. subst y. exact Hy.
  - intros Hx. exists x. split; [exact Hx | apply Z.eqb_refl].
Qed.

Lemma bigEndianValue_nonneg (bytes : list byte) : 0 <= bigEndianValue bytes.
Proof.
  induction bytes as [| b rest IH]; simpl; [lia |].
  pose proof (byte.unsigned_range b).
  assert (0 <= 256 ^ Z.of_nat (length rest)) by (apply Z.pow_nonneg; lia).
  nia.
Qed.

Section SamplingFacts.
Context {H : Hash256}.

(** A draw is the first 8 bytes of the digest of [seed || ctr], read
    big-endian, modulo [steps - 1]. *)
Lemma drawIndex_value (seed : list byte) (steps counter : Z) :
  2 <= steps <= 2 ^ 53 ->
  drawIndex seed steps counter
  = bigEndianValue (firstn 8 (sha256 (seed ++ counterBytes counter)))
    mod (steps - 1).
Proof.
  intros Hsteps. unfold drawIndex. number_exact.
  pose proof (sha256_length (seed ++ counterBytes counter)) as Hlen.
  destruct (sha256 (seed ++ counterBytes counter))
    as [| b0 [| b1 [| b2 [| b3 [| b4 [| b5 [| b6 [| b7 rest]]]]]]]];
    try discriminate Hlen.
  change (firstn 8 (b0 :: b1 :: b2 :: b3 :: b4 :: b5 :: b6 :: b7 :: rest))
    with [b0; b1; b2; b3; b4; b5; b6; b7].
  rewrite <- bytesToBigint_value.
  assert (Hacc : 0 <= bytesToBigint [b0; b1; b2; b3; b4; b5; b6; b7]).
  { rewrite bytesToBigint_value. apply bigEndianValue_nonneg. }
  change (fold_left _ (seq 0 8) 0)
    with (bytesToBigint [b0; b1; b2; b3; b4; b5; b6; b7]).
  rewrite Z.rem_mod_nonneg by lia.
  apply round_exact.
  pose proof (Z.mod_pos_bound
                (bytesToBigint [b0; b1; b2; b3; b4; b5; b6; b7])
                (steps - 1) ltac:(lia)).
  lia.
Qed.

Lemma drawIndex_range (seed : list byte) (steps counter : Z) :
  2 <= steps <= 2 ^ 53 -> 0 <= drawIndex seed steps counter <= steps - 2.
Proof.
  intros Hsteps. rewrite drawIndex_value by exact Hsteps.
  pose proof (Z.mod_pos_bound
                (bigEndianValue
                   (firstn 8 (sha256 (seed ++ counterBytes counter))))
                (steps - 1) ltac:(lia)).
  lia.
Qed.

Lemma keepNew_length (indices : list Z) (idx : Z) :
  (length indices <= length (keepNew indices idx) <= S (length indices))%nat.
Proof.
  unfold keepNew. destruct (includes indices idx).
  - lia.
  - rewrite length_app. simpl. lia.
Qed.

Lemma keepNew_In (indices : list Z) (idx x : Z) :
  In x (keepNew indices idx) -> In x indices \/ x = idx.
Proof.
  unfold keepNew. destruct (includes indices idx).
  - auto.
  - intros Hx. apply in_app_or in Hx as [Hx | [Hx | []]]; auto.
Qed.

Lemma keepNew_NoDup (indices : list Z) (idx : Z) :
  NoDup indices -> NoDup (keepNew indices idx).
Proof.
  intros Hnd. unfold keepNew.
  destruct (includes indices idx) eqn:E; [exact Hnd |].
  apply NoDup_app; [exact Hnd | repeat constructor; intros [] | ].
  intros x Hx [<- | []].
  apply includes_In in Hx. congruence.
Qed.

Lemma keepNew_hd (indices : list Z) (idx x : Z) :
  hd_error indices = Some x -> hd_error (keepNew indices idx) = Some x.
Proof.
  unfold keepNew. destruct (includes indices idx); [auto |].
  destruct indices; [discriminate | auto].
Qed.

Lemma collected_S (seed : list byte) (steps : Z) (n : nat) :
  collected seed steps (S n)
  = keepNew (collected seed steps n) (drawIndex seed steps (Z.of_nat n)).
Proof.
  unfold collected. rewrite seq_S, map_app, fold_left_app. reflexivity.
Qed.

Lemma collected_length_mono (seed : list byte) (steps : Z) (a b : nat) :
  (a <= b)%nat ->
  (length (collected seed steps a) <= length (collected seed steps b))%nat.
Proof.
  induction 1 as [| b Hab IH]; [lia |].
  rewrite collected_S.
  pose proof (keepNew_length (collected seed steps b)
                             (drawIndex seed steps (Z.of_nat b))).
  lia.
Qed.

Lemma collected_hd (seed : list byte) (steps : Z) (n : nat) :
  hd_error (collected seed steps n) = Some (Number.sub steps 2).
Proof.
  induction n as [| n IH]; [reflexivity |].
  rewrite collected_S. apply keepNew_hd, IH.
Qed.

Lemma collected_invariant (seed : list byte) (steps : Z) (n : nat) :
  2 <= steps <= 2 ^ 53 ->
  NoDup (collected seed steps n) /\
  hd_error (collected seed steps n) = Some (steps - 2) /\
  forall x, In x (collected seed steps n) -> 0 <= x <= steps - 2.
Proof.
  intros Hsteps. induction n as [| n (Hnd & Hhd & Hrange)].
  - unfold collected. cbn [seq map fold_left]. number_exact.
    split; [| split].
    + repeat constructor. intros [].
    + reflexivity.
    + intros x [<- | []]. lia.
  - rewrite collected_S. split; [| split].
    + apply keepNew_NoDup, Hnd.
    + apply keepNew_hd, Hhd.
    + intros x Hx. apply keepNew_In in Hx as [Hx | ->];
        [apply Hrange, Hx | apply drawIndex_range, Hsteps].
Qed.

(** The loop of [deriveQueryIndices], started after [k] draws: if [j] more
    draws are enough and the fuel allows them, it stops at the first
    moment [queries] indices are collected. *)
Lemma deriveLoop_collects (seed : list byte) (steps queries : Z) (j : nat) :
  forall (k fuel : nat),
    queries <= maxLength ->
    Z.of_nat (length (collected seed steps k)) <= queries ->
    queries <= Z.of_nat (length (collected seed steps (k + j))) ->
    (j <= fuel)%nat ->
    exists m,
      (k <= m <= k + j)%nat /\
      Z.of_nat (length (collected seed steps m)) = queries /\
      (forall m', (k <= m' < m)%nat ->
                  Z.of_nat (length (collected seed steps m')) < queries) /\
      deriveLoop fuel seed steps queries (collected seed steps k) (Z.of_nat k)
      = Ret (collected seed steps m).
Proof.
  induction j as [| j IH]; intros k fuel Hmax Hle Hge Hfuel.
  - rewrite Nat.add_0_r in Hge. exists k.
    split; [lia |]. split; [lia |]. split; [intros m' Hm'; lia |].
    destruct fuel; simpl;
      destruct (Z.ltb_spec (Z.of_nat (length (collected seed steps k)))
                           queries); try lia; reflexivity.
  - destruct (Z.ltb_spec (Z.of_nat (length (collected seed steps k))) queries)
      as [Hlt | Hdone].
    + destruct fuel as [| fuel]; [lia |].
      pose proof (keepNew_length (collected seed steps k)
                                 (drawIndex seed steps (Z.of_nat k))) as Hk.
      rewrite <- collected_S in Hk.
      destruct (IH (S k) fuel) as (m & Hm & Hlen & Hmin & Hrun);
        try lia.
      { replace (S k + j)%nat with (k + S j)%nat by lia. exact Hge. }
      exists m. split; [lia |]. split; [exact Hlen |]. split.
      { intros m' Hm'. destruct (Nat.eq_dec m' k) as [-> | Hne];
          [exact Hlt | apply Hmin; lia]. }
      cbn [deriveLoop].
      destruct (Z.ltb_spec (Z.of_nat (length (collected seed steps k)))
                           queries); [| lia].
      replace (Z.of_nat k + 1) with (Z.of_nat (S k)) by lia.
      rewrite <- Hrun. rewrite collected_S. unfold keepNew, push.
      destruct (includes (collected seed steps k)
                         (drawIndex seed steps (Z.of_nat k))); cbn [negb].
      * reflexivity.
      * destruct (Z.geb_spec (Z.of_nat (length (collected seed steps k)))
                             maxLength); [lia | reflexivity].
    + exists k. split; [lia |]. split; [lia |].
      split; [intros m' Hm'; lia |].
      destruct fuel; simpl;
        destruct (Z.ltb_spec (Z.of_nat (length (collected seed steps k)))
                             queries); try lia; reflexivity.
Qed.

(** Whatever list the loop returns fits in an array and has at least
    [queries] entries. *)
Lemma deriveLoop_bounded (seed : list byte) (steps queries : Z) (fuel : nat) :
  forall (indices : list Z) (counter : Z) (l : list Z),
    Z.of_nat (length indices) <= maxLength ->
    deriveLoop fuel seed steps queries indices counter = Ret l ->
    queries <= Z.of_nat (length l) <= maxLength.
Proof.
  induction fuel as [| fuel IH]; intros indices counter l Hlen E;
    cbn [deriveLoop] in E;
    destruct (Z.ltb_spec (Z.of_nat (length indices)) queries) as [Hlt | Hge];
    try discriminate.
  - injection E as <-. lia.
  - apply bind_Ret in E as (indices' & Hpush & E).
    apply IH in E; [exact E |].
    destruct (includes indices (drawIndex seed steps counter)); cbn [negb] in Hpush.
    + injection Hpush as <-. exact Hlen.
    + unfold push in Hpush.
      destruct (Z.geb_spec (Z.of_nat (length indices)) maxLength);
        [discriminate |].
      injection Hpush as <-. rewrite length_app. simpl. lia.
  - injection E as <-. lia.
Qed.

Lemma deriveQueryIndices_Ret (fuel : nat) (seed : list byte)
  (params : AuthParams.t) (l : list Z) :
  deriveQueryIndices fuel seed params = Ret l ->
  2 <= AuthParams.steps params /\
  1 <= AuthParams.queries params
    <= Number.sub (AuthParams.steps params) 1 /\
  AuthParams.queries params <= Z.of_nat (length l) <= maxLength.
Proof.
  unfold deriveQueryIndices. intros E.
  destruct (Z.ltb_spec (AuthParams.queries params) 1); [discriminate |].
  destruct (Z.ltb_spec (AuthParams.steps params) 2); [discriminate |].
  destruct (Z.gtb_spec (AuthParams.queries params)
                       (Number.sub (AuthParams.steps params) 1));
    [discriminate |].
  cbn [push length Z.of_nat bind app] in E.
  change (0 >=? maxLength) with false in E. cbn [bind app] in E.
  apply deriveLoop_bounded in E; [lia | simpl; unfold maxLength; lia].
Qed.

Lemma deriveQueryIndices_collects (seed : list byte) (params : AuthParams.t)
  (n : nat) :
  2 <= AuthParams.steps params ->
  1 <= AuthParams.queries params
    <= Number.sub (AuthParams.steps params) 1 ->
  AuthParams.queries params <= maxLength ->
  drawsSuffice seed params n ->
  exists m,
    (m <= n)%nat /\
    Z.of_nat (length (collected seed (AuthParams.steps params) m))
    = AuthParams.queries params /\
    (forall m', (m' < m)%nat ->
       Z.of_nat (length (collected seed (AuthParams.steps params) m'))
       < AuthParams.queries params) /\
    forall fuel, (n <= fuel)%nat ->
      deriveQueryIndices fuel seed params
      = Ret (collected seed (AuthParams.steps params) m).
Proof.
  intros Hsteps Hq Hmax Hn.
  assert (Hloop : forall fuel, (n <= fuel)%nat ->
    exists m,
      (0 <= m <= 0 + n)%nat /\
      Z.of_nat (length (collected seed (AuthParams.steps params) m))
      = AuthParams.queries params /\
      (forall m', (0 <= m' < m)%nat ->
         Z.of_nat (length (collected seed (AuthParams.steps params) m'))
         < AuthParams.queries params) /\
      deriveLoop fuel seed (AuthParams.steps params)
                 (AuthParams.queries params)
                 (collected seed (AuthParams.steps params) 0) (Z.of_nat 0)
      = Ret (collected seed (AuthParams.steps params) m)).
  { intros fuel Hfuel.
    apply deriveLoop_collects; [exact Hmax | simpl; lia | exact Hn | exact Hfuel]. }
  destruct (Hloop n (le_n n)) as (m & Hm & Hlen & Hmin & _).
  exists m. split; [lia |]. split; [exact Hlen |].
  split; [intros m' Hm'; apply Hmin; lia |].
  intros fuel Hfuel.
  destruct (Hloop fuel Hfuel) as (m2 & Hm2 & Hlen2 & Hmin2 & Hrun2).
  assert (m2 = m).
  { destruct (Nat.lt_trichotomy m2 m) as [Hlt | [-> | Hgt]].
    - specialize (Hmin m2 ltac:(lia)). lia.
    - reflexivity.
    - specialize (Hmin2 m ltac:(lia)). lia. }
  subst m2.
  unfold deriveQueryIndices.
  destruct (Z.ltb_spec (AuthParams.queries params) 1); [lia |].
  destruct (Z.ltb_spec (AuthParams.steps params) 2); [lia |].
  destruct (Z.gtb_spec (AuthParams.queries params)
                       (Number.sub (AuthParams.steps params) 1)); [lia |].
  exact Hrun2.
Qed.

End SamplingFacts.

(** C3, as stated: with [queries = 2^32] (and [steps = 2^32 + 1]) the
    parameters satisfy the claim's conditions, yet no list is ever
    returned: an array cannot hold [2^32] indices. *)
Lemma deriveQueryIndices_huge_never_returns :
  2 <= AuthParams.steps Instances.hugeParams /\
  1 <= AuthParams.queries Instances.hugeParams
    <= AuthParams.steps Instances.hugeParams - 1 /\
  ~ exists fuel l,
      deriveQueryIndices (H := Sha256.instance) fuel Instances.zeroRoot
                         Instances.hugeParams = Ret l.
Proof.
  split; [vm_compute; discriminate |].
  split; [split; vm_compute; discriminate |].
  intros (fuel & l & E).
  apply deriveQueryIndices_Ret in E as (_ & _ & Hq & Hl).
  unfold Instances.hugeParams, maxLength in *. simpl in *. lia.
Qed.

(** C3, amended: for [2 <= steps <= 2^53] (where [steps - 1] and
    [steps - 2] are exact) and [1 <= queries <= steps - 1] with
    [queries <= 2^32 - 1], as soon as the first [n] draws contain
    [queries - 1] distinct values other than [steps - 2],
    [deriveQueryIndices] returns (on any fuel of at least [n]) the list
    collected when the [queries]-th distinct index appears: exactly
    [queries] pairwise distinct indices of [[0, steps-2]], the first of
    which is [steps - 2], the others being the draws in order, each draw
    the first 8 digest bytes of [seed || counter] modulo [steps - 1], the
    counter starting at 0 and advancing on every draw. *)
Theorem deriveQueryIndices_correct {H : Hash256} (seed : list byte)
  (params : AuthParams.t) (n : nat) :
  2 <= AuthParams.steps params <= 2 ^ 53 ->
  1 <= AuthParams.queries params <= AuthParams.steps params - 1 ->
  AuthParams.queries params <= maxLength ->
  drawsSuffice seed params n ->
  exists m l,
    (m <= n)%nat /\
    l = collected seed (AuthParams.steps params) m /\
    (forall fuel, (n <= fuel)%nat ->
                  deriveQueryIndices fuel seed params = Ret l) /\
    Z.of_nat (length l) = AuthParams.queries params /\
    NoDup l /\
    (forall x, In x l -> 0 <= x <= AuthParams.steps params - 2) /\
    hd_error l = Some (AuthParams.steps params - 2) /\
    (forall m', (m' < m)%nat ->
       Z.of_nat (length (collected seed (AuthParams.steps params) m'))
       < AuthParams.queries params) /\
    (forall counter,
       drawIndex seed (AuthParams.steps params) counter
       = bigEndianValue (firstn 8 (sha256 (seed ++ counterBytes counter)))
         mod (AuthParams.steps params - 1)).
Proof.
  intros Hsteps Hq Hmax Hn.
  destruct (deriveQueryIndices_collects seed params n) as
    (m & Hm & Hlen & Hmin & Hrun);
    [lia | number_exact; exact Hq | exact Hmax | exact Hn |].
  destruct (collected_invariant seed (AuthParams.steps params) m Hsteps)
    as (Hnd & Hhd & Hrange).
  exists m, (collected seed (AuthParams.steps params) m).
  repeat (split; [assumption || reflexivity |]).
  intros counter. apply drawIndex_value, Hsteps.
Qed.

Lemma deriveQueryIndices_correct_witness :
  exists m l,
    (m <= 12)%nat /\
    l = collected (H := Sha256.instance) Instances.zeroRoot 16 m /\
    (forall fuel, (12 <= fuel)%nat ->
       deriveQueryIndices (H := Sha256.instance) fuel Instances.zeroRoot
                          Instances.params = Ret l) /\
    Z.of_nat (length l) = 5 /\
    NoDup l /\
    (forall x, In x l -> 0 <= x <= 16 - 2) /\
    hd_error l = Some (16 - 2) /\
    (forall m', (m' < m)%nat ->
       Z.of_nat (length (collected (H := Sha256.instance)
                                   Instances.zeroRoot 16 m')) < 5) /\
    (forall counter,
       drawIndex (H := Sha256.instance) Instances.zeroRoot 16 counter
       = bigEndianValue
           (firstn 8 (sha256 (Hash256 := Sha256.instance)
                             (Instances.zeroRoot ++ counterBytes counter)))
         mod (16 - 1)).
Proof.
  apply (deriveQueryIndices_correct (H := Sha256.instance)
                                    Instances.zeroRoot Instances.params 12).
  - simpl. lia.
  - simpl. lia.
  - vm_compute. discriminate.
  - vm_compute. discriminate.
Defined.

(** If a list is returned, the draws made on the way were enough: the
    condition of the amended C3 is also necessary. *)
Lemma deriveLoop_returns_collected {H : Hash256} (seed : list byte)
  (steps queries : Z) (fuel : nat) :
  forall (k : nat) (l : list Z),
    deriveLoop fuel seed steps queries (collected seed steps k) (Z.of_nat k)
    = Ret l ->
    exists m, (k <= m <= k + fuel)%nat /\ l = collected seed steps m /\
              queries <= Z.of_nat (length l).
Proof.
  induction fuel as [| fuel IH]; intros k l E; cbn [deriveLoop] in E;
    destruct (Z.ltb_spec (Z.of_nat (length (collected seed steps k))) queries)
      as [Hlt | Hge]; try discriminate.
  - injection E as <-. exists k. repeat split; lia.
  - apply bind_Ret in E as (indices' & Hpush & E).
    assert (indices' = collected seed steps (S k)) as ->.
    { rewrite collected_S. unfold keepNew, push in *.
      destruct (includes (collected seed steps k)
                         (drawIndex seed steps (Z.of_nat k)));
        cbn [negb] in Hpush.
      - congruence.
      - destruct (Z.of_nat (length (collected seed steps k)) >=? maxLength);
          congruence. }
    replace (Z.of_nat k + 1) with (Z.of_nat (S k)) in E by lia.
    apply IH in E as (m & Hm & -> & Hlen).
    exists m. repeat split; try lia.
  - injection E as <-. exists k. repeat split; lia.
Qed.

Lemma deriveQueryIndices_only_if_draws_suffice {H : Hash256} (fuel : nat)
  (seed : list byte) (params : AuthParams.t) (l : list Z) :
  deriveQueryIndices fuel seed params = Ret l ->
  drawsSuffice seed params fuel.
Proof.
  intros E. pose proof E as E'. unfold deriveQueryIndices in E.
  destruct (Z.ltb_spec (AuthParams.queries params) 1); [discriminate |].
  destruct (Z.ltb_spec (AuthParams.steps params) 2); [discriminate |].
  destruct (Z.gtb_spec (AuthParams.queries params)
                       (Number.sub (AuthParams.steps params) 1));
    [discriminate |].
  apply (deriveLoop_returns_collected seed _ _ fuel 0) in E
    as (m & Hm & -> & Hlen).
  unfold drawsSuffice.
  pose proof (collected_length_mono seed (AuthParams.steps params) m fuel
                                    ltac:(lia)).
  lia.
Qed.

(** ** Completeness *)

Lemma new_nonzero (v m : Z) :
  m <> 0 -> exists r, new v m = Ret (mkFE r m).
Proof.
  intros Hm. unfold new, mod_.
  destruct (Z.eqb_spec m 0); [contradiction |]. eexists. reflexivity.
Qed.

Lemma mul_total (a b : FieldElement) :
  modulus a <> 0 -> modulus b = modulus a ->
  exists r, mul a b = Ret (mkFE r (modulus a)).
Proof.
  intros Hm Hab. unfold mul, ensureSameField.
  rewrite Hab, Z.eqb_refl. apply new_nonzero, Hm.
Qed.

Lemma add_total (a b : FieldElement) :
  modulus a <> 0 -> modulus b = modulus a ->
  exists r, add a b = Ret (mkFE r (modulus a)).
Proof.
  intros Hm Hab. unfold add, ensureSameField.
  rewrite Hab, Z.eqb_refl. apply new_nonzero, Hm.
Qed.

Lemma authHash_total (x : FieldElement) :
  modulus x <> 0 -> exists r, authHash x = Ret (mkFE r (modulus x)).
Proof.
  intros Hm. unfold authHash, pow, powNonneg. cbn [Z.ltb Z.compare].
  destruct (new_nonzero 7 _ Hm) as (c7 & ->).
  destruct (new_nonzero 1 _ Hm) as (one & ->).
  cbn [bind powLoop].
  destruct (mul_total (mkFE one (modulus x)) x Hm eq_refl) as (r1 & ->).
  destruct (mul_total x x Hm eq_refl) as (b1 & ->).
  cbn [bind modulus].
  destruct (mul_total (mkFE r1 (modulus x)) (mkFE b1 (modulus x)) Hm eq_refl)
    as (r2 & ->).
  destruct (mul_total (mkFE b1 (modulus x)) (mkFE b1 (modulus x)) Hm eq_refl)
    as (b2 & ->).
  cbn [bind modulus].
  apply (add_total (mkFE r2 (modulus x)) (mkFE c7 (modulus x)) Hm eq_refl).
Qed.

Lemma applyTransition_total (n : nat) :
  forall x, modulus x <> 0 -> exists y, applyTransition n x = Ret y.
Proof.
  induction n as [| n IH]; intros x Hm; simpl; [eauto |].
  destruct (authHash_total x Hm) as (r & ->). cbn [bind].
  apply IH. exact Hm.
Qed.

Lemma equals_refl (a : FieldElement) : equals a a = true.
Proof. unfold equals. rewrite !Z.eqb_refl. reflexivity. Qed.

Lemma equals_eq (a b : FieldElement) : equals a b = true -> a = b.
Proof.
  unfold equals. intros E. apply andb_prop in E as [Ev Em].
  apply Z.eqb_eq in Ev, Em. destruct a, b. simpl in *. congruence.
Qed.

Lemma mapM_length {A B : Type} (f : A -> result B) (arr : list A) :
  forall out, mapM f arr = Ret out -> length out = length arr.
Proof.
  induction arr as [| x arr IH]; intros out E; simpl in E.
  - injection E as <-. reflexivity.
  - apply bind_Ret in E as (y & _ & E).
    apply bind_Ret in E as (ys & Hys & E).
    injection E as <-. simpl. f_equal. apply IH, Hys.
Qed.

Section CompletenessFacts.
Context {H : Hash256}.

Lemma verifyLoop_acceptable (statement : Statement.t) (steps : Z)
  (root : list byte) (pairs : list (Z * dyn AuthOpening.t)) :
  forall flag,
    Forall (acceptable statement steps root) pairs ->
    verifyLoop statement steps root pairs flag
    = Ret (flag
           || existsb (fun p => fst p =? Number.sub steps 2) pairs).
Proof.
  induction pairs as [| [index o] pairs IH]; intros flag Hall.
  - simpl. rewrite orb_false_r. reflexivity.
  - inversion Hall as [| ? ? Hhead Htail]; subst.
    destruct Hhead as (cur & nxt & pc & pn & Ho & Hrange & Hpc & Hpn
                       & Hvc & Hvn & Hstep & Hfinal).
    cbn [fst snd] in *. subst o.
    cbn [verifyLoop prop bind AuthOpening.index AuthOpening.current
         AuthOpening.next AuthOpening.proofCurrent AuthOpening.proofNext].
    rewrite Z.eqb_refl. cbn [negb].
    destruct (Z.ltb_spec index 0); [lia |].
    destruct (Z.geb_spec index (Number.sub steps 1)); [lia |]. cbn [orb].
    rewrite Hpc, Hpn, arraysEqual_refl, Hvc, Hvn. cbn [negb].
    rewrite Hstep. cbn [bind]. rewrite equals_refl. cbn [negb].
    cbn [existsb fst].
    destruct (Z.eqb_spec index (Number.sub steps 2)) as [Hlast | Hother].
    + rewrite (Hfinal Hlast), equals_refl. cbn [negb].
      rewrite IH by exact Htail. rewrite orb_true_r. reflexivity.
    + rewrite IH by exact Htail. reflexivity.
Qed.

Lemma openings_acceptable (statement : Statement.t) (steps : Z)
  (trace : list FieldElement) (tree : MerkleTree.t) (indices : list Z) :
  steps <= 2 ^ 53 ->
  Z.of_nat (length trace) = steps ->
  Z.of_nat (length (MerkleTree.leaves tree)) = steps ->
  (forall i x y,
      get trace i = Some x -> get trace (i + 1) = Some y -> authHash x = Ret y) ->
  get trace (steps - 1) = Some (Statement.finalHash statement) ->
  (forall i, 0 <= i < steps ->
     exists proof,
       MerkleTree.getProof tree i = Ret proof /\
       MerkleProof.root proof = MerkleTree.root tree /\
       MerkleProof.verify proof = true) ->
  (forall x, In x indices -> 0 <= x <= steps - 2) ->
  exists openings,
    mapM (openAt trace tree) indices = Ret openings /\
    Forall (acceptable statement steps (MerkleTree.root tree))
           (combine indices openings).
Proof.
  intros Hexact Htrace Hleaves Hstep Hfinal Hproofs.
  induction indices as [| index indices IH]; intros Hrange.
  - exists []. split; [reflexivity | constructor].
  - destruct IH as (openings & Hmap & Hall).
    { intros x Hx. apply Hrange. right. exact Hx. }
    specialize (Hrange index (or_introl eq_refl)).
    destruct (Hproofs index ltac:(lia)) as (pc & Hgc & Hrc & Hvc).
    destruct (Hproofs (index + 1) ltac:(lia)) as (pn & Hgn & Hrn & Hvn).
    destruct (get_in_range trace index ltac:(lia)) as (cur & Hcur).
    destruct (get_in_range trace (index + 1) ltac:(lia)) as (nxt & Hnxt).
    eexists. split.
    + cbn [mapM]. unfold openAt at 1.
      rewrite (add_exact index 1) by lia.
      rewrite Hgc, Hgn, Hcur, Hnxt.
      cbn [bind]. rewrite Hmap. cbn [bind]. reflexivity.
    + cbn [combine]. constructor; [| exact Hall].
      exists cur, nxt, pc, pn. cbn [fst snd]. number_exact.
      repeat (split; [assumption || reflexivity || lia |]).
      split; [eapply Hstep; eassumption |].
      intros Hlast. subst index.
      replace (steps - 2 + 1) with (steps - 1) in Hnxt by lia. congruence.
Qed.

End CompletenessFacts.

Lemma traceLoop_applyTransition (n : nat) :
  forall prev l i y,
    traceLoop n prev = Ret l ->
    nth_error l i = Some y ->
    applyTransition (S i) prev = Ret y.
Proof.
  induction n as [| n IH]; intros prev l i y E Hy; simpl in E.
  - injection E as <-. destruct i; discriminate.
  - apply bind_Ret in E as (ti & Hti & E).
    apply bind_Ret in E as (rest & Hrest & E).
    injection E as <-.
    cbn [applyTransition]. rewrite Hti. cbn [bind].
    destruct i as [| i]; simpl in Hy.
    + injection Hy as <-. reflexivity.
    + eapply IH; eassumption.
Qed.

(** The last entry of the trace is the transition applied [steps] times
    to the secret. *)
Lemma buildAuthTrace_final (witness : Witness.t) (params : AuthParams.t)
  (trace : list FieldElement) (y : FieldElement) :
  buildAuthTrace witness params = Ret trace ->
  get trace (AuthParams.steps params - 1) = Some y ->
  applyTransition (Z.to_nat (AuthParams.steps params)) (Witness.secret witness)
  = Ret y.
Proof.
  intros E Hy.
  destruct (buildAuthTrace_spec _ _ _ E) as (Hsteps & _ & _).
  unfold buildAuthTrace in E.
  destruct (Z.ltb_spec (AuthParams.steps params) 2); [discriminate |].
  destruct (Z.gtb_spec (AuthParams.steps params) maxLength); [discriminate |].
  apply get_nth_error in Hy as [_ Hy].
  replace (Z.to_nat (AuthParams.steps params))
    with (S (Z.to_nat (AuthParams.steps params - 1))) by lia.
  apply (traceLoop_applyTransition
           (S (Z.to_nat (AuthParams.steps params - 1)))
           (Witness.secret witness) trace); [| exact Hy].
  exact E.
Qed.

Section Completeness.
Context {H : Hash256}.

Lemma tree_proofs (leaves : list (list byte)) :
  leaves <> [] ->
  exists tree,
    MerkleTree.new leaves = Ret tree /\
    MerkleTree.leaves tree = leaves /\
    MerkleTree.root tree
    = hd [] (last (leaves :: MerkleTree.buildLayers leaves) []) /\
    forall i, 0 <= i < Z.of_nat (length leaves) ->
      exists proof,
        MerkleTree.getProof tree i = Ret proof /\
        MerkleProof.root proof = MerkleTree.root tree /\
        MerkleProof.verify proof = true.
Proof.
  intros Hne.
  assert (H0 : 0 <= 0 < Z.of_nat (length leaves)).
  { destruct leaves; [contradiction | simpl; lia]. }
  destruct (getProof_verifies leaves 0 Hne H0)
    as (tree & _ & Hnew & Hleaves & Hroot & _).
  exists tree. repeat (split; [assumption |]).
  intros i Hi.
  destruct (getProof_verifies leaves i Hne Hi)
    as (tree' & proof & Hnew' & _ & _ & Hget & _ & Hr & _ & Hver).
  assert (tree' = tree) by congruence. subst tree'.
  exists proof. auto.
Qed.

Lemma generate_then_verify (statement : Statement.t) (witness : Witness.t)
  (params : AuthParams.t) (trace : list FieldElement) (n : nat) :
  buildAuthTrace witness params = Ret trace ->
  get trace (AuthParams.steps params - 1)
  = Some (Statement.finalHash statement) ->
  1 <= AuthParams.queries params <= AuthParams.steps params - 1 ->
  drawsSuffice (computeChallengeSeed (traceRoot trace) statement) params n ->
  forall fuel, (n <= fuel)%nat ->
    exists proof,
      generateAuthProof fuel statement witness params = Ret proof /\
      verify fuel statement params proof = Ret true.
Proof.
  intros Htrace Hfinal Hq Hdraws fuel Hfuel.
  destruct (buildAuthTrace_spec _ _ _ Htrace) as (Hsteps & Hlen & Hstep).
  set (steps := AuthParams.steps params) in *.
  set (queries := AuthParams.queries params) in *.
  set (leaves := map fieldElementToBytes trace).
  assert (Hleaves : Z.of_nat (length leaves) = steps).
  { unfold leaves. rewrite length_map. exact Hlen. }
  destruct (tree_proofs leaves) as (tree & Hnew & Htl & Hroot & Hproofs).
  { intros E. rewrite E in Hleaves. simpl in Hleaves. lia. }
  assert (Hseed : computeChallengeSeed (MerkleTree.getRoot tree) statement
                  = computeChallengeSeed (traceRoot trace) statement).
  { unfold MerkleTree.getRoot. rewrite Hroot. reflexivity. }
  assert (Hexact : steps <= 2 ^ 53) by (unfold maxLength in Hsteps; lia).
  assert (Hq' : 1 <= queries <= Number.sub steps 1)
    by (rewrite sub_exact by lia; exact Hq).
  destruct (deriveQueryIndices_collects _ params n ltac:(lia) Hq'
              ltac:(fold queries; lia) Hdraws)
    as (m & _ & Hcount & _ & Hrun).
  specialize (Hrun fuel Hfuel). fold steps in Hrun, Hcount.
  set (indices := collected (computeChallengeSeed (traceRoot trace) statement)
                            steps m) in *.
  destruct (collected_invariant
              (computeChallengeSeed (traceRoot trace) statement) steps m
              ltac:(lia)) as (_ & Hhd & Hrange).
  fold indices in Hhd, Hrange.
  destruct (openings_acceptable statement steps trace tree indices)
    as (openings & Hmap & Hall); try assumption.
  { rewrite Htl. exact Hleaves. }
  { intros i Hi. apply Hproofs. lia. }
  exists (Proof.mk (Some (MerkleTree.getRoot tree)) (Some indices)
                   (Some openings)).
  split.
  - unfold generateAuthProof. fold steps queries.
    rewrite (sub_exact steps 1) by lia.
    destruct (Z.ltb_spec queries 1); [lia |].
    destruct (Z.gtb_spec queries (steps - 1)); [lia |].
    rewrite Htrace. cbn [bind]. rewrite Hfinal. cbn [prop bind].
    rewrite equals_refl. cbn [negb].
    fold leaves. rewrite Hnew. cbn [bind].
    rewrite Hseed, Hrun. cbn [bind]. rewrite Hmap. reflexivity.
  - unfold verify, verifyBody. fold steps queries.
    cbn [Proof.indices Proof.openings Proof.root prop bind].
    destruct (Z.ltb_spec steps 2); [lia |].
    destruct (Z.ltb_spec queries 1); [lia |]. cbn [orb].
    rewrite (mapM_length _ _ _ Hmap), Hcount, Z.eqb_refl. cbn [negb].
    rewrite Hseed, Hrun. cbn [bind].
    rewrite arrayEqualNumbers_refl. cbn [negb].
    rewrite (verifyLoop_acceptable statement steps (MerkleTree.getRoot tree))
      by exact Hall.
    pose proof (mapM_length _ _ _ Hmap) as Hlen'.
    destruct indices as [| i0 indices']; [discriminate |].
    destruct openings as [| o openings']; [discriminate |].
    injection Hhd as ->. cbn [combine existsb fst].
    rewrite (sub_exact steps 2) by lia.
    rewrite Z.eqb_refl. reflexivity.
Qed.

End Completeness.

(** C1, as stated: with [steps = 2^32] (and [queries = 1]) the conditions
    of the claim hold for the statement whose [finalHash] is the chain's
    last value, yet [generateAuthProof] throws: the trace does not fit
    in an array. *)
Lemma completeness_fails_beyond_array_length :
  ~ (forall (statement : Statement.t) (witness : Witness.t)
            (params : AuthParams.t),
        2 <= AuthParams.steps params ->
        1 <= AuthParams.queries params <= AuthParams.steps params - 1 ->
        applyTransition (Z.to_nat (AuthParams.steps params))
                        (Witness.secret witness)
        = Ret (Statement.finalHash statement) ->
        exists fuel proof,
          generateAuthProof (H := Sha256.instance) fuel statement witness
                            params = Ret proof /\
          verify (H := Sha256.instance) fuel statement params proof
          = Ret true).
Proof.
  intros Hclaim.
  destruct (applyTransition_total
              (Z.to_nat (AuthParams.steps Instances.longParams))
              Instances.secret) as (y & Hy).
  { discriminate. }
  destruct (Hclaim (Statement.mk (2 ^ 32) y) Instances.witness
                   Instances.longParams)
    as (fuel & proof & Hgen & _).
  - vm_compute. discriminate.
  - split; vm_compute; discriminate.
  - exact Hy.
  - unfold generateAuthProof, buildAuthTrace in Hgen.
    change (AuthParams.steps Instances.longParams >? maxLength) with true
      in Hgen.
    change (AuthParams.steps Instances.longParams <? 2) with false in Hgen.
    change (AuthParams.queries Instances.longParams <? 1) with false in Hgen.
    change (AuthParams.queries Instances.longParams
            >? AuthParams.steps Instances.longParams - 1) with false in Hgen.
    discriminate Hgen.
Qed.

(** C1, amended: when the trace rebuilt from the witness exists (so
    [2 <= steps <= 2^32 - 1]) and ends in [statement.finalHash], when
    [1 <= queries <= steps - 1], and when [n] draws on the challenge seed
    are enough to gather [queries] distinct indices, [generateAuthProof]
    returns a proof on any fuel of at least [n] and [verify] returns
    [true] on it; the instance secret = 123456789, steps = 16,
    queries = 5 is the witness below. *)
Theorem completeness {H : Hash256} (statement : Statement.t)
  (witness : Witness.t) (params : AuthParams.t) (trace : list FieldElement)
  (n fuel : nat) :
  2 <= AuthParams.steps params <= maxLength ->
  1 <= AuthParams.queries params <= AuthParams.steps params - 1 ->
  buildAuthTrace witness params = Ret trace ->
  get trace (AuthParams.steps params - 1)
  = Some (Statement.finalHash statement) ->
  drawsSuffice (computeChallengeSeed (traceRoot trace) statement) params n ->
  (n <= fuel)%nat ->
  exists proof,
    generateAuthProof fuel statement witness params = Ret proof /\
    verify fuel statement params proof = Ret true.
Proof.
  intros _ Hq Htrace Hfinal Hdraws Hfuel.
  exact (generate_then_verify statement witness params trace n
                              Htrace Hfinal Hq Hdraws fuel Hfuel).
Qed.

Lemma completeness_witness :
  exists proof,
    generateAuthProof (H := Sha256.instance) 8 Instances.statement
                      Instances.witness Instances.params = Ret proof /\
    verify (H := Sha256.instance) 8 Instances.statement Instances.params proof
    = Ret true.
Proof.
  apply (completeness (H := Sha256.instance) Instances.statement
                      Instances.witness Instances.params Instances.trace 5 8).
  - split; vm_compute; discriminate.
  - split; vm_compute; discriminate.
  - vm_compute. reflexivity.
  - vm_compute. reflexivity.
  - vm_compute. discriminate.
  - lia.
Defined.

(** ** What the verifier does not check *)

(** C5: [verify] accepts a proof one of whose openings carries a field
    value whose encoding is not the leaf of its Merkle proof: the leaf is
    never compared with the opened values. *)
Theorem accepted_with_detached_leaf {H : Hash256} :
  exists statement params proof openings opening current proofCurrent,
    (forall fuel, verify fuel statement params proof = Ret true) /\
    Proof.openings proof = Some openings /\
    In (Some opening) openings /\
    AuthOpening.current opening = Some current /\
    AuthOpening.proofCurrent opening = Some proofCurrent /\
    fieldElementToBytes current <> MerkleProof.leaf proofCurrent.
Proof.
  exists Instances.smallStatement, Instances.smallParams,
         Instances.detachedProof, [Some Instances.detachedOpening],
         Instances.detachedOpening, (mkFE 1 STARK_PRIME), Instances.rootOnly.
  split; [| split; [reflexivity | split; [left; reflexivity |]]].
  - intros fuel. destruct fuel; vm_compute; reflexivity.
  - split; [reflexivity |]. split; [reflexivity |].
    vm_compute. discriminate.
Qed.

(** ** Outcomes of verification *)

Lemma bind_Timeout {A B : Type} (m : result A) (k : A -> result B) :
  bind m k = Timeout -> m = Timeout \/ exists a, m = Ret a /\ k a = Timeout.
Proof. destruct m as [a | e |]; simpl; intros E; try discriminate; eauto. Qed.

Lemma new_not_Timeout (v m : Z) : new v m <> Timeout.
Proof. unfold new, mod_. destruct (m =? 0); discriminate. Qed.

Lemma mul_not_Timeout (a b : FieldElement) : mul a b <> Timeout.
Proof.
  unfold mul, ensureSameField.
  destruct (negb (modulus a =? modulus b)); cbn [bind];
    [discriminate | apply new_not_Timeout].
Qed.

Lemma add_not_Timeout (a b : FieldElement) : add a b <> Timeout.
Proof.
  unfold add, ensureSameField.
  destruct (negb (modulus a =? modulus b)); cbn [bind];
    [discriminate | apply new_not_Timeout].
Qed.

Ltac bind_cases E lemma :=
  apply bind_Timeout in E as [E | (? & _ & E)];
  [exact (lemma _ _ E) |].

Lemma powLoop_not_Timeout (exp : positive) :
  forall result base, powLoop exp result base <> Timeout.
Proof.
  induction exp as [e IH | e IH |]; intros result base E; cbn [powLoop] in E.
  - bind_cases E mul_not_Timeout. bind_cases E mul_not_Timeout.
    exact (IH _ _ E).
  - bind_cases E mul_not_Timeout. exact (IH _ _ E).
  - bind_cases E mul_not_Timeout. bind_cases E mul_not_Timeout.
    discriminate.
Qed.

Lemma authHash_not_Timeout (x : FieldElement) : authHash x <> Timeout.
Proof.
  unfold authHash, pow, powNonneg. cbn [Z.ltb Z.compare]. intros E.
  bind_cases E new_not_Timeout.
  apply bind_Timeout in E as [E | (? & _ & E)].
  - bind_cases E new_not_Timeout. exact (powLoop_not_Timeout _ _ _ E).
  - exact (add_not_Timeout _ _ E).
Qed.

Section VerifierFacts.
Context {H : Hash256}.

Lemma verifyLoop_not_Timeout (statement : Statement.t) (steps : Z)
  (root : list byte) (pairs : list (Z * dyn AuthOpening.t)) :
  forall flag, verifyLoop statement steps root pairs flag <> Timeout.
Proof.
  induction pairs as [| [index o] pairs IH]; intros flag;
    cbn [verifyLoop]; [discriminate |].
  destruct o as [opening |]; cbn [prop bind]; [| discriminate].
  destruct (negb _); [discriminate |].
  destruct (_ || _); [discriminate |].
  destruct (AuthOpening.proofCurrent opening) as [pc |]; cbn [prop bind];
    [| discriminate].
  destruct (negb (arraysEqual (MerkleProof.root pc) root)); [discriminate |].
  destruct (AuthOpening.proofNext opening) as [pn |]; cbn [prop bind];
    [| discriminate].
  destruct (negb (arraysEqual (MerkleProof.root pn) root)); [discriminate |].
  destruct (negb (MerkleProof.verify pc)); [discriminate |].
  destruct (negb (MerkleProof.verify pn)); [discriminate |].
  destruct (AuthOpening.current opening) as [cur |]; cbn [prop bind];
    [| discriminate].
  destruct (authHash cur) as [expectedNext | e |] eqn:Eh; cbn [bind];
    [| discriminate | exact (False_ind _ (authHash_not_Timeout _ Eh))].
  destruct (AuthOpening.next opening) as [nxt |]; cbn [prop bind];
    [| discriminate].
  destruct (negb (equals expectedNext nxt)); [discriminate |].
  destruct (index =? Number.sub steps 2); [| apply IH].
  destruct (negb (equals nxt (Statement.finalHash statement)));
    [discriminate | apply IH].
Qed.



(** What acceptance says about the shape of a proof. *)
Lemma verify_true_inv (fuel : nat) (statement : Statement.t)
  (params : AuthParams.t) (proof : Proof.t) :
  verify fuel statement params proof = Ret true ->
  exists indices openings root,
    Proof.indices proof = Some indices /\
    Proof.openings proof = Some openings /\
    Proof.root proof = Some root /\
    2 <= AuthParams.steps params /\
    1 <= AuthParams.queries params /\
    Z.of_nat (length indices) = AuthParams.queries params /\
    Z.of_nat (length openings) = AuthParams.queries params /\
    deriveQueryIndices fuel (computeChallengeSeed root statement) params
    = Ret indices /\
    verifyLoop statement (AuthParams.steps params) root
               (combine indices openings) false = Ret true.
Proof.
  unfold verify, tryCatch. intros E.
  destruct (verifyBody fuel statement params proof) as [b | e |] eqn:Hbody;
    try discriminate.
  injection E as ->. unfold verifyBody in Hbody.
  destruct (Z.ltb_spec (AuthParams.steps params) 2); [discriminate |].
  destruct (Z.ltb_spec (AuthParams.queries params) 1); [discriminate |].
  cbn [orb] in Hbody.
  destruct (Proof.indices proof) as [indices |]; cbn [prop bind] in Hbody;
    [| discriminate].
  destruct (Z.eqb_spec (Z.of_nat (length indices)) (AuthParams.queries params));
    cbn [negb] in Hbody; [| discriminate].
  destruct (Proof.openings proof) as [openings |]; cbn [prop bind] in Hbody;
    [| discriminate].
  destruct (Z.eqb_spec (Z.of_nat (length openings)) (AuthParams.queries params));
    cbn [negb] in Hbody; [| discriminate].
  destruct (Proof.root proof) as [root |]; cbn [prop bind] in Hbody;
    [| discriminate].
  destruct (deriveQueryIndices fuel (computeChallengeSeed root statement)
                               params) as [expected | err |] eqn:Hderive;
    cbn [bind] in Hbody; try discriminate.
  destruct (arrayEqualNumbers expected indices) eqn:Heq; cbn [negb] in Hbody;
    [| discriminate].
  apply arrayEqualNumbers_eq in Heq. subst expected.
  exists indices, openings, root. repeat split; assumption.
Qed.

End VerifierFacts.

Section Rejection.
Context {H : Hash256}.

(** Once enough draws are available and the fuel covers them, the loop
    does not run out of fuel (it returns, or a [push] throws). *)
Lemma deriveLoop_no_timeout (seed : list byte) (steps queries : Z) (j : nat) :
  forall (k fuel : nat),
    queries <= Z.of_nat (length (collected seed steps (k + j))) ->
    (j <= fuel)%nat ->
    deriveLoop fuel seed steps queries (collected seed steps k) (Z.of_nat k)
    <> Timeout.
Proof.
  induction j as [| j IH]; intros k fuel Hge Hfuel.
  - rewrite Nat.add_0_r in Hge.
    destruct fuel; cbn [deriveLoop];
      destruct (Z.ltb_spec (Z.of_nat (length (collected seed steps k)))
                           queries); try lia; discriminate.
  - destruct fuel as [| fuel]; [lia |]. cbn [deriveLoop].
    destruct (Z.ltb_spec (Z.of_nat (length (collected seed steps k))) queries);
      [| discriminate].
    intros E. apply bind_Timeout in E as [E | (indices' & Hpush & E)].
    + unfold push in E.
      destruct (negb _); [| discriminate].
      destruct (_ >=? _); discriminate.
    + assert (indices' = collected seed steps (S k)) as ->.
      { rewrite collected_S. unfold keepNew, push in *.
        destruct (includes (collected seed steps k)
                           (drawIndex seed steps (Z.of_nat k)));
          cbn [negb] in Hpush.
        - congruence.
        - destruct (Z.of_nat (length (collected seed steps k)) >=? maxLength);
            congruence. }
      replace (Z.of_nat k + 1) with (Z.of_nat (S k)) in E by lia.
      revert E. apply IH; [| lia].
      replace (S k + j)%nat with (k + S j)%nat by lia. exact Hge.
Qed.

Lemma deriveQueryIndices_no_timeout (seed : list byte) (params : AuthParams.t)
  (n fuel : nat) :
  drawsSuffice seed params n -> (n <= fuel)%nat ->
  deriveQueryIndices fuel seed params <> Timeout.
Proof.
  intros Hn Hfuel. unfold deriveQueryIndices.
  destruct (AuthParams.queries params <? 1); [discriminate |].
  destruct (AuthParams.steps params <? 2); [discriminate |].
  destruct (AuthParams.queries params
            >? Number.sub (AuthParams.steps params) 1);
    [discriminate |].
  apply (deriveLoop_no_timeout seed _ _ n 0 fuel); assumption.
Qed.

(** The body of [verify] runs out of fuel only inside the derivation of
    the indices. *)
Lemma verifyBody_Timeout (fuel : nat) (statement : Statement.t)
  (params : AuthParams.t) (proof : Proof.t) :
  verifyBody fuel statement params proof = Timeout ->
  exists root,
    Proof.root proof = Some root /\
    deriveQueryIndices fuel (computeChallengeSeed root statement) params
    = Timeout.
Proof.
  unfold verifyBody. intros E.
  destruct ((AuthParams.steps params <? 2) || (AuthParams.queries params <? 1));
    [discriminate |].
  destruct (Proof.indices proof) as [indices |]; cbn [prop bind] in E;
    [| discriminate].
  destruct (negb (Z.of_nat (length indices) =? AuthParams.queries params));
    [discriminate |].
  destruct (Proof.openings proof) as [openings |]; cbn [prop bind] in E;
    [| discriminate].
  destruct (negb (Z.of_nat (length openings) =? AuthParams.queries params));
    [discriminate |].
  destruct (Proof.root proof) as [root |]; cbn [prop bind] in E;
    [| discriminate].
  exists root. split; [reflexivity |].
  apply bind_Timeout in E as [E | (expected & _ & E)]; [exact E |].
  destruct (negb (arrayEqualNumbers expected indices)); [discriminate |].
  apply verifyLoop_not_Timeout in E. contradiction.
Qed.


End Rejection.

(** ** When the derivation of the indices does not end *)

Lemma In_range (a b c : Z) : 0 <= a -> In c (range a b) <-> a <= c < b.
Proof.
  intros Ha. unfold range. rewrite in_map_iff. split.
  - intros (k & <- & Hk). apply in_seq in Hk. lia.
  - intros Hc. exists (Z.to_nat c). split; [lia |]. apply in_seq. lia.
Qed.

Lemma length_range (a b : Z) :
  a <= b -> Z.of_nat (length (range a b)) = b - a.
Proof. intros Hab. unfold range. rewrite length_map, length_seq. lia. Qed.

Section Starvation.
Context {H : Hash256}.

Lemma counterBytes_periodic (c : Z) :
  counterBytes c = counterBytes (c mod 2 ^ 32).
Proof. unfold counterBytes, toUint32. rewrite Zmod_mod. reflexivity. Qed.

Lemma drawIndex_periodic (seed : list byte) (steps c : Z) :
  drawIndex seed steps c = drawIndex seed steps (c mod 2 ^ 32).
Proof. unfold drawIndex. rewrite counterBytes_periodic. reflexivity. Qed.

Lemma collected_NoDup (seed : list byte) (steps : Z) (n : nat) :
  NoDup (collected seed steps n).
Proof.
  induction n as [| n IH].
  - unfold collected. cbn [seq map fold_left].
    repeat constructor. intros [].
  - rewrite collected_S. apply keepNew_NoDup, IH.
Qed.

Lemma keepNew_keeps (indices : list Z) (idx x : Z) :
  In x indices \/ x = idx -> In x (keepNew indices idx).
Proof.
  unfold keepNew. destruct (includes indices idx) eqn:E; intros [Hx | ->].
  - exact Hx.
  - apply includes_In, E.
  - apply in_or_app. left. exact Hx.
  - apply in_or_app. right. left. reflexivity.
Qed.

Lemma drawn_in_collected (seed : list byte) (steps : Z) (n c : nat) :
  (c < n)%nat ->
  In (drawIndex seed steps (Z.of_nat c)) (collected seed steps n).
Proof.
  induction n as [| n IH]; intros Hc; [lia |].
  rewrite collected_S. apply keepNew_keeps.
  destruct (Nat.eq_dec c n) as [-> | Hne]; [right; reflexivity |].
  left. apply IH. lia.
Qed.

(** After [2^32] draws every further draw repeats an earlier one. *)
Lemma collected_stable (seed : list byte) (steps : Z) (n : nat) :
  (Z.to_nat (2 ^ 32) <= n)%nat ->
  collected seed steps n = collected seed steps (Z.to_nat (2 ^ 32)).
Proof.
  induction 1 as [| n Hn IH]; [reflexivity |].
  rewrite collected_S, drawIndex_periodic.
  pose proof (Z.mod_pos_bound (Z.of_nat n) (2 ^ 32) ltac:(lia)) as Hc.
  replace (Z.of_nat n mod 2 ^ 32)
    with (Z.of_nat (Z.to_nat (Z.of_nat n mod 2 ^ 32))) by lia.
  unfold keepNew.
  rewrite (proj2 (includes_In _ _)); [exact IH |].
  apply drawn_in_collected. lia.
Qed.

(** Only the low 32 bits of the counter are hashed: there are at most
    [2^32] different draws, and every counter whose draw repeats that of
    another one, fewer. *)
Lemma collected_few (seed : list byte) (steps w1 w2 w3 a1 a2 a3 : Z)
  (n : nat) :
  0 <= w1 < w2 -> w2 < w3 < 2 ^ 32 ->
  0 <= a1 < 2 ^ 32 -> 0 <= a2 < 2 ^ 32 -> 0 <= a3 < 2 ^ 32 ->
  (a1 <> w1 /\ a1 <> w2 /\ a1 <> w3) ->
  (a2 <> w1 /\ a2 <> w2 /\ a2 <> w3) ->
  (a3 <> w1 /\ a3 <> w2 /\ a3 <> w3) ->
  drawIndex seed steps w1 = drawIndex seed steps a1 ->
  drawIndex seed steps w2 = drawIndex seed steps a2 ->
  drawIndex seed steps w3 = drawIndex seed steps a3 ->
  Z.of_nat (length (collected seed steps n)) <= 2 ^ 32 - 2.
Proof.
  intros Hw1 Hw3 Ha1 Ha2 Ha3 Hn1 Hn2 Hn3 E1 E2 E3.
  set (others := range 0 w1 ++ range (w1 + 1) w2 ++ range (w2 + 1) w3
                 ++ range (w3 + 1) (2 ^ 32)).
  assert (Hothers : forall c, 0 <= c < 2 ^ 32 ->
                      c <> w1 -> c <> w2 -> c <> w3 -> In c others).
  { intros c Hc H1 H2 H3. unfold others. rewrite !in_app_iff.
    rewrite !In_range by lia. lia. }
  assert (Hdraw : forall c,
            In (drawIndex seed steps c) (map (drawIndex seed steps) others)).
  { intros c. rewrite drawIndex_periodic.
    pose proof (Z.mod_pos_bound c (2 ^ 32) ltac:(lia)) as Hc.
    set (c' := c mod 2 ^ 32) in *.
    destruct (Z.eq_dec c' w1) as [-> | H1];
      [rewrite E1; apply in_map, Hothers; lia |].
    destruct (Z.eq_dec c' w2) as [-> | H2];
      [rewrite E2; apply in_map, Hothers; lia |].
    destruct (Z.eq_dec c' w3) as [-> | H3];
      [rewrite E3; apply in_map, Hothers; lia |].
    apply in_map, Hothers; assumption. }
  assert (Hincl : incl (collected seed steps n)
                       (Number.sub steps 2
                        :: map (drawIndex seed steps) others)).
  { induction n as [| n IH].
    - unfold collected. cbn [seq map fold_left].
      intros x [<- | []]. left. reflexivity.
    - rewrite collected_S. intros x Hx.
      apply keepNew_In in Hx as [Hx | ->]; [apply IH, Hx |].
      right. apply Hdraw. }
  pose proof (NoDup_incl_length (collected_NoDup seed steps n) Hincl) as Hlen.
  cbn [length] in Hlen. rewrite length_map in Hlen.
  assert (Hcount : Z.of_nat (length others) = 2 ^ 32 - 3).
  { unfold others. rewrite !length_app, !Nat2Z.inj_add.
    rewrite !length_range by lia. lia. }
  lia.
Qed.

(** A loop that never collects enough indices never returns. *)
Lemma deriveLoop_starved (seed : list byte) (steps queries : Z) :
  (forall n, Z.of_nat (length (collected seed steps n)) < queries) ->
  queries <= maxLength ->
  forall fuel k,
    deriveLoop fuel seed steps queries (collected seed steps k) (Z.of_nat k)
    = Timeout.
Proof.
  intros Hfew Hmax. induction fuel as [| fuel IH]; intros k;
    cbn [deriveLoop];
    destruct (Z.ltb_spec (Z.of_nat (length (collected seed steps k)))
                         queries) as [_ | Hge];
    try (specialize (Hfew k); lia); [reflexivity |].
  replace (if negb (includes (collected seed steps k)
                             (drawIndex seed steps (Z.of_nat k)))
           then push (collected seed steps k)
                     (drawIndex seed steps (Z.of_nat k))
           else Ret (collected seed steps k))
    with (Ret (collected seed steps (S k))).
  - cbn [bind]. replace (Z.of_nat k + 1) with (Z.of_nat (S k)) by lia.
    apply IH.
  - rewrite collected_S. unfold keepNew, push.
    destruct (includes (collected seed steps k)
                       (drawIndex seed steps (Z.of_nat k)));
      cbn [negb]; [reflexivity |].
    destruct (Z.geb_spec (Z.of_nat (length (collected seed steps k)))
                         maxLength); [| reflexivity].
    specialize (Hfew k). lia.
Qed.

Lemma deriveQueryIndices_starved (seed : list byte) (params : AuthParams.t) :
  2 <= AuthParams.steps params ->
  1 <= AuthParams.queries params
    <= Number.sub (AuthParams.steps params) 1 ->
  AuthParams.queries params <= maxLength ->
  (forall n, Z.of_nat (length (collected seed (AuthParams.steps params) n))
             < AuthParams.queries params) ->
  forall fuel, deriveQueryIndices fuel seed params = Timeout.
Proof.
  intros Hs Hq Hmax Hfew fuel. unfold deriveQueryIndices.
  destruct (Z.ltb_spec (AuthParams.queries params) 1); [lia |].
  destruct (Z.ltb_spec (AuthParams.steps params) 2); [lia |].
  destruct (Z.gtb_spec (AuthParams.queries params)
                       (Number.sub (AuthParams.steps params) 1)); [lia |].
  cbn [push length Z.of_nat bind app].
  change (0 >=? maxLength) with false. cbn [bind app].
  apply (deriveLoop_starved seed _ _ Hfew Hmax fuel 0).
Qed.

(** [verify] waits for the indices once the lengths agree. *)
Lemma verify_waits (fuel : nat) (statement : Statement.t)
  (params : AuthParams.t) (proof : Proof.t) (root : list byte)
  (indices : list Z) (openings : list (dyn AuthOpening.t)) :
  Proof.root proof = Some root ->
  Proof.indices proof = Some indices ->
  Proof.openings proof = Some openings ->
  2 <= AuthParams.steps params ->
  Z.of_nat (length indices) = AuthParams.queries params ->
  Z.of_nat (length openings) = AuthParams.queries params ->
  deriveQueryIndices fuel (computeChallengeSeed root statement) params
  = Timeout ->
  verify fuel statement params proof = Timeout.
Proof.
  intros Hr Hi Ho Hs Hli Hlo Hderive. unfold verify, verifyBody.
  rewrite Hr, Hi, Ho. cbn [prop bind].
  destruct (Z.ltb_spec (AuthParams.steps params) 2); [lia |].
  assert (Hq : 1 <= AuthParams.queries params).
  { unfold deriveQueryIndices in Hderive.
    destruct (Z.ltb_spec (AuthParams.queries params) 1);
      [discriminate | lia]. }
  destruct (Z.ltb_spec (AuthParams.queries params) 1); [lia |]. cbn [orb].
  rewrite Hli, Hlo, Z.eqb_refl. cbn [negb].
  rewrite Hderive. reflexivity.
Qed.

End Starvation.






(** With [steps = 2^32] and [queries = 2^32 - 1], on a proof whose
    arrays of indices and openings have length [2^32 - 1], the loop of
    [deriveQueryIndices] runs for ever under SHA-256: three of the draws
    for the seed of the zero root repeat earlier ones, so that the [2^32]
    counters that are hashed supply too few distinct indices. *)
Lemma verify_long_proof_waits (fuel : nat) :
  verify (H := Sha256.instance) fuel Instances.wideStatement
         Instances.wideParams Instances.longProof = Timeout.
Proof.
  apply (verify_waits fuel Instances.wideStatement Instances.wideParams
           Instances.longProof Instances.zeroRoot
           (repeat 0 (Z.to_nat (2 ^ 32 - 1)))
           (repeat None (Z.to_nat (2 ^ 32 - 1)))).
  - reflexivity.
  - reflexivity.
  - reflexivity.
  - vm_compute. discriminate.
  - rewrite repeat_length. unfold Instances.wideParams.
    cbn [AuthParams.queries]. lia.
  - rewrite repeat_length. unfold Instances.wideParams.
    cbn [AuthParams.queries]. lia.
  - apply deriveQueryIndices_starved.
    + vm_compute. discriminate.
    + split; vm_compute; discriminate.
    + vm_compute. discriminate.
    + intros n.
      assert (Hfew :
        Z.of_nat (length (collected (H := Sha256.instance)
                            (computeChallengeSeed (H := Sha256.instance)
                               Instances.zeroRoot Instances.wideStatement)
                            (AuthParams.steps Instances.wideParams) n))
        <= 2 ^ 32 - 2).
      { apply (collected_few _ _ 43129 91138 175595 29536 61976 144231);
          try lia; vm_compute; reflexivity. }
      unfold Instances.wideParams in *.
      cbn [AuthParams.queries AuthParams.steps] in *. lia.
Qed.

(** C2, as stated: on that proof [verify] returns no boolean. *)
Lemma verify_hangs_on_long_proof :
  ~ exists fuel b,
      verify (H := Sha256.instance) fuel Instances.wideStatement
             Instances.wideParams Instances.longProof = Ret b.
Proof.
  intros (fuel & b & E). rewrite verify_long_proof_waits in E.
  discriminate.
Qed.

(** C2, amended: [verify] never propagates an exception: whatever the
    proof object, every throw of its body is answered by [false]; it
    returns a boolean whenever the derivation of the indices ends, that
    is on any fuel that covers the draws the seed needs, and the only way
    not to return is that this derivation does not end. *)
Theorem verify_never_throws {H : Hash256} (fuel : nat)
  (statement : Statement.t) (params : AuthParams.t) (proof : Proof.t) :
  (forall e, verify fuel statement params proof <> Throw e) /\
  (forall e, verifyBody fuel statement params proof = Throw e ->
             verify fuel statement params proof = Ret false) /\
  ((exists b, verify fuel statement params proof = Ret b) \/
   (verify fuel statement params proof = Timeout /\
    exists root,
      Proof.root proof = Some root /\
      deriveQueryIndices fuel (computeChallengeSeed root statement) params
      = Timeout)) /\
  (forall root n,
      Proof.root proof = Some root ->
      drawsSuffice (computeChallengeSeed root statement) params n ->
      (n <= fuel)%nat ->
      exists b, verify fuel statement params proof = Ret b).
Proof.
  assert (Hcases :
    (exists b, verify fuel statement params proof = Ret b) \/
    (verify fuel statement params proof = Timeout /\
     exists root,
       Proof.root proof = Some root /\
       deriveQueryIndices fuel (computeChallengeSeed root statement) params
       = Timeout)).
  { unfold verify.
    destruct (verifyBody fuel statement params proof) as [b | e |] eqn:E;
      cbn [tryCatch]; eauto.
    right. split; [reflexivity |]. apply verifyBody_Timeout, E. }
  split; [intros e; apply tryCatch_never_throws |].
  split; [intros e E; unfold verify; rewrite E; reflexivity |].
  split; [exact Hcases |].
  intros root n Hroot Hdraws Hfuel.
  destruct Hcases as [Hb | (_ & root' & Hroot' & E)]; [exact Hb |].
  assert (root' = root) by congruence. subst root'.
  apply (deriveQueryIndices_no_timeout _ _ n fuel) in E;
    [contradiction | exact Hdraws | exact Hfuel].
Qed.

(** A proof object without a root makes the body throw a [TypeError];
    [verify] answers [false]. *)
Example verify_rootless {H : Hash256} :
  verifyBody 0 Instances.smallStatement Instances.smallParams
             Instances.rootlessProof
  = Throw (TypeError "Cannot read properties of undefined: length")
  /\ verify 0 Instances.smallStatement Instances.smallParams
            Instances.rootlessProof = Ret false.
Proof. split; reflexivity. Qed.

(** With [queries > steps - 1] the derivation of the indices throws
    inside the body; [verify] answers [false]. *)
Example verify_greedy_params {H : Hash256} :
  verifyBody 0 Instances.smallStatement Instances.greedyParams
             Instances.twoOpenings
  = Throw (InvalidParams "queries must be <= steps - 1")
  /\ verify 0 Instances.smallStatement Instances.greedyParams
            Instances.twoOpenings = Ret false.
Proof. split; reflexivity. Qed.

(** ** The hash instance *)

Example sha256_abc :
  Sha256.hash [Byte.x61; Byte.x62; Byte.x63]
  = map byte.of_Z
        [0xba; 0x78; 0x16; 0xbf; 0x8f; 0x01; 0xcf; 0xea; 0x41; 0x41; 0x40;
         0xde; 0x5d; 0xae; 0x22; 0x23; 0xb0; 0x03; 0x61; 0xa3; 0x96; 0x17;
         0x7a; 0x9c; 0xb4; 0x10; 0xff; 0x61; 0xf2; 0x00; 0x15; 0xad].
Proof. vm_compute. reflexivity. Qed.

(** * Further properties of the code *)

(** ** Field operations *)

(** X1: the constructor canonicalises under a positive modulus, also from a
    negative value, and throws a [RangeError] under a zero modulus. *)
Theorem constructor_canonical (v m : Z) :
  0 < m ->
  (exists a, new v m = Ret a /\ canonical a /\ modulus a = m /\
             (m | value a - v))
  /\ new v 0 = Throw (RangeError "Division by zero").
Proof.
  intros Hm. split; [| reflexivity].
  exists (mkFE (v mod m) m). split; [apply new_pos, Hm |].
  unfold canonical. cbn [value modulus].
  pose proof (Z.mod_pos_bound v m Hm).
  repeat split; try lia.
  exists (- (v / m)). pose proof (Z.div_mod v m ltac:(lia)). lia.
Qed.

Lemma constructor_canonical_witness :
  (exists a, new (-3) 7 = Ret a /\ canonical a /\ modulus a = 7 /\
             (7 | value a - -3))
  /\ new (-3) 0 = Throw (RangeError "Division by zero").
Proof. apply (constructor_canonical (-3) 7). lia. Defined.

(** X2: [a.add(b).sub(b)] is [a], for a canonical [a] and any [b] of its
    field. *)
Theorem add_sub_cancel (a b : FieldElement) :
  0 < modulus a ->
  modulus b = modulus a ->
  canonical a ->
  exists s, add a b = Ret s /\ sub s b = Ret a.
Proof.
  intros Hm Hb [Hlo Hhi]. destruct a as [va m], b as [vb mb].
  cbn [value modulus] in *. subst mb.
  exists (mkFE ((va + vb) mod m) m).
  unfold add, sub, ensureSameField. cbn [value modulus].
  rewrite Z.eqb_refl. cbn [negb bind]. rewrite !new_pos by exact Hm.
  split; [reflexivity |]. do 2 f_equal.
  rewrite Zminus_mod_idemp_l.
  replace (va + vb - vb) with va by ring.
  apply Z.mod_small. lia.
Qed.

Lemma add_sub_cancel_witness :
  exists s, add (mkFE 5 7) (mkFE 4 7) = Ret s /\ sub s (mkFE 4 7) = Ret (mkFE 5 7).
Proof.
  apply (add_sub_cancel (mkFE 5 7) (mkFE 4 7)).
  - simpl. lia.
  - reflexivity.
  - unfold canonical. simpl. lia.
Defined.

(** X3: [a.add(a.neg())] is the zero of the field. *)
Theorem add_neg_zero (a : FieldElement) :
  0 < modulus a ->
  exists n, neg a = Ret n /\ add a n = Ret (mkFE 0 (modulus a))
            /\ Field.zero (modulus a) = Ret (mkFE 0 (modulus a)).
Proof.
  intros Hm. destruct a as [v m]. cbn [value modulus] in *.
  exists (mkFE ((- v) mod m) m).
  unfold neg, add, ensureSameField, Field.zero. cbn [value modulus].
  rewrite Z.eqb_refl. cbn [negb bind]. rewrite !new_pos by exact Hm.
  split; [reflexivity |]. split; [| rewrite Z.mod_0_l by lia; reflexivity].
  do 2 f_equal.
  rewrite Zplus_mod_idemp_r.
  replace (v + - v) with 0 by ring. apply Z.mod_0_l. lia.
Qed.

Lemma add_neg_zero_witness :
  exists n, neg (mkFE 5 7) = Ret n /\ add (mkFE 5 7) n = Ret (mkFE 0 7)
            /\ Field.zero 7 = Ret (mkFE 0 7).
Proof. apply (add_neg_zero (mkFE 5 7)). simpl. lia. Defined.

(** X4: every binary operation across two different moduli throws
    [FieldMismatch]; [div] does so before it inverts, also for a zero
    divisor. *)
Theorem field_mismatch (a b : FieldElement) :
  modulus a <> modulus b ->
  add a b = Throw FieldMismatch /\
  sub a b = Throw FieldMismatch /\
  mul a b = Throw FieldMismatch /\
  div a b = Throw FieldMismatch.
Proof.
  intros Hne. unfold add, sub, mul, div, ensureSameField.
  destruct (Z.eqb_spec (modulus a) (modulus b)); [contradiction |].
  repeat split; reflexivity.
Qed.

Lemma field_mismatch_witness :
  add (mkFE 1 7) (mkFE 0 11) = Throw FieldMismatch /\
  sub (mkFE 1 7) (mkFE 0 11) = Throw FieldMismatch /\
  mul (mkFE 1 7) (mkFE 0 11) = Throw FieldMismatch /\
  div (mkFE 1 7) (mkFE 0 11) = Throw FieldMismatch.
Proof. apply (field_mismatch (mkFE 1 7) (mkFE 0 11)). simpl. lia. Defined.

(** The loop of [pow] multiplies [result] by [base ^ exp]. *)
Lemma powLoop_value (m : Z) (exp : positive) :
  0 < m ->
  forall r b,
    powLoop exp (mkFE r m) (mkFE b m)
    = Ret (mkFE ((r * b ^ Z.pos exp) mod m) m).
Proof.
  intros Hm. induction exp as [e IH | e IH |]; intros r b;
    cbn [powLoop]; unfold mul, ensureSameField; cbn [value modulus];
    rewrite Z.eqb_refl; cbn [negb bind]; rewrite !new_pos by exact Hm;
    cbn [bind].
  - rewrite IH. do 2 f_equal.
    rewrite Zmult_mod_idemp_l.
    rewrite <- (Zmult_mod_idemp_r (((b * b) mod m) ^ Z.pos e)).
    rewrite Z.mod_pow_l, Zmult_mod_idemp_r. f_equal.
    rewrite Pos2Z.inj_xI, Z.pow_add_r, Z.pow_mul_r, Z.pow_1_r, Z.pow_2_r
      by lia.
    ring.
  - rewrite IH. do 2 f_equal.
    rewrite <- (Zmult_mod_idemp_r (((b * b) mod m) ^ Z.pos e)).
    rewrite Z.mod_pow_l, Zmult_mod_idemp_r. f_equal.
    rewrite Pos2Z.inj_xO, Z.pow_mul_r, Z.pow_2_r by lia.
    reflexivity.
  - rewrite Z.pow_1_r. reflexivity.
Qed.

Lemma pow_nonneg (a : FieldElement) (e : Z) :
  0 < modulus a ->
  0 <= e ->
  pow a e = Ret (mkFE (value a ^ e mod modulus a) (modulus a)).
Proof.
  intros Hm He. destruct a as [v m]. cbn [value modulus] in *.
  unfold pow, powNonneg. cbn [modulus].
  destruct (Z.ltb_spec e 0); [lia |].
  rewrite new_pos by exact Hm. cbn [bind].
  destruct e as [| p | p]; [reflexivity | | lia].
  rewrite powLoop_value by exact Hm.
  rewrite Zmult_mod_idemp_l, Z.mul_1_l. reflexivity.
Qed.

(** X5: binary exponentiation: for a non-negative exponent [pow] returns
    [value ^ exponent] reduced modulo the modulus; [pow(a, 0)] is one. *)
Theorem pow_value (a : FieldElement) (e : Z) :
  0 < modulus a ->
  0 <= e ->
  pow a e = Ret (mkFE (value a ^ e mod modulus a) (modulus a))
  /\ pow a 0 = Field.one (modulus a).
Proof.
  intros Hm He. split; [apply pow_nonneg; assumption |].
  rewrite pow_nonneg by lia. unfold Field.one.
  rewrite new_pos by exact Hm. reflexivity.
Qed.

Lemma pow_value_witness :
  pow (mkFE 3 7) 5 = Ret (mkFE (3 ^ 5 mod 7) 7)
  /\ pow (mkFE 3 7) 0 = Field.one 7.
Proof. apply (pow_value (mkFE 3 7) 5); simpl; lia. Defined.

Lemma authHash_cube_plus_7 (x : FieldElement) :
  0 < modulus x ->
  authHash x = Ret (mkFE ((value x ^ 3 + 7) mod modulus x) (modulus x)).
Proof.
  intros Hm. unfold authHash.
  rewrite new_pos, pow_nonneg by lia. cbn [bind].
  unfold add, ensureSameField. cbn [value modulus].
  rewrite Z.eqb_refl. cbn [negb bind]. rewrite new_pos by exact Hm.
  rewrite <- Zplus_mod. reflexivity.
Qed.

(** X6: the transition is [x^3 + 7] reduced modulo the modulus of [x]: a
    canonical element of the same field. *)
Theorem authHash_value (x : FieldElement) :
  0 < modulus x ->
  exists y,
    authHash x = Ret y /\
    value y = (value x ^ 3 + 7) mod modulus x /\
    modulus y = modulus x /\
    canonical y.
Proof.
  intros Hm. eexists. split; [apply authHash_cube_plus_7, Hm |].
  unfold canonical. cbn [value modulus].
  repeat split; try reflexivity; apply Z.mod_pos_bound, Hm.
Qed.

Lemma authHash_value_witness :
  exists y,
    authHash (mkFE 2 STARK_PRIME) = Ret y /\
    value y = (2 ^ 3 + 7) mod STARK_PRIME /\
    modulus y = STARK_PRIME /\
    canonical y.
Proof. apply (authHash_value (mkFE 2 STARK_PRIME)). reflexivity. Defined.

(** Inversion under any modulus: the extended Euclid loop finds the gcd. *)
Lemma inverse_by_gcd (v m : Z) :
  0 < v < m ->
  (Z.gcd v m = 1 ->
   exists x, inverse (mkFE v m) = Ret (mkFE (x mod m) m) /\ (v * x) mod m = 1)
  /\ (Z.gcd v m <> 1 -> inverse (mkFE v m) = Throw NotInvertible).
Proof.
  intros Hv.
  destruct (egcdLoop_spec v m v m 1 0) as [Hfst Hsnd];
    try lia; try reflexivity.
  { exists 0. ring. }
  { exists (-1). ring. }
  unfold inverse, extendedGcd. cbn [value modulus].
  destruct (Z.eqb_spec v 0) as [? | _]; [lia |].
  destruct (Z.eqb_spec m 0) as [? | _]; [lia |].
  destruct (egcdLoop v m 1 0) as [g x]. cbn [fst snd] in *. subst g.
  split; intros Hg.
  - exists x. rewrite Hg. cbn [Z.eqb negb Pos.eqb].
    split; [apply new_pos; lia |].
    rewrite Hg in Hsnd. destruct Hsnd as [k Hk].
    replace (v * x) with (1 + k * m) by lia.
    rewrite Z.mod_add by lia. apply Z.mod_small. lia.
  - destruct (Z.eqb_spec (Z.gcd v m) 1); [contradiction | reflexivity].
Qed.

(** X7: [inverse] succeeds exactly on the elements coprime with the modulus:
    otherwise it throws "Element is not invertible". *)
Theorem inverse_iff_coprime (a : FieldElement) :
  canonical a ->
  value a <> 0 ->
  (Z.gcd (value a) (modulus a) = 1 ->
   exists inv, inverse a = Ret inv /\ mul a inv = Ret (mkFE 1 (modulus a)))
  /\ (Z.gcd (value a) (modulus a) <> 1 -> inverse a = Throw NotInvertible).
Proof.
  intros [Hlo Hhi] Hnz. destruct a as [v m]. cbn [value modulus] in *.
  destruct (inverse_by_gcd v m ltac:(lia)) as [Hok Hbad].
  split; [| exact Hbad].
  intros Hg. destruct (Hok Hg) as (x & Hinv & Hx).
  exists (mkFE (x mod m) m). split; [exact Hinv |].
  unfold mul, ensureSameField. cbn [value modulus].
  rewrite Z.eqb_refl. cbn [negb bind]. rewrite new_pos by lia.
  rewrite Z.mul_mod_idemp_r by lia. rewrite Hx. reflexivity.
Qed.

Lemma inverse_iff_coprime_witness :
  (Z.gcd 4 6 = 1 ->
   exists inv, inverse (mkFE 4 6) = Ret inv /\
               mul (mkFE 4 6) inv = Ret (mkFE 1 6))
  /\ (Z.gcd 4 6 <> 1 -> inverse (mkFE 4 6) = Throw NotInvertible).
Proof.
  apply (inverse_iff_coprime (mkFE 4 6)).
  - unfold canonical. simpl. lia.
  - simpl. lia.
Defined.

(** X8: [a.div(b).mul(b)] is [a] over a prime modulus, for [b] not zero;
    dividing by the zero element throws [DivisionByZero]. *)
Theorem div_mul_cancel (a b : FieldElement) :
  Z.prime (modulus a) ->
  modulus b = modulus a ->
  canonical a -> canonical b ->
  value b <> 0 ->
  (exists q, div a b = Ret q /\ mul q b = Ret a)
  /\ div a (mkFE 0 (modulus a)) = Throw DivisionByZero.
Proof.
  intros Hp Hmb [Halo Hahi] [Hblo Hbhi] Hnz.
  destruct a as [va m], b as [vb mb]. cbn [value modulus] in *. subst mb.
  pose proof (Z.prime_ge_2 m Hp) as Hm.
  split.
  - destruct (inverse_spec vb m Hp ltac:(lia)) as (x & Hinv & Hx).
    exists (mkFE ((va * (x mod m)) mod m) m).
    unfold div, mul, ensureSameField. cbn [value modulus].
    rewrite Z.eqb_refl. cbn [negb bind]. rewrite Hinv. cbn [bind value modulus].
    rewrite Z.eqb_refl. cbn [negb bind]. rewrite !new_pos by lia.
    split; [reflexivity |]. do 2 f_equal.
    rewrite Z.mul_mod_idemp_l by lia.
    rewrite <- Z.mul_assoc, <- Z.mul_mod_idemp_r by lia.
    rewrite Z.mul_mod_idemp_l by lia.
    rewrite (Z.mul_comm x vb), Hx, Z.mul_1_r. apply Z.mod_small. lia.
  - unfold div, ensureSameField. cbn [value modulus].
    rewrite Z.eqb_refl. reflexivity.
Qed.

Lemma div_mul_cancel_witness :
  (exists q, div (mkFE 3 11) (mkFE 7 11) = Ret q /\
             mul q (mkFE 7 11) = Ret (mkFE 3 11))
  /\ div (mkFE 3 11) (mkFE 0 11) = Throw DivisionByZero.
Proof.
  apply (div_mul_cancel (mkFE 3 11) (mkFE 7 11)).
  - exact prime_11.
  - reflexivity.
  - unfold canonical. simpl. lia.
  - unfold canonical. simpl. lia.
  - simpl. lia.
Defined.

(** X9: a negative exponent inverts first: over a prime modulus
    [pow(a, -e)] times [pow(a, e)] is one, and [pow] of the zero element
    to a negative exponent throws [DivisionByZero]. *)
Theorem pow_negative (a : FieldElement) (e : Z) :
  Z.prime (modulus a) ->
  canonical a ->
  value a <> 0 ->
  0 < e ->
  (exists r s, pow a (- e) = Ret r /\ pow a e = Ret s /\
               mul r s = Ret (mkFE 1 (modulus a)))
  /\ pow (mkFE 0 (modulus a)) (- e) = Throw DivisionByZero.
Proof.
  intros Hp [Hlo Hhi] Hnz He.
  destruct a as [v m]. cbn [value modulus] in *.
  pose proof (Z.prime_ge_2 m Hp) as Hm.
  split.
  - destruct (inverse_spec v m Hp ltac:(lia)) as (x & Hinv & Hx).
    exists (mkFE ((x mod m) ^ e mod m) m), (mkFE (v ^ e mod m) m).
    split; [| split].
    + unfold pow. destruct (Z.ltb_spec (- e) 0); [| lia].
      rewrite Hinv. cbn [bind]. rewrite Z.opp_involutive.
      pose proof (pow_nonneg (mkFE (x mod m) m) e ltac:(simpl; lia)
                             ltac:(lia)) as E.
      unfold pow in E. destruct (Z.ltb_spec e 0); [lia |]. exact E.
    + apply (pow_nonneg (mkFE v m) e); simpl; lia.
    + unfold mul, ensureSameField. cbn [value modulus].
      rewrite Z.eqb_refl. cbn [negb bind]. rewrite new_pos by lia.
      do 2 f_equal.
      rewrite Z.mod_pow_l, <- Z.mul_mod by lia.
      rewrite <- Z.pow_mul_l, <- Z.mod_pow_l, (Z.mul_comm x v), Hx.
      rewrite Z.pow_1_l by lia. apply Z.mod_small. lia.
  - unfold pow. destruct (Z.ltb_spec (- e) 0); [| lia]. reflexivity.
Qed.

Lemma pow_negative_witness :
  (exists r s, pow (mkFE 7 11) (- 3) = Ret r /\ pow (mkFE 7 11) 3 = Ret s /\
               mul r s = Ret (mkFE 1 11))
  /\ pow (mkFE 0 11) (- 3) = Throw DivisionByZero.
Proof.
  apply (pow_negative (mkFE 7 11) 3).
  - exact prime_11.
  - unfold canonical. simpl. lia.
  - simpl. lia.
  - lia.
Defined.

(** ** Encoding, the other way round *)

Lemma bigEndianValue_bound (bytes : list byte) :
  bigEndianValue bytes < 256 ^ Z.of_nat (length bytes).
Proof.
  induction bytes as [| b rest IH]; [reflexivity |].
  cbn [bigEndianValue length].
  rewrite Nat2Z.inj_succ, Z.pow_succ_r by lia.
  pose proof (byte.unsigned_range b) as R. change (2 ^ 8) with 256 in R.
  assert (0 < 256 ^ Z.of_nat (length rest)) by (apply Z.pow_pos_nonneg; lia).
  nia.
Qed.

Lemma bigEndianValue_inj (a : list byte) :
  forall b,
    length a = length b ->
    bigEndianValue a = bigEndianValue b -> a = b.
Proof.
  induction a as [| x a IH]; intros [| y b] Hlen E; try discriminate;
    [reflexivity |].
  injection Hlen as Hlen. cbn [bigEndianValue] in E. rewrite Hlen in E.
  pose proof (bigEndianValue_bound a) as Ba. rewrite Hlen in Ba.
  pose proof (bigEndianValue_bound b) as Bb.
  pose proof (bigEndianValue_nonneg a). pose proof (bigEndianValue_nonneg b).
  assert (Hp : 0 < 256 ^ Z.of_nat (length b)) by (apply Z.pow_pos_nonneg; lia).
  assert (Exy : byte.unsigned x = byte.unsigned y) by nia.
  rewrite Exy in E.
  f_equal; [apply byte.unsigned_inj, Exy | apply IH; [exact Hlen | lia]].
Qed.

Lemma encode32_bigEndianValue (bytes : list byte) :
  length bytes = 32%nat -> encode32 (bigEndianValue bytes) = bytes.
Proof.
  intros Hlen. apply bigEndianValue_inj.
  - rewrite encode32_length. symmetry. exact Hlen.
  - rewrite bigEndianValue_encode32. apply Z.mod_small.
    pose proof (bigEndianValue_bound bytes) as B. rewrite Hlen in B.
    pose proof (bigEndianValue_nonneg bytes).
    change (256 ^ Z.of_nat 32) with (2 ^ 256) in B. lia.
Qed.

(** X10: decoding 32 bytes whose value is below [STARK_PRIME] and encoding the
    result gives the bytes back. *)
Theorem decode_encode_roundtrip (bytes : list byte) :
  length bytes = 32%nat ->
  bigEndianValue bytes < STARK_PRIME ->
  exists a,
    fieldElementFromBytes bytes = Ret a /\
    canonical a /\
    fieldElementToBytes a = bytes.
Proof.
  intros Hlen Hlt.
  pose proof (bigEndianValue_nonneg bytes) as Hnn.
  exists (mkFE (bigEndianValue bytes) STARK_PRIME).
  rewrite fieldElementFromBytes_spec by exact Hlen.
  rewrite Z.mod_small by lia.
  split; [reflexivity |]. split; [unfold canonical; simpl; lia |].
  rewrite fieldElementToBytes_encode32.
  - apply encode32_bigEndianValue, Hlen.
  - cbn [value]. assert (STARK_PRIME < 2 ^ 256) by reflexivity. lia.
Qed.

Lemma decode_encode_roundtrip_witness :
  exists a,
    fieldElementFromBytes Instances.zeroRoot = Ret a /\
    canonical a /\
    fieldElementToBytes a = Instances.zeroRoot.
Proof.
  apply (decode_encode_roundtrip Instances.zeroRoot).
  - reflexivity.
  - vm_compute. reflexivity.
Defined.

(** X11: a value of [2^256] or more (possible under a larger modulus) is not
    rejected by [fieldElementToBytes]: only its 64 leading hexadecimal
    digits are encoded, the low ones are dropped. *)
Theorem fieldElementToBytes_truncates (a : FieldElement) :
  2 ^ 256 <= value a ->
  fieldElementToBytes a
  = encode32 (value a / 16 ^ Z.of_nat (hexLength (value a) - 64))
  /\ value a / 16 ^ Z.of_nat (hexLength (value a) - 64) < 2 ^ 256.
Proof.
  intros Hv. destruct a as [v m]. cbn [value] in *.
  assert (Hpos : 0 < v) by (assert (0 < 2 ^ 256) by reflexivity; lia).
  destruct (hexLength_bounds v Hpos) as [Hlt _].
  set (n := hexLength v) in *.
  assert (Hn : (64 < n)%nat).
  { destruct (Nat.le_gt_cases n 64) as [Hle | Hgt]; [| exact Hgt].
    assert (16 ^ Z.of_nat n <= 16 ^ 64) by (apply Z.pow_le_mono_r; lia).
    change (16 ^ 64) with (2 ^ 256) in *. lia. }
  assert (Hsplit : 16 ^ Z.of_nat n = 16 ^ Z.of_nat (n - 64) * 16 ^ 64).
  { rewrite <- Z.pow_add_r by lia. f_equal. lia. }
  assert (Hlow : 0 < 16 ^ Z.of_nat (n - 64)) by (apply Z.pow_pos_nonneg; lia).
  split.
  - unfold fieldElementToBytes, encode32. cbn [value].
    destruct v as [| p | p]; try lia.
    change (toString16 (Z.pos p)) with (hexDigits (Z.pos p)).
    set (v := Z.pos p) in *.
    unfold padStart, hexDigits. fold n.
    rewrite length_map, length_seq.
    replace (64 - n)%nat with 0%nat by lia. cbn [repeat app].
    apply map_ext_in. intros i Hi. apply in_seq in Hi. unfold slice.
    rewrite slice_pair by lia.
    rewrite parseInt16_pair by (apply Z.mod_pos_bound; lia).
    cbn [toUint8].
    assert (Hdigit : forall j, (j < 64)%nat ->
              v / 16 ^ Z.of_nat (n - 1 - j)
              = v / 16 ^ Z.of_nat (n - 64) / 16 ^ Z.of_nat (63 - j)).
    { intros j Hj. rewrite Z.div_div by (try apply Z.pow_pos_nonneg; lia).
      rewrite <- Z.pow_add_r by lia. do 2 f_equal. lia. }
    rewrite (Hdigit (i * 2)%nat), (Hdigit (S (i * 2))) by lia.
    replace (63 - i * 2)%nat with (2 * (31 - i) + 1)%nat by lia.
    replace (63 - S (i * 2))%nat with (2 * (31 - i))%nat by lia.
    rewrite two_digits_one_byte by (apply Z.div_pos; lia).
    apply byte_of_Z_mod.
  - apply Z.div_lt_upper_bound; [exact Hlow |].
    change (2 ^ 256) with (16 ^ 64). lia.
Qed.

Lemma fieldElementToBytes_truncates_witness :
  fieldElementToBytes (mkFE (2 ^ 256 + 5) (2 ^ 300))
  = encode32 ((2 ^ 256 + 5) / 16 ^ Z.of_nat (hexLength (2 ^ 256 + 5) - 64))
  /\ (2 ^ 256 + 5) / 16 ^ Z.of_nat (hexLength (2 ^ 256 + 5) - 64) < 2 ^ 256.
Proof.
  apply (fieldElementToBytes_truncates (mkFE (2 ^ 256 + 5) (2 ^ 300))).
  vm_compute. discriminate.
Defined.

(** ** Merkle trees: errors, shape and binding *)

(** X12: the constructor refuses an empty sequence of leaves, and [getProof]
    refuses an index outside the leaves. *)
Theorem merkle_errors {H : Hash256} (leaves : list (list byte))
  (tree : MerkleTree.t) (index : Z) :
  MerkleTree.new leaves = Ret tree ->
  index < 0 \/ Z.of_nat (length leaves) <= index ->
  MerkleTree.getProof tree index = Throw IndexOutOfRange
  /\ MerkleTree.new [] = Throw EmptyInput.
Proof.
  intros Hnew Hidx. split; [| reflexivity].
  unfold MerkleTree.new in Hnew.
  destruct (Nat.eqb (length leaves) 0); [discriminate |].
  injection Hnew as <-. unfold MerkleTree.getProof. cbn [MerkleTree.leaves].
  destruct (Z.ltb_spec index 0); [reflexivity |].
  destruct (Z.geb_spec index (Z.of_nat (length leaves))); [reflexivity | lia].
Qed.

Lemma merkle_errors_witness :
  MerkleTree.getProof Instances.threeTree 3 = Throw IndexOutOfRange
  /\ MerkleTree.new (H := Sha256.instance) [] = Throw EmptyInput.
Proof.
  apply (merkle_errors (H := Sha256.instance) Instances.threeLeaves
                       Instances.threeTree 3).
  - vm_compute. reflexivity.
  - right. simpl. lia.
Defined.

Section MerkleShape.
Context {H : Hash256}.

Lemma last_layer_single (n : nat) :
  forall layer : list (list byte),
    (length layer <= n)%nat ->
    layer <> [] ->
    exists r,
      last (layer :: MerkleTree.buildLayers layer) [] = [r] /\
      (length layer = 1%nat -> layer = [r]) /\
      (2 <= length layer -> length r = 32)%nat.
Proof.
  induction n as [| n IH]; intros layer Hn Hne.
  - destruct layer; [contradiction | simpl in Hn; lia].
  - rewrite buildLayers_unfold.
    destruct (lt_dec 1 (length layer)) as [Hlong | Hshort].
    + pose proof (nextLayer_length _ layer (le_n _)) as Hlen.
      assert (Hhalf : ((length layer + 1) / 2 < length layer)%nat).
      { apply Nat.Div0.div_lt_upper_bound. lia. }
      assert (Hpos : (1 <= (length layer + 1) / 2)%nat).
      { apply Nat.div_le_lower_bound; lia. }
      destruct (IH (MerkleTree.nextLayer layer)) as (r & Hlast & Hone & Htwo).
      { lia. }
      { intros E. rewrite E in Hlen. cbn [length] in Hlen. lia. }
      exists r.
      change (last (layer :: MerkleTree.nextLayer layer
                      :: MerkleTree.buildLayers (MerkleTree.nextLayer layer)) [])
        with (last (MerkleTree.nextLayer layer
                      :: MerkleTree.buildLayers (MerkleTree.nextLayer layer)) []).
      split; [exact Hlast |]. split; [lia |].
      intros _.
      destruct (Nat.eq_dec (length (MerkleTree.nextLayer layer)) 1) as [E1 | E1].
      * specialize (Hone E1).
        destruct layer as [| a [| b rest]]; simpl in Hlong; try lia.
        cbn [MerkleTree.nextLayer] in Hone. injection Hone as <- _.
        apply sha256_length.
      * apply Htwo. lia.
    + destruct layer as [| a [| b rest]]; simpl in Hshort; try lia;
        [contradiction |].
      exists a. repeat split; try reflexivity. simpl. lia.
Qed.

Lemma proofLoop_length (layers : list (list (list byte))) :
  forall layer index,
    (length (MerkleTree.proofLoop (layer :: layers) index) <= length layers)%nat.
Proof.
  induction layers as [| next layers IH]; intros layer index.
  - simpl. lia.
  - specialize (IH next (index / 2)).
    remember (MerkleTree.proofLoop (next :: layers) (index / 2)) as tail.
    assert (E : exists siblings,
               MerkleTree.proofLoop (layer :: next :: layers) index
               = siblings ++ tail /\ (length siblings <= 1)%nat).
    { subst tail. eexists. split; [reflexivity |].
      destruct (_ <? _); simpl; lia. }
    destruct E as (siblings & -> & Hs).
    rewrite length_app. cbn [length]. lia.
Qed.

Lemma log2_up_half (n : nat) :
  (2 <= n)%nat -> Nat.log2_up n = S (Nat.log2_up ((n + 1) / 2)).
Proof.
  intros Hn.
  pose proof (Nat.div_mod_eq (n + 1) 2) as Ediv.
  pose proof (Nat.mod_upper_bound (n + 1) 2 ltac:(lia)) as Bmod.
  set (h := ((n + 1) / 2)%nat) in *.
  destruct (Nat.eq_dec h 1) as [E1 | E1].
  - assert (n = 2)%nat by lia. subst n. rewrite E1. reflexivity.
  - assert (Hh : (1 < h)%nat) by lia.
    pose proof (Nat.log2_up_spec h Hh) as [Hlo Hhi].
    assert (Hk : (0 < Nat.log2_up h)%nat) by (apply Nat.log2_up_pos; lia).
    apply Nat.log2_up_unique; [lia |].
    cbn [Nat.pred].
    replace (Nat.log2_up h) with (S (Nat.pred (Nat.log2_up h))) at 1 by lia.
    rewrite !Nat.pow_succ_r'. rewrite Nat.pow_succ_r' in Hhi || idtac.
    lia.
Qed.

Lemma buildLayers_depth (n : nat) :
  forall layer : list (list byte),
    (length layer <= n)%nat ->
    layer <> [] ->
    length (MerkleTree.buildLayers layer) = Nat.log2_up (length layer).
Proof.
  induction n as [| n IH]; intros layer Hn Hne.
  - destruct layer; [contradiction | simpl in Hn; lia].
  - rewrite buildLayers_unfold.
    destruct (lt_dec 1 (length layer)) as [Hlong | Hshort].
    + pose proof (nextLayer_length _ layer (le_n _)) as Hlen.
      assert (Hhalf : ((length layer + 1) / 2 < length layer)%nat).
      { apply Nat.Div0.div_lt_upper_bound. lia. }
      assert (Hpos : (1 <= (length layer + 1) / 2)%nat).
      { apply Nat.div_le_lower_bound; lia. }
      cbn [length]. rewrite IH.
      * rewrite Hlen. symmetry. apply log2_up_half. lia.
      * lia.
      * intros E. rewrite E in Hlen. cbn [length] in Hlen. lia.
    + destruct layer as [| a [| b rest]]; simpl in Hshort; try lia;
        [contradiction | reflexivity].
Qed.


End MerkleShape.

(** X13: the last layer of a tree is the root alone; the root of a one-leaf
    tree is the leaf itself, unhashed, and the root of a larger tree is a
    32-byte digest. *)
Theorem merkle_root_shape {H : Hash256} (leaves : list (list byte))
  (tree : MerkleTree.t) :
  MerkleTree.new leaves = Ret tree ->
  last (MerkleTree.layers tree) [] = [MerkleTree.root tree] /\
  (length leaves = 1%nat -> leaves = [MerkleTree.root tree]) /\
  (2 <= length leaves -> length (MerkleTree.root tree) = 32)%nat.
Proof.
  intros Hnew.
  assert (Htree : leaves <> [] /\
                  tree = MerkleTree.mk leaves
                           (leaves :: MerkleTree.buildLayers leaves)
                           (hd [] (last (leaves :: MerkleTree.buildLayers leaves)
                                        []))).
  { unfold MerkleTree.new in Hnew.
    destruct (Nat.eqb_spec (length leaves) 0) as [| Hlen]; [discriminate |].
    split; [intros E; rewrite E in Hlen; contradiction | congruence]. }
  destruct Htree as [Hne ->].
  destruct (last_layer_single (length leaves) leaves (le_n _) Hne)
    as (r & Hlast & Hone & Htwo).
  unfold MerkleTree.layers, MerkleTree.root.
  rewrite Hlast. split; [reflexivity |]. split; assumption.
Qed.

Lemma merkle_root_shape_witness :
  last (MerkleTree.layers Instances.threeTree) []
  = [MerkleTree.root Instances.threeTree] /\
  (length Instances.threeLeaves = 1%nat ->
   Instances.threeLeaves = [MerkleTree.root Instances.threeTree]) /\
  (2 <= length Instances.threeLeaves ->
   length (MerkleTree.root Instances.threeTree) = 32)%nat.
Proof.
  apply (merkle_root_shape (H := Sha256.instance) Instances.threeLeaves
                           Instances.threeTree).
  vm_compute. reflexivity.
Defined.

(** X14: a tree has [ceil(log2 n)] layers above its [n] leaves, and an
    inclusion proof carries at most that many siblings. *)
Theorem merkle_proof_length {H : Hash256} (leaves : list (list byte))
  (tree : MerkleTree.t) (index : Z) (proof : MerkleProof.t) :
  MerkleTree.new leaves = Ret tree ->
  MerkleTree.getProof tree index = Ret proof ->
  length (MerkleTree.layers tree) = S (Nat.log2_up (length leaves)) /\
  (length (MerkleProof.proof proof) <= Nat.log2_up (length leaves))%nat.
Proof.
  unfold MerkleTree.new. intros Hnew Hget.
  destruct (Nat.eqb_spec (length leaves) 0) as [| Hne]; [discriminate |].
  injection Hnew as <-. unfold MerkleTree.getProof in Hget.
  cbn [MerkleTree.leaves MerkleTree.layers MerkleTree.root] in *.
  destruct ((index <? 0) || (index >=? Z.of_nat (length leaves)));
    [discriminate |].
  injection Hget as <-. cbn [MerkleProof.proof length].
  assert (Hdepth : length (MerkleTree.buildLayers leaves)
                   = Nat.log2_up (length leaves)).
  { apply (buildLayers_depth (length leaves)); [lia |].
    intros E. rewrite E in Hne. contradiction. }
  split; [f_equal; exact Hdepth |].
  rewrite <- Hdepth. apply proofLoop_length.
Qed.

Lemma merkle_proof_length_witness :
  length (MerkleTree.layers Instances.threeTree)
  = S (Nat.log2_up (length Instances.threeLeaves)) /\
  (length (MerkleProof.proof
             (MerkleProof.mk [Byte.x03]
                [mkNode (Sha256.hash [Byte.x01; Byte.x02]) Left]
                (MerkleTree.root Instances.threeTree)))
   <= Nat.log2_up (length Instances.threeLeaves))%nat.
Proof.
  apply (merkle_proof_length (H := Sha256.instance) Instances.threeLeaves
                             Instances.threeTree 2).
  - vm_compute. reflexivity.
  - vm_compute. reflexivity.
Defined.



(** X16: no domain separation: the tree over the nodes of the second layer of
    a tree has the same root as the tree itself. *)
Theorem merkle_root_of_inner_layer {H : Hash256} (leaves : list (list byte))
  (tree : MerkleTree.t) :
  MerkleTree.new leaves = Ret tree ->
  (2 <= length leaves)%nat ->
  exists inner,
    MerkleTree.new (MerkleTree.nextLayer leaves) = Ret inner /\
    MerkleTree.root inner = MerkleTree.root tree /\
    (length (MerkleTree.leaves inner) < length leaves)%nat.
Proof.
  unfold MerkleTree.new. intros Hnew Hlen.
  destruct (Nat.eqb_spec (length leaves) 0) as [| Hne]; [discriminate |].
  injection Hnew as <-.
  pose proof (nextLayer_length _ leaves (le_n _)) as Hnext.
  assert (Hhalf : ((length leaves + 1) / 2 < length leaves)%nat).
  { apply Nat.Div0.div_lt_upper_bound. lia. }
  assert (Hpos : (1 <= (length leaves + 1) / 2)%nat).
  { apply Nat.div_le_lower_bound; lia. }
  destruct (Nat.eqb_spec (length (MerkleTree.nextLayer leaves)) 0); [lia |].
  eexists. split; [reflexivity |].
  cbn [MerkleTree.root MerkleTree.leaves]. split; [| lia].
  rewrite (buildLayers_unfold leaves).
  destruct (lt_dec 1 (length leaves)); [reflexivity | lia].
Qed.

Lemma merkle_root_of_inner_layer_witness :
  exists inner,
    MerkleTree.new (H := Sha256.instance)
      (MerkleTree.nextLayer (H := Sha256.instance) Instances.threeLeaves)
    = Ret inner /\
    MerkleTree.root inner = MerkleTree.root Instances.threeTree /\
    (length (MerkleTree.leaves inner) < length Instances.threeLeaves)%nat.
Proof.
  apply (merkle_root_of_inner_layer (H := Sha256.instance)
           Instances.threeLeaves Instances.threeTree).
  - vm_compute. reflexivity.
  - simpl. lia.
Defined.

(** ** The prover: parameters, witness, trace *)

(** X17: parameters that fail one of the tests [queries >= 1],
    [steps >= 2], [queries <= steps - 1] (the difference as the code
    computes it) are refused with the message of the first test that
    fails: by [deriveQueryIndices], and by [generateAuthProof], which has
    the first and the last test only, before any trace is built;
    [buildAuthTrace] has the second. *)
Theorem invalid_params {H : Hash256} (fuel : nat) (seed : list byte)
  (statement : Statement.t) (witness : Witness.t) (params : AuthParams.t) :
  AuthParams.queries params < 1 \/ AuthParams.steps params < 2
  \/ AuthParams.queries params > Number.sub (AuthParams.steps params) 1 ->
  deriveQueryIndices fuel seed params
  = Throw (Error (if AuthParams.queries params <? 1
                  then "queries must be >= 1"
                  else if AuthParams.steps params <? 2
                       then "steps must be >= 2"
                       else "queries must be <= steps - 1"))
  /\ generateAuthProof fuel statement witness params
     = Throw (Error (if AuthParams.queries params <? 1
                     then "queries must be >= 1"
                     else "queries must be <= steps - 1"))
  /\ (AuthParams.steps params < 2 ->
      buildAuthTrace witness params = Throw (Error "steps must be >= 2")).
Proof.
  intros Hbad. unfold deriveQueryIndices, generateAuthProof, buildAuthTrace,
    InvalidParams.
  destruct (Z.ltb_spec (AuthParams.queries params) 1) as [Hq | Hq].
  - repeat split. intros Hs.
    destruct (Z.ltb_spec (AuthParams.steps params) 2); [reflexivity | lia].
  - destruct (Z.ltb_spec (AuthParams.steps params) 2) as [Hs | Hs].
    + pose proof (sub_nonpositive (AuthParams.steps params) 1 ltac:(lia)).
      destruct (Z.gtb_spec (AuthParams.queries params)
                           (Number.sub (AuthParams.steps params) 1));
        [| lia].
      repeat split.
    + destruct (Z.gtb_spec (AuthParams.queries params)
                           (Number.sub (AuthParams.steps params) 1));
        [| lia].
      repeat split. lia.
Qed.

Lemma invalid_params_witness :
  deriveQueryIndices (H := Sha256.instance) 0 Instances.zeroRoot
                     Instances.greedyParams
  = Throw (Error (if AuthParams.queries Instances.greedyParams <? 1
                  then "queries must be >= 1"
                  else if AuthParams.steps Instances.greedyParams <? 2
                       then "steps must be >= 2"
                       else "queries must be <= steps - 1"))
  /\ generateAuthProof (H := Sha256.instance) 0 Instances.smallStatement
                       Instances.witness Instances.greedyParams
     = Throw (Error (if AuthParams.queries Instances.greedyParams <? 1
                     then "queries must be >= 1"
                     else "queries must be <= steps - 1"))
  /\ (AuthParams.steps Instances.greedyParams < 2 ->
      buildAuthTrace Instances.witness Instances.greedyParams
      = Throw (Error "steps must be >= 2")).
Proof.
  apply (invalid_params (H := Sha256.instance) 0 Instances.zeroRoot
                        Instances.smallStatement Instances.witness
                        Instances.greedyParams).
  right. right. vm_compute. reflexivity.
Defined.

(** In double precision [2^54 - 1] is [2^54]: with [steps = queries =
    2^54] the test [queries > steps - 1] does not fire, no parameter
    error is thrown, and [generateAuthProof] fails on the length of the
    trace instead. *)
Example params_test_rounds :
  AuthParams.queries (AuthParams.mk (2 ^ 54) (2 ^ 54))
  > AuthParams.steps (AuthParams.mk (2 ^ 54) (2 ^ 54)) - 1 /\
  generateAuthProof (H := Sha256.instance) 0 Instances.smallStatement
                    Instances.witness (AuthParams.mk (2 ^ 54) (2 ^ 54))
  = Throw invalidLength.
Proof. split; vm_compute; reflexivity. Qed.

(** X18: a witness whose chain does not end in [statement.finalHash] is
    refused with [WitnessMismatch], before anything is committed. *)
Theorem witness_mismatch {H : Hash256} (fuel : nat) (statement : Statement.t)
  (witness : Witness.t) (params : AuthParams.t) (trace : list FieldElement)
  (final : FieldElement) :
  1 <= AuthParams.queries params <= AuthParams.steps params - 1 ->
  buildAuthTrace witness params = Ret trace ->
  get trace (AuthParams.steps params - 1) = Some final ->
  final <> Statement.finalHash statement ->
  generateAuthProof fuel statement witness params = Throw WitnessMismatch.
Proof.
  intros Hq Htrace Hfinal Hne. unfold generateAuthProof.
  destruct (buildAuthTrace_spec _ _ _ Htrace) as (Hsteps & _ & _).
  unfold maxLength in Hsteps.
  rewrite (sub_exact (AuthParams.steps params) 1) by lia.
  destruct (Z.ltb_spec (AuthParams.queries params) 1); [lia |].
  destruct (Z.gtb_spec (AuthParams.queries params)
                       (AuthParams.steps params - 1)); [lia |].
  rewrite Htrace. cbn [bind]. rewrite Hfinal. cbn [prop bind].
  destruct (equals final (Statement.finalHash statement)) eqn:E;
    [| reflexivity].
  apply equals_eq in E. contradiction.
Qed.

Lemma witness_mismatch_witness :
  generateAuthProof (H := Sha256.instance) 8
    (withFinalHash Instances.statement (mkFE 8 STARK_PRIME))
    Instances.witness Instances.params
  = Throw WitnessMismatch.
Proof.
  apply (witness_mismatch (H := Sha256.instance) 8
           (withFinalHash Instances.statement (mkFE 8 STARK_PRIME))
           Instances.witness Instances.params Instances.trace
           Instances.finalHash).
  - simpl. lia.
  - vm_compute. reflexivity.
  - vm_compute. reflexivity.
  - discriminate.
Defined.

(** X19: with a single query no hash is drawn: the answer is the forced
    index alone, whatever the seed and however little fuel.  The forced
    index is [steps - 2] as the code computes it: the integer up to
    [steps = 2^53], a rounded value beyond ([2^60] at [steps = 2^60]). *)
Theorem single_query {H : Hash256} (fuel : nat) (seed : list byte)
  (params : AuthParams.t) :
  2 <= AuthParams.steps params ->
  AuthParams.queries params = 1 ->
  deriveQueryIndices fuel seed params
  = Ret [Number.sub (AuthParams.steps params) 2]
  /\ (AuthParams.steps params <= 2 ^ 53 ->
      Number.sub (AuthParams.steps params) 2 = AuthParams.steps params - 2).
Proof.
  intros Hs Hq. split.
  - unfold deriveQueryIndices. rewrite Hq.
    pose proof (sub_positive (AuthParams.steps params) 1 ltac:(lia)).
    destruct (Z.ltb_spec 1 1); [lia |].
    destruct (Z.ltb_spec (AuthParams.steps params) 2); [lia |].
    destruct (Z.gtb_spec 1 (Number.sub (AuthParams.steps params) 1));
      [lia |].
    destruct fuel; reflexivity.
  - intros Hexact. apply sub_exact. lia.
Qed.

Lemma single_query_witness :
  deriveQueryIndices (H := Sha256.instance) 0 Instances.onesRoot
                     Instances.smallParams
  = Ret [Number.sub (AuthParams.steps Instances.smallParams) 2]
  /\ (AuthParams.steps Instances.smallParams <= 2 ^ 53 ->
      Number.sub (AuthParams.steps Instances.smallParams) 2
      = AuthParams.steps Instances.smallParams - 2).
Proof.
  apply (single_query (H := Sha256.instance) 0 Instances.onesRoot
                      Instances.smallParams).
  - simpl. lia.
  - reflexivity.
Defined.

Lemma traceLoop_total (n : nat) :
  forall prev,
    0 < modulus prev ->
    exists l,
      traceLoop n prev = Ret l /\
      Forall (fun x => canonical x /\ modulus x = modulus prev) l.
Proof.
  induction n as [| n IH]; intros prev Hm.
  - exists []. split; [reflexivity | constructor].
  - cbn [traceLoop]. rewrite authHash_cube_plus_7 by exact Hm. cbn [bind].
    destruct (IH (mkFE ((value prev ^ 3 + 7) mod modulus prev) (modulus prev)))
      as (l & -> & Hall); [exact Hm |].
    cbn [bind modulus] in *. eexists. split; [reflexivity |].
    constructor; [| exact Hall].
    unfold canonical. cbn [value modulus].
    split; [apply Z.mod_pos_bound, Hm | reflexivity].
Qed.

Lemma buildAuthTrace_traceLoop (witness : Witness.t) (params : AuthParams.t) :
  2 <= AuthParams.steps params <= maxLength ->
  buildAuthTrace witness params
  = traceLoop (Z.to_nat (AuthParams.steps params)) (Witness.secret witness).
Proof.
  intros Hs. unfold buildAuthTrace.
  destruct (Z.ltb_spec (AuthParams.steps params) 2); [lia |].
  destruct (Z.gtb_spec (AuthParams.steps params) maxLength); [lia |].
  replace (Z.to_nat (AuthParams.steps params))
    with (S (Z.to_nat (AuthParams.steps params - 1))) by lia.
  reflexivity.
Qed.

(** X20: under a positive modulus and with [2 <= steps <= 2^32 - 1] the trace
    is built: it has [steps] entries, entry [i] is the transition applied
    [i + 1] times to the secret, and every entry is a canonical element
    of the secret's field. *)
Theorem trace_shape (witness : Witness.t) (params : AuthParams.t) :
  0 < modulus (Witness.secret witness) ->
  2 <= AuthParams.steps params <= maxLength ->
  exists trace,
    buildAuthTrace witness params = Ret trace /\
    Z.of_nat (length trace) = AuthParams.steps params /\
    forall i, 0 <= i < AuthParams.steps params ->
      exists x,
        get trace i = Some x /\
        applyTransition (S (Z.to_nat i)) (Witness.secret witness) = Ret x /\
        canonical x /\
        modulus x = modulus (Witness.secret witness).
Proof.
  intros Hm Hs.
  destruct (traceLoop_total (Z.to_nat (AuthParams.steps params))
                            (Witness.secret witness) Hm)
    as (trace & Hloop & Hall).
  pose proof (buildAuthTrace_traceLoop witness params Hs) as Hbuild.
  rewrite Hloop in Hbuild.
  exists trace. split; [exact Hbuild |].
  destruct (traceLoop_spec _ _ _ Hloop) as [Hlen _].
  split; [lia |].
  intros i Hi.
  destruct (get_in_range trace i ltac:(lia)) as (x & Hx).
  exists x. split; [exact Hx |].
  apply get_nth_error in Hx as [_ Hx].
  split; [eapply traceLoop_applyTransition; eassumption |].
  rewrite Forall_forall in Hall. apply Hall.
  eapply nth_error_In, Hx.
Qed.

Lemma trace_shape_witness :
  exists trace,
    buildAuthTrace Instances.witness Instances.params = Ret trace /\
    Z.of_nat (length trace) = 16 /\
    forall i, 0 <= i < 16 ->
      exists x,
        get trace i = Some x /\
        applyTransition (S (Z.to_nat i)) Instances.secret = Ret x /\
        canonical x /\
        modulus x = STARK_PRIME.
Proof.
  apply (trace_shape Instances.witness Instances.params).
  - reflexivity.
  - split; vm_compute; discriminate.
Defined.

(** ** What a generated proof contains *)

Lemma mapM_Forall2 {A B : Type} (f : A -> result B) (arr : list A) :
  forall out, mapM f arr = Ret out -> Forall2 (fun x y => f x = Ret y) arr out.
Proof.
  induction arr as [| x arr IH]; intros out E; simpl in E.
  - injection E as <-. constructor.
  - apply bind_Ret in E as (y & Hy & E).
    apply bind_Ret in E as (ys & Hys & E).
    injection E as <-. constructor; [exact Hy | apply IH, Hys].
Qed.

Section GeneratedProofs.
Context {H : Hash256}.

Lemma deriveLoop_exact (seed : list byte) (steps queries : Z) (fuel : nat) :
  forall (indices : list Z) (counter : Z) (l : list Z),
    Z.of_nat (length indices) <= queries ->
    deriveLoop fuel seed steps queries indices counter = Ret l ->
    Z.of_nat (length l) = queries.
Proof.
  induction fuel as [| fuel IH]; intros indices counter l Hlen E;
    cbn [deriveLoop] in E;
    destruct (Z.ltb_spec (Z.of_nat (length indices)) queries) as [Hlt | Hge];
    try discriminate.
  - injection E as <-. lia.
  - apply bind_Ret in E as (indices' & Hpush & E).
    apply IH in E; [exact E |].
    destruct (includes indices (drawIndex seed steps counter));
      cbn [negb] in Hpush.
    + injection Hpush as <-. exact Hlen.
    + unfold push in Hpush.
      destruct (Z.of_nat (length indices) >=? maxLength); [discriminate |].
      injection Hpush as <-. rewrite length_app. simpl. lia.
  - injection E as <-. lia.
Qed.

(** What a returned list of indices is known to be. *)
Lemma deriveQueryIndices_shape (fuel : nat) (seed : list byte)
  (params : AuthParams.t) (l : list Z) :
  deriveQueryIndices fuel seed params = Ret l ->
  Z.of_nat (length l) = AuthParams.queries params /\
  hd_error l = Some (Number.sub (AuthParams.steps params) 2) /\
  (AuthParams.steps params <= 2 ^ 53 ->
   forall x, In x l -> 0 <= x <= AuthParams.steps params - 2).
Proof.
  intros E.
  destruct (deriveQueryIndices_Ret _ _ _ _ E) as (Hs & Hq & _).
  unfold deriveQueryIndices in E.
  destruct (Z.ltb_spec (AuthParams.queries params) 1); [discriminate |].
  destruct (Z.ltb_spec (AuthParams.steps params) 2); [discriminate |].
  destruct (Z.gtb_spec (AuthParams.queries params)
                       (Number.sub (AuthParams.steps params) 1));
    [discriminate |].
  cbn [push length Z.of_nat bind app] in E.
  change (0 >=? maxLength) with false in E. cbn [bind app] in E.
  split.
  - eapply deriveLoop_exact; [| exact E]. simpl. lia.
  - apply (deriveLoop_returns_collected seed _ _ fuel 0) in E
      as (m & _ & -> & _).
    split; [apply collected_hd |]. intros Hexact.
    apply (collected_invariant seed (AuthParams.steps params) m). lia.
Qed.

Lemma getProof_inv (leaves : list (list byte)) (tree : MerkleTree.t)
  (index : Z) (proof : MerkleProof.t) :
  MerkleTree.new leaves = Ret tree ->
  MerkleTree.getProof tree index = Ret proof ->
  0 <= index < Z.of_nat (length leaves) /\
  MerkleProof.leaf proof = nth (Z.to_nat index) leaves [] /\
  MerkleProof.root proof = MerkleTree.root tree /\
  (length (MerkleProof.proof proof) <= Nat.log2_up (length leaves))%nat.
Proof.
  intros Hnew Hget.
  assert (Htree : leaves <> [] /\
                  tree = MerkleTree.mk leaves
                           (leaves :: MerkleTree.buildLayers leaves)
                           (hd [] (last (leaves :: MerkleTree.buildLayers leaves)
                                        []))).
  { unfold MerkleTree.new in Hnew.
    destruct (Nat.eqb_spec (length leaves) 0) as [| Hlen]; [discriminate |].
    split; [intros E; rewrite E in Hlen; contradiction | congruence]. }
  destruct Htree as [Hne ->].
  unfold MerkleTree.getProof in Hget.
  cbn [MerkleTree.leaves MerkleTree.layers MerkleTree.root] in *.
  destruct (Z.ltb_spec index 0); [discriminate |].
  destruct (Z.geb_spec index (Z.of_nat (length leaves))); [discriminate |].
  cbn [orb] in Hget. injection Hget as <-.
  cbn [MerkleProof.leaf MerkleProof.root MerkleProof.proof].
  repeat split; try lia.
  rewrite <- (buildLayers_depth (length leaves) leaves (le_n _) Hne).
  apply proofLoop_length.
Qed.

(** The parts a returned proof is made of. *)
Lemma generateAuthProof_inv (fuel : nat) (statement : Statement.t)
  (witness : Witness.t) (params : AuthParams.t) (proof : Proof.t) :
  generateAuthProof fuel statement witness params = Ret proof ->
  exists trace tree indices openings,
    buildAuthTrace witness params = Ret trace /\
    get trace (AuthParams.steps params - 1)
    = Some (Statement.finalHash statement) /\
    MerkleTree.new (map fieldElementToBytes trace) = Ret tree /\
    deriveQueryIndices fuel
      (computeChallengeSeed (MerkleTree.root tree) statement) params
    = Ret indices /\
    Forall2 (fun index o => openAt trace tree index = Ret o) indices openings /\
    proof = Proof.mk (Some (MerkleTree.root tree)) (Some indices)
                     (Some openings).
Proof.
  unfold generateAuthProof. intros E.
  destruct (AuthParams.queries params <? 1); [discriminate |].
  destruct (AuthParams.queries params
            >? Number.sub (AuthParams.steps params) 1);
    [discriminate |].
  apply bind_Ret in E as (trace & Htrace & E).
  apply bind_Ret in E as (final & Hfinal & E).
  destruct (equals final (Statement.finalHash statement)) eqn:Eeq;
    cbn [negb] in E; [| discriminate].
  apply equals_eq in Eeq. subst final.
  apply bind_Ret in E as (tree & Htree & E).
  apply bind_Ret in E as (indices & Hind & E).
  apply bind_Ret in E as (openings & Hopen & E).
  injection E as <-.
  exists trace, tree, indices, openings.
  destruct (buildAuthTrace_spec _ _ _ Htrace) as (Hsteps & _ & _).
  unfold maxLength in Hsteps.
  rewrite (sub_exact (AuthParams.steps params) 1) in Hfinal by lia.
  repeat split; try assumption.
  - destruct (get trace (AuthParams.steps params - 1)); [| discriminate].
    cbn [prop] in Hfinal. congruence.
  - apply mapM_Forall2, Hopen.
Qed.

Lemma generated_opening (statement : Statement.t) (trace : list FieldElement)
  (tree : MerkleTree.t) (index : Z) (o : dyn AuthOpening.t)
  (witness : Witness.t) (params : AuthParams.t) :
  buildAuthTrace witness params = Ret trace ->
  MerkleTree.new (map fieldElementToBytes trace) = Ret tree ->
  openAt trace tree index = Ret o ->
  exists cur nxt pc pn,
    o = Some (AuthOpening.mk (Some index) (Some cur) (Some nxt)
                             (Some pc) (Some pn)) /\
    MerkleProof.leaf pc = fieldElementToBytes cur /\
    MerkleProof.leaf pn = fieldElementToBytes nxt /\
    MerkleProof.root pc = MerkleTree.root tree /\
    MerkleProof.root pn = MerkleTree.root tree /\
    authHash cur = Ret nxt /\
    (length (MerkleProof.proof pc)
     <= Nat.log2_up (Z.to_nat (AuthParams.steps params)))%nat /\
    (length (MerkleProof.proof pn)
     <= Nat.log2_up (Z.to_nat (AuthParams.steps params)))%nat /\
    get trace index = Some cur /\
    get trace (index + 1) = Some nxt /\
    MerkleProof.verify pc = true /\
    MerkleProof.verify pn = true /\
    MerkleTree.root tree = traceRoot trace.
Proof.
  intros Htrace Htree Hopen.
  assert (Hverify :
            MerkleTree.root tree = traceRoot trace /\
            forall i p, MerkleTree.getProof tree i = Ret p ->
                        MerkleProof.verify p = true).
  { destruct (tree_proofs (map fieldElementToBytes trace))
      as (tree' & Hnew & _ & Hroot & Hproofs).
    { intros E. rewrite E in Htree. discriminate. }
    assert (tree' = tree) by congruence. subst tree'.
    split; [exact Hroot |]. intros i p Hp.
    destruct (getProof_inv _ _ _ _ Htree Hp) as (Hi & _).
    destruct (Hproofs i Hi) as (p' & Hp' & _ & Hv). congruence. }
  destruct Hverify as [Hroot Hverify].
  destruct (buildAuthTrace_spec _ _ _ Htrace) as (Hsteps & Hlen & Hstep).
  unfold maxLength in Hsteps.
  unfold openAt in Hopen.
  apply bind_Ret in Hopen as (pc & Hpc & Hopen).
  apply bind_Ret in Hopen as (pn & Hpn & Hopen).
  injection Hopen as <-.
  destruct (getProof_inv _ _ _ _ Htree Hpc) as (Hic & Hlc & Hrc & Hdc).
  rewrite length_map in Hic.
  rewrite (add_exact index 1) in * by lia.
  destruct (getProof_inv _ _ _ _ Htree Hpn) as (Hin & Hln & Hrn & Hdn).
  rewrite length_map in *.
  destruct (get_in_range trace index ltac:(lia)) as (cur & Hcur).
  destruct (get_in_range trace (index + 1) ltac:(lia)) as (nxt & Hnxt).
  exists cur, nxt, pc, pn. rewrite Hcur, Hnxt.
  assert (Hnth : forall i x, get trace i = Some x ->
                   nth (Z.to_nat i) (map fieldElementToBytes trace) []
                   = fieldElementToBytes x).
  { intros i x Hx. apply get_nth_error in Hx as [_ Hx].
    apply nth_error_nth. rewrite nth_error_map, Hx. reflexivity. }
  replace (Z.to_nat (AuthParams.steps params)) with (length trace) by lia.
  repeat split; try assumption; try reflexivity.
  - rewrite Hlc. apply Hnth, Hcur.
  - rewrite Hln. apply Hnth, Hnxt.
  - eapply Hstep; eassumption.
  - eapply Hverify; eassumption.
  - eapply Hverify; eassumption.
Qed.

Lemma generated_root_length (witness : Witness.t) (params : AuthParams.t)
  (trace : list FieldElement) (tree : MerkleTree.t) :
  buildAuthTrace witness params = Ret trace ->
  MerkleTree.new (map fieldElementToBytes trace) = Ret tree ->
  length (MerkleTree.root tree) = 32%nat.
Proof.
  intros Htrace Htree.
  destruct (buildAuthTrace_spec _ _ _ Htrace) as (Hs & Hlen & _).
  assert (Hshape : map fieldElementToBytes trace <> [] /\
            tree = MerkleTree.mk (map fieldElementToBytes trace)
                     (map fieldElementToBytes trace
                        :: MerkleTree.buildLayers
                             (map fieldElementToBytes trace))
                     (hd [] (last (map fieldElementToBytes trace
                                     :: MerkleTree.buildLayers
                                          (map fieldElementToBytes trace))
                                  []))).
  { unfold MerkleTree.new in Htree.
    destruct (Nat.eqb_spec (length (map fieldElementToBytes trace)) 0)
      as [| Hl]; [discriminate |].
    split; [intros E; rewrite E in Hl; contradiction | congruence]. }
  destruct Hshape as [Hne ->].
  destruct (last_layer_single _ (map fieldElementToBytes trace) (le_n _) Hne)
    as (r & Hlast & _ & Htwo).
  unfold MerkleTree.root. rewrite Hlast. cbn [hd].
  apply Htwo. rewrite length_map. lia.
Qed.

Lemma sizeLoop_bound (depth : Z) (openings : list (dyn AuthOpening.t)) :
  forall size,
    0 <= size -> 0 <= depth ->
    size + (64 + 66 * depth) * Z.of_nat (length openings) <= 2 ^ 53 ->
    Forall (fun o => exists opening pc pn,
                o = Some opening /\
                AuthOpening.proofCurrent opening = Some pc /\
                AuthOpening.proofNext opening = Some pn /\
                serializedMerkleProofSize pc <= 33 * depth /\
                serializedMerkleProofSize pn <= 33 * depth) openings ->
    exists total,
      sizeLoop openings size = Ret total /\
      size + 64 * Z.of_nat (length openings) <= total
      <= size + (64 + 66 * depth) * Z.of_nat (length openings).
Proof.
  induction openings as [| o openings IH]; intros size Hsize Hdepth Hfit Hall.
  - exists size. split; [reflexivity | simpl; lia].
  - inversion Hall as [| ? ? (opening & pc & pn & -> & Hpc & Hpn & Bc & Bn)
                         Htail]; subst.
    cbn [sizeLoop prop bind]. rewrite Hpc, Hpn. cbn [prop bind].
    assert (0 <= serializedMerkleProofSize pc /\
            0 <= serializedMerkleProofSize pn)
      by (unfold serializedMerkleProofSize; lia).
    cbn [length] in Hfit. rewrite Nat2Z.inj_succ in Hfit.
    assert (0 <= (64 + 66 * depth) * Z.of_nat (length openings)) by nia.
    rewrite (add_exact size 64) by lia.
    rewrite (add_exact (size + 64)) by lia.
    rewrite (add_exact (size + 64 + serializedMerkleProofSize pc)) by lia.
    destruct (IH (size + 64 + serializedMerkleProofSize pc
                  + serializedMerkleProofSize pn))
      as (total & -> & Hlo & Hhi); [lia | exact Hdepth | nia | exact Htail |].
    exists total. split; [reflexivity |].
    cbn [length]. rewrite Nat2Z.inj_succ. nia.
Qed.

End GeneratedProofs.

(** X21: an honest proof binds what it opens: a proof returned by
    [generateAuthProof] has as root the 32-byte Merkle root of the trace
    built from the witness, [queries] indices, and for the [i]-th index
    an opening that carries that index, the entries of the trace at the
    index and after it, linked by the transition, and two Merkle proofs
    that verify under the root with the encodings of those two entries
    as leaves. *)
Theorem honest_proof {H : Hash256} (fuel : nat) (statement : Statement.t)
  (witness : Witness.t) (params : AuthParams.t) (proof : Proof.t) :
  generateAuthProof fuel statement witness params = Ret proof ->
  exists trace root indices openings,
    buildAuthTrace witness params = Ret trace /\
    proof = Proof.mk (Some root) (Some indices) (Some openings) /\
    root = traceRoot trace /\
    length root = 32%nat /\
    Z.of_nat (length indices) = AuthParams.queries params /\
    Forall2 (honestOpening trace root) indices openings.
Proof.
  intros Hgen.
  destruct (generateAuthProof_inv _ _ _ _ _ Hgen)
    as (trace & tree & indices & openings & Htrace & _ & Htree & Hind & Hopen
        & ->).
  exists trace, (MerkleTree.root tree), indices, openings.
  split; [exact Htrace |].
  split; [reflexivity |].
  assert (Hroot : MerkleTree.root tree = traceRoot trace).
  { destruct (tree_proofs (map fieldElementToBytes trace))
      as (tree' & Hnew & _ & Hroot & _).
    { intros E. rewrite E in Htree. discriminate. }
    assert (tree' = tree) by congruence. subst tree'. exact Hroot. }
  split; [exact Hroot |].
  split; [eapply generated_root_length; eassumption |].
  split; [apply (deriveQueryIndices_shape _ _ _ _ Hind) |].
  clear Hind Hgen.
  induction Hopen as [| index o indices openings Ho _ IH]; [constructor |].
  constructor; [| exact IH].
  destruct (generated_opening statement _ _ _ _ _ _ Htrace Htree Ho)
    as (cur & nxt & pc & pn & -> & Hlc & Hln & Hrc & Hrn & Hstep & _ & _
        & Hcur & Hnxt & Hvc & Hvn & _).
  exists cur, nxt, pc, pn. repeat split; assumption.
Qed.

Lemma honest_proof_witness :
  exists trace root indices openings,
    buildAuthTrace Instances.witness Instances.params = Ret trace /\
    Instances.acceptedProof
    = Proof.mk (Some root) (Some indices) (Some openings) /\
    root = traceRoot (H := Sha256.instance) trace /\
    length root = 32%nat /\
    Z.of_nat (length indices) = AuthParams.queries Instances.params /\
    Forall2 (honestOpening (H := Sha256.instance) trace root)
            indices openings.
Proof.
  apply (honest_proof (H := Sha256.instance) 8 Instances.statement
                      Instances.witness Instances.params
                      Instances.acceptedProof).
  vm_compute. reflexivity.
Defined.

(** X22: [getProofSize] returns on every generated proof, and what it returns
    is at most [32 + queries * (4 + 64 + 66 * ceil(log2 steps))]. *)
Theorem proof_size_bound {H : Hash256} (fuel : nat) (statement : Statement.t)
  (witness : Witness.t) (params : AuthParams.t) (proof : Proof.t) :
  generateAuthProof fuel statement witness params = Ret proof ->
  exists size,
    getProofSize proof = Ret size /\
    32 + 68 * AuthParams.queries params <= size
    <= 32 + AuthParams.queries params
            * (68 + 66 * Z.of_nat (Nat.log2_up
                                     (Z.to_nat (AuthParams.steps params)))).
Proof.
  intros Hgen.
  destruct (generateAuthProof_inv _ _ _ _ _ Hgen)
    as (trace & tree & indices & openings & Htrace & _ & Htree & Hind & Hopen
        & ->).
  pose proof (generated_root_length _ _ _ _ Htrace Htree) as Hroot.
  destruct (deriveQueryIndices_shape _ _ _ _ Hind) as (Hq & _ & _).
  pose proof (Forall2_length Hopen) as Hlen.
  set (depth := Z.of_nat (Nat.log2_up (Z.to_nat (AuthParams.steps params)))).
  destruct (deriveQueryIndices_Ret _ _ _ _ Hind) as (_ & _ & _ & Hmany).
  destruct (buildAuthTrace_spec _ _ _ Htrace) as (Hsteps & _ & _).
  unfold maxLength in Hmany, Hsteps.
  assert (Hdepth : 0 <= depth <= 32).
  { unfold depth. split; [lia |].
    apply (Nat2Z.inj_le _ 32). apply Nat.log2_up_le_pow2; [lia |].
    apply Nat2Z.inj_le. rewrite Nat2Z.inj_pow.
    change (Z.of_nat 2 ^ Z.of_nat 32) with (2 ^ 32). lia. }
  destruct (sizeLoop_bound depth openings
              (Z.of_nat (length (MerkleTree.root tree))
               + Z.of_nat (length indices) * 4))
    as (total & Hrun & Hlo & Hhi).
  { lia. }
  { lia. }
  { rewrite Hroot, <- Hlen. nia. }
  { clear Hind Hq Hlen Hgen Hmany.
    induction Hopen as [| index o indices openings Ho _ IH]; [constructor |].
    constructor; [| exact IH].
    destruct (generated_opening statement _ _ _ _ _ _ Htrace Htree Ho)
      as (cur & nxt & pc & pn & -> & _ & _ & _ & _ & _ & Hdc & Hdn & _).
    eexists _, pc, pn. split; [reflexivity |].
    split; [reflexivity |]. split; [reflexivity |].
    unfold serializedMerkleProofSize, depth. lia. }
  exists total. unfold getProofSize.
  cbn [Proof.root Proof.indices Proof.openings prop bind].
  rewrite (add_exact 0) by (rewrite Hroot; lia).
  rewrite (add_exact (0 + _)) by (rewrite Hroot; lia).
  rewrite Z.add_0_l.
  split; [exact Hrun |].
  rewrite Hroot in Hlo, Hhi. rewrite <- Hlen, Hq in Hlo, Hhi. lia.
Qed.

Lemma proof_size_bound_witness :
  exists size,
    getProofSize Instances.acceptedProof = Ret size /\
    32 + 68 * AuthParams.queries Instances.params <= size
    <= 32 + AuthParams.queries Instances.params
            * (68 + 66 * Z.of_nat (Nat.log2_up
                          (Z.to_nat (AuthParams.steps Instances.params)))).
Proof.
  apply (proof_size_bound (H := Sha256.instance) 8 Instances.statement
                          Instances.witness Instances.params
                          Instances.acceptedProof).
  vm_compute. reflexivity.
Defined.

(** ** What acceptance means *)

Section Acceptance.
Context {H : Hash256}.

(** The loop accepts only acceptable pairs, and only if the final
    transition was among them (or already seen). *)
Lemma verifyLoop_true_inv (statement : Statement.t) (steps : Z)
  (root : list byte) (pairs : list (Z * dyn AuthOpening.t)) :
  forall flag,
    verifyLoop statement steps root pairs flag = Ret true ->
    Forall (acceptable statement steps root) pairs /\
    flag || existsb (fun p => fst p =? Number.sub steps 2) pairs = true.
Proof.
  induction pairs as [| [index o] pairs IH]; intros flag E.
  - simpl in E. injection E as ->. split; [constructor | reflexivity].
  - cbn [verifyLoop] in E.
    destruct o as [opening |]; cbn [prop bind] in E; [| discriminate].
    destruct (AuthOpening.index opening) as [i |] eqn:Ei; cbn [negb] in E;
      [| discriminate].
    destruct (Z.eqb_spec i index) as [-> | _]; cbn [negb] in E;
      [| discriminate].
    destruct (Z.ltb_spec index 0); cbn [orb] in E; [discriminate |].
    destruct (Z.geb_spec index (Number.sub steps 1)); [discriminate |].
    destruct (AuthOpening.proofCurrent opening) as [pc |] eqn:Epc;
      cbn [prop bind] in E; [| discriminate].
    destruct (arraysEqual (MerkleProof.root pc) root) eqn:Erc;
      cbn [negb] in E; [| discriminate].
    destruct (AuthOpening.proofNext opening) as [pn |] eqn:Epn;
      cbn [prop bind] in E; [| discriminate].
    destruct (arraysEqual (MerkleProof.root pn) root) eqn:Ern;
      cbn [negb] in E; [| discriminate].
    destruct (MerkleProof.verify pc) eqn:Evc; cbn [negb] in E;
      [| discriminate].
    destruct (MerkleProof.verify pn) eqn:Evn; cbn [negb] in E;
      [| discriminate].
    destruct (AuthOpening.current opening) as [cur |] eqn:Ecur;
      cbn [prop bind] in E; [| discriminate].
    destruct (authHash cur) as [expectedNext | err |] eqn:Eh; cbn [bind] in E;
      try discriminate.
    destruct (AuthOpening.next opening) as [nxt |] eqn:Enxt;
      cbn [prop bind] in E; [| discriminate].
    destruct (equals expectedNext nxt) eqn:Eeq; cbn [negb] in E;
      [| discriminate].
    apply equals_eq in Eeq. subst expectedNext.
    apply arraysEqual_eq in Erc, Ern.
    assert (Hshape : Some opening
                     = Some (AuthOpening.mk (Some index) (Some cur) (Some nxt)
                                            (Some pc) (Some pn))).
    { destruct opening. cbn in *. congruence. }
    cbn [existsb fst].
    destruct (Z.eqb_spec index (Number.sub steps 2)) as [Hlast | Hother].
    + destruct (equals nxt (Statement.finalHash statement)) eqn:Efin;
        cbn [negb] in E; [| discriminate].
      apply equals_eq in Efin.
      apply IH in E as [Hall _].
      split; [| apply orb_true_r].
      constructor; [| exact Hall].
      exists cur, nxt, pc, pn. cbn [fst snd].
      repeat split; try assumption; try lia. intros _. exact Efin.
    + apply IH in E as [Hall Hflag].
      split; [| exact Hflag].
      constructor; [| exact Hall].
      exists cur, nxt, pc, pn. cbn [fst snd].
      repeat split; try assumption; lia.
Qed.


Lemma accepted_iff (fuel : nat) (statement : Statement.t)
  (params : AuthParams.t) (proof : Proof.t) :
  verify fuel statement params proof = Ret true <->
  exists root indices openings,
    proof = Proof.mk (Some root) (Some indices) (Some openings) /\
    length openings = length indices /\
    deriveQueryIndices fuel (computeChallengeSeed root statement) params
    = Ret indices /\
    Forall (acceptable statement (AuthParams.steps params) root)
           (combine indices openings).
Proof.
  split.
  - intros Hacc.
    destruct (verify_true_inv _ _ _ _ Hacc)
      as (indices & openings & root & Hi & Ho & Hr & _ & _ & Hli & Hlo
          & Hderive & Hloop).
    exists root, indices, openings.
    split; [destruct proof; cbn in *; congruence |].
    split; [lia |]. split; [exact Hderive |].
    apply (verifyLoop_true_inv _ _ _ _ _ Hloop).
  - intros (root & indices & openings & -> & Hlen & Hderive & Hall).
    destruct (deriveQueryIndices_Ret _ _ _ _ Hderive) as (Hs & Hq & _).
    destruct (deriveQueryIndices_shape _ _ _ _ Hderive) as (Hcount & Hhd & _).
    unfold verify, verifyBody.
    cbn [Proof.indices Proof.openings Proof.root prop bind].
    destruct (Z.ltb_spec (AuthParams.steps params) 2); [lia |].
    destruct (Z.ltb_spec (AuthParams.queries params) 1); [lia |]. cbn [orb].
    rewrite Hlen, Hcount, Z.eqb_refl. cbn [negb].
    rewrite Hderive. cbn [bind]. rewrite arrayEqualNumbers_refl. cbn [negb].
    rewrite (verifyLoop_acceptable statement _ root) by exact Hall.
    destruct indices as [| i0 indices]; [discriminate |].
    destruct openings as [| o openings]; [discriminate |].
    injection Hhd as ->. cbn [combine existsb fst].
    rewrite Z.eqb_refl. reflexivity.
Qed.

End Acceptance.

(** X23: acceptance, exactly: [verify] returns [true] if and only if the
    proof has a root, indices and as many openings, the indices are the
    ones derived from the root and the statement, and every opening
    carries its index (at least 0 and below [steps - 1]), two Merkle
    proofs that verify under the proof's root, and two values linked by
    the transition, the second being [statement.finalHash] at index
    [steps - 2]; [steps - 1] and [steps - 2] are the differences as the
    code computes them, in double precision. *)
Theorem acceptance_characterised {H : Hash256} (fuel : nat)
  (statement : Statement.t) (params : AuthParams.t) (proof : Proof.t) :
  verify fuel statement params proof = Ret true <->
  exists root indices openings,
    proof = Proof.mk (Some root) (Some indices) (Some openings) /\
    length openings = length indices /\
    deriveQueryIndices fuel (computeChallengeSeed root statement) params
    = Ret indices /\
    Forall (acceptable statement (AuthParams.steps params) root)
           (combine indices openings).
Proof. apply accepted_iff. Qed.

(** X24: index tamper: an accepted proof whose list of indices is replaced by
    any other list is rejected, on the same fuel. *)
Theorem index_tamper_rejected {H : Hash256} (fuel : nat)
  (statement : Statement.t) (params : AuthParams.t) (proof : Proof.t)
  (indices' : list Z) :
  verify fuel statement params proof = Ret true ->
  Proof.indices proof <> Some indices' ->
  verify fuel statement params (withIndices proof indices') = Ret false.
Proof.
  intros Hacc Hne.
  destruct (verify_true_inv _ _ _ _ Hacc)
    as (indices & openings & root & Hi & Ho & Hr & Hs & Hq & Hli & Hlo
        & Hderive & _).
  unfold verify, verifyBody, withIndices.
  cbn [Proof.indices Proof.openings Proof.root prop bind].
  destruct (Z.ltb_spec (AuthParams.steps params) 2); [lia |].
  destruct (Z.ltb_spec (AuthParams.queries params) 1); [lia |]. cbn [orb].
  destruct (Z.of_nat (length indices') =? AuthParams.queries params);
    cbn [negb]; [| reflexivity].
  rewrite Ho. cbn [prop bind]. rewrite Hlo, Z.eqb_refl. cbn [negb].
  rewrite Hr. cbn [prop bind]. rewrite Hderive. cbn [bind].
  destruct (arrayEqualNumbers indices indices') eqn:E; [| reflexivity].
  apply arrayEqualNumbers_eq in E. congruence.
Qed.

Lemma index_tamper_rejected_witness :
  verify (H := Sha256.instance) 8 Instances.statement Instances.params
         (withIndices Instances.acceptedProof [14; 10; 1; 2; 13])
  = Ret false.
Proof.
  apply (index_tamper_rejected (H := Sha256.instance) 8 Instances.statement
           Instances.params Instances.acceptedProof [14; 10; 1; 2; 13]).
  - vm_compute. reflexivity.
  - vm_compute. discriminate.
Defined.



(** ** Polynomials *)

(** *** Congruence modulo the field characteristic *)

Lemma congruent_eq (m a b : Z) : congruent m a b -> a mod m = b mod m.
Proof. intros [E]. exact E. Qed.

#[local] Instance congruent_equivalence (m : Z) : Equivalence (congruent m).
Proof.
  split.
  - intros x. constructor. reflexivity.
  - intros x y [E]. constructor. congruence.
  - intros x y z [E1] [E2]. constructor. congruence.
Qed.

#[local] Instance congruent_add (m : Z) :
  Proper (congruent m ==> congruent m ==> congruent m) Z.add.
Proof.
  intros a a' [Ha] b b' [Hb]. constructor.
  rewrite <- (Zplus_mod_idemp_l a), <- (Zplus_mod_idemp_r b), Ha, Hb.
  rewrite Zplus_mod_idemp_l, Zplus_mod_idemp_r. reflexivity.
Qed.

#[local] Instance congruent_mul (m : Z) :
  Proper (congruent m ==> congruent m ==> congruent m) Z.mul.
Proof.
  intros a a' [Ha] b b' [Hb]. constructor.
  rewrite <- (Zmult_mod_idemp_l a), <- (Zmult_mod_idemp_r b), Ha, Hb.
  rewrite Zmult_mod_idemp_l, Zmult_mod_idemp_r. reflexivity.
Qed.

#[local] Instance congruent_sub (m : Z) :
  Proper (congruent m ==> congruent m ==> congruent m) Z.sub.
Proof.
  intros a a' [Ha] b b' [Hb]. constructor.
  rewrite <- (Zminus_mod_idemp_l a), <- (Zminus_mod_idemp_r _ b), Ha, Hb.
  rewrite Zminus_mod_idemp_l, Zminus_mod_idemp_r. reflexivity.
Qed.

#[local] Instance congruent_opp (m : Z) :
  Proper (congruent m ==> congruent m) Z.opp.
Proof.
  intros a a' Ha. change (congruent m (0 - a) (0 - a')).
  rewrite Ha. reflexivity.
Qed.

Lemma congruent_mod (m a : Z) : congruent m (a mod m) a.
Proof. constructor. apply Zmod_mod. Qed.

Ltac conjs := repeat match goal with |- _ /\ _ => split end.

Ltac mod_ring :=
  try apply congruent_eq; rewrite ?congruent_mod;
  constructor; f_equal; ring.

(** *** The field operations under a positive modulus *)

Lemma add_pos (a b : FieldElement) (m : Z) :
  0 < m -> modulus a = m -> modulus b = m ->
  add a b = Ret (mkFE ((value a + value b) mod m) m).
Proof.
  intros Hm Ha Hb. unfold add, ensureSameField.
  rewrite Ha, Hb, Z.eqb_refl. cbn [negb bind]. apply new_pos, Hm.
Qed.

Lemma sub_pos (a b : FieldElement) (m : Z) :
  0 < m -> modulus a = m -> modulus b = m ->
  sub a b = Ret (mkFE ((value a - value b) mod m) m).
Proof.
  intros Hm Ha Hb. unfold sub, ensureSameField.
  rewrite Ha, Hb, Z.eqb_refl. cbn [negb bind]. apply new_pos, Hm.
Qed.

Lemma mul_pos (a b : FieldElement) (m : Z) :
  0 < m -> modulus a = m -> modulus b = m ->
  mul a b = Ret (mkFE ((value a * value b) mod m) m).
Proof.
  intros Hm Ha Hb. unfold mul, ensureSameField.
  rewrite Ha, Hb, Z.eqb_refl. cbn [negb bind]. apply new_pos, Hm.
Qed.

Lemma zero_pos (m : Z) : 0 < m -> Field.zero m = Ret (mkFE 0 m).
Proof.
  intros Hm. unfold Field.zero. rewrite new_pos by exact Hm.
  rewrite Z.mod_0_l by lia. reflexivity.
Qed.

(** *** The value of a coefficient list *)

Lemma polyValue_app (l1 l2 : list Z) (x : Z) :
  polyValue (l1 ++ l2) x
  = polyValue l1 x + x ^ Z.of_nat (length l1) * polyValue l2 x.
Proof.
  induction l1 as [| c l1 IH]; cbn [app polyValue length].
  - change (Z.of_nat 0) with 0. rewrite Z.pow_0_r. ring.
  - rewrite IH, Nat2Z.inj_succ, Z.pow_succ_r by lia. ring.
Qed.

Lemma polyValue_zeros (l : list FieldElement) (x : Z) :
  Forall (fun c => isZero c = true) l -> polyValue (map value l) x = 0.
Proof.
  induction 1 as [| c l Hc _ IH]; cbn [map polyValue]; [reflexivity |].
  unfold isZero in Hc. apply Z.eqb_eq in Hc. rewrite Hc, IH. ring.
Qed.

(** *** The constructor *)

Lemma trimLoop_le (cs : list FieldElement) (i : nat) :
  (Polynomial.trimLoop cs i <= i)%nat.
Proof.
  induction i as [| i IH]; cbn [Polynomial.trimLoop]; [lia |].
  destruct (nth_error cs (S i)) as [c |]; [| lia].
  destruct (isZero c); lia.
Qed.

Lemma trimLoop_zeros (cs : list FieldElement) (i j : nat) (c : FieldElement) :
  (Polynomial.trimLoop cs i < j <= i)%nat ->
  nth_error cs j = Some c -> isZero c = true.
Proof.
  induction i as [| i IH]; cbn [Polynomial.trimLoop]; [lia |].
  destruct (nth_error cs (S i)) as [d |] eqn:E; [| lia].
  destruct (isZero d) eqn:Hd; [| lia].
  intros Hj Hc. destruct (Nat.eq_dec j (S i)) as [-> | Hne].
  - congruence.
  - apply IH; [lia | exact Hc].
Qed.

Lemma trimLoop_top (cs : list FieldElement) (i : nat) :
  (i < length cs)%nat ->
  Polynomial.trimLoop cs i = 0%nat \/
  exists c, nth_error cs (Polynomial.trimLoop cs i) = Some c /\
            isZero c = false.
Proof.
  induction i as [| i IH]; cbn [Polynomial.trimLoop]; [left; reflexivity |].
  intros Hi. destruct (nth_error cs (S i)) as [d |] eqn:E.
  - destruct (isZero d) eqn:Hd; [apply IH; lia |].
    right. exists d. split; assumption.
  - apply nth_error_None in E. lia.
Qed.

Lemma trimLeadingZeros_spec (cs : list FieldElement) :
  cs <> [] ->
  exists zeros,
    cs = Polynomial.trimLeadingZeros cs ++ zeros /\
    Forall (fun c => isZero c = true) zeros /\
    Polynomial.trimLeadingZeros cs <> [] /\
    (length (Polynomial.trimLeadingZeros cs) = 1%nat \/
     exists c,
       nth_error (Polynomial.trimLeadingZeros cs)
                 (length (Polynomial.trimLeadingZeros cs) - 1) = Some c /\
       isZero c = false).
Proof.
  intros Hne. unfold Polynomial.trimLeadingZeros.
  assert (Hlen : (0 < length cs)%nat) by (destruct cs; [contradiction | cbn; lia]).
  pose proof (trimLoop_le cs (length cs - 1)) as Hk.
  pose proof (trimLoop_zeros cs (length cs - 1)) as Hzeros.
  pose proof (trimLoop_top cs (length cs - 1) ltac:(lia)) as Htop.
  remember (Polynomial.trimLoop cs (length cs - 1)) as k eqn:Ek. clear Ek.
  assert (Hfl : length (firstn (k + 1) cs) = (k + 1)%nat)
    by (apply firstn_length_le; lia).
  exists (skipn (k + 1) cs). repeat split.
  - symmetry. apply firstn_skipn.
  - apply Forall_forall. intros c Hc.
    apply In_nth_error in Hc. destruct Hc as [j Hj].
    rewrite nth_error_skipn in Hj.
    assert (k + 1 + j < length cs)%nat
      by (apply nth_error_Some; congruence).
    apply (Hzeros (k + 1 + j)%nat); [lia | exact Hj].
  - intros E. rewrite E in Hfl. cbn in Hfl. lia.
  - rewrite Hfl.
    destruct Htop as [H0 | [c [Hc Hz]]].
    + left. lia.
    + right. exists c. split; [| exact Hz].
      rewrite nth_error_firstn.
      replace (k + 1 - 1)%nat with k by lia.
      destruct (Nat.ltb_spec k (k + 1)); [exact Hc | lia].
Qed.

Lemma polynomial_new (cs : list FieldElement) (m : Z) :
  cs <> [] -> Forall (fun c => modulus c = m) cs ->
  exists p,
    Polynomial.new cs = Ret p /\ overField m p /\ trimmed p /\
    (length (Polynomial.coefficients p) <= length cs)%nat /\
    forall x, valueAt p x = polyValue (map value cs) x.
Proof.
  intros Hne Hall.
  destruct (trimLeadingZeros_spec cs Hne) as [zeros [Hsplit [Hz [Hne' Htop]]]].
  exists (Polynomial.mk (Polynomial.trimLeadingZeros cs) m).
  assert (Hfa : Forall (fun c => modulus c = m) (Polynomial.trimLeadingZeros cs)).
  { rewrite Hsplit in Hall. apply Forall_app in Hall. apply Hall. }
  repeat split.
  - unfold Polynomial.new. destruct cs as [| c0 cs']; [contradiction |].
    assert (Hm0 : modulus c0 = m) by (inversion Hall; assumption).
    rewrite Hm0.
    replace (forallb (fun coef => modulus coef =? m) (c0 :: cs')) with true;
      [reflexivity |].
    symmetry. apply forallb_forall. intros c Hc.
    rewrite Forall_forall in Hall. apply Z.eqb_eq, Hall, Hc.
  - exact Hne'.
  - exact Hfa.
  - unfold trimmed, Polynomial.leadingCoefficient, get.
    cbn [Polynomial.coefficients].
    destruct Htop as [H1 | [c [Hc Hzc]]]; [left; exact H1 |].
    right. exists c. split; [| exact Hzc].
    assert (0 < length (Polynomial.trimLeadingZeros cs))%nat
      by (destruct (Polynomial.trimLeadingZeros cs); [contradiction | cbn; lia]).
    destruct (Z.ltb_spec (Z.of_nat (length (Polynomial.trimLeadingZeros cs)) - 1) 0);
      [lia |].
    replace (Z.to_nat (Z.of_nat (length (Polynomial.trimLeadingZeros cs)) - 1))
      with (length (Polynomial.trimLeadingZeros cs) - 1)%nat by lia.
    exact Hc.
  - cbn [Polynomial.coefficients].
    rewrite Hsplit at 2. rewrite length_app. lia.
  - intros x. unfold valueAt. cbn [Polynomial.coefficients].
    rewrite Hsplit at 2. rewrite map_app, polyValue_app.
    rewrite (polyValue_zeros zeros x Hz). ring.
Qed.

(** *** Evaluation *)

Lemma evaluateLoop_value (m xv : Z) (cs : list FieldElement) :
  0 < m -> Forall (fun c => modulus c = m) cs ->
  forall r xp,
    0 <= r < m ->
    Polynomial.evaluateLoop cs (mkFE xv m) (mkFE r m) (mkFE xp m)
    = Ret (mkFE ((r + xp * polyValue (map value cs) xv) mod m) m).
Proof.
  intros Hm Hall. induction Hall as [| c cs Hc _ IH]; intros r xp Hr.
  - cbn [Polynomial.evaluateLoop map polyValue].
    replace (r + xp * 0) with r by ring.
    rewrite Z.mod_small by exact Hr. reflexivity.
  - cbn [Polynomial.evaluateLoop map polyValue].
    rewrite (mul_pos c (mkFE xp m) m Hm Hc eq_refl). cbn [bind value].
    rewrite (add_pos (mkFE r m) (mkFE ((value c * xp) mod m) m) m Hm eq_refl eq_refl).
    cbn [bind value].
    rewrite (mul_pos (mkFE xp m) (mkFE xv m) m Hm eq_refl eq_refl).
    cbn [bind value].
    rewrite IH by (apply Z.mod_pos_bound; exact Hm).
    do 2 f_equal. mod_ring.
Qed.

Lemma evaluate_value (m : Z) (p : Polynomial.t) (x : FieldElement) :
  0 < m -> overField m p -> modulus x = m ->
  Polynomial.evaluate p x = Ret (mkFE (valueAt p (value x) mod m) m).
Proof.
  intros Hm [Hpm [_ Hall]] Hx. destruct x as [xv xm].
  cbn [modulus value] in *. subst xm.
  unfold Polynomial.evaluate. cbn [modulus]. rewrite Hpm, Z.eqb_refl.
  cbn [negb]. rewrite zero_pos by exact Hm. unfold Field.one.
  rewrite new_pos by exact Hm. cbn [bind].
  rewrite (evaluateLoop_value m xv _ Hm Hall) by lia.
  do 2 f_equal. unfold valueAt. mod_ring.
Qed.

(** *** Sum and difference *)

Lemma skipn_cons_nth {A : Type} (l : list A) (s : nat) (a : A) :
  nth_error l s = Some a -> skipn s l = a :: skipn (S s) l.
Proof.
  revert s. induction l as [| b l IH]; intros [| s] E; cbn in *;
    try discriminate.
  - congruence.
  - apply IH, E.
Qed.

Lemma skipn_beyond {A : Type} (l : list A) (s : nat) :
  nth_error l s = None -> skipn s l = [] /\ skipn (S s) l = [].
Proof.
  intros E. apply nth_error_None in E.
  split; apply skipn_all2; lia.
Qed.

Section Combine.

Variable m : Z.
Hypothesis m_pos : 0 < m.
Variable op : FieldElement -> FieldElement -> result FieldElement.
Variable sign : Z.
Hypothesis op_value : forall a b,
  modulus a = m -> modulus b = m ->
  op a b = Ret (mkFE ((value a + sign * value b) mod m) m).

Lemma coefficientOrZero_value (cs : list FieldElement) (s : nat) :
  Forall (fun c => modulus c = m) cs ->
  exists a,
    Polynomial.coefficientOrZero cs m s = Ret a /\ modulus a = m /\
    forall x,
      polyValue (map value (skipn s cs)) x
      = value a + x * polyValue (map value (skipn (S s) cs)) x.
Proof.
  intros Hall. unfold Polynomial.coefficientOrZero.
  destruct (nth_error cs s) as [a |] eqn:E.
  - exists a. split; [reflexivity |]. split.
    + rewrite Forall_forall in Hall. apply Hall.
      apply nth_error_In with (n := s). exact E.
    + intros x. rewrite (skipn_cons_nth cs s a E). reflexivity.
  - exists (mkFE 0 m). split; [apply zero_pos, m_pos |].
    split; [reflexivity |]. intros x.
    destruct (skipn_beyond cs s E) as [-> ->]. cbn. ring.
Qed.

Lemma combine_loop (p q : list FieldElement) :
  Forall (fun c => modulus c = m) p ->
  Forall (fun c => modulus c = m) q ->
  forall n s,
    exists r,
      mapM (fun i =>
              a <- Polynomial.coefficientOrZero p m i ;;
              b <- Polynomial.coefficientOrZero q m i ;;
              op a b) (seq s n) = Ret r /\
      length r = n /\ Forall (fun c => modulus c = m) r /\
      ((Nat.max (length p) (length q) <= s + n)%nat ->
       forall x,
         congruent m (polyValue (map value r) x)
                     (polyValue (map value (skipn s p)) x
                      + sign * polyValue (map value (skipn s q)) x)).
Proof.
  intros Hp Hq. induction n as [| n IH]; intros s.
  - exists []. cbn [seq mapM length map polyValue].
    conjs; [reflexivity | reflexivity | constructor |]. intros Hmax x.
    rewrite !skipn_all2 by lia. cbn [map polyValue]. mod_ring.
  - destruct (coefficientOrZero_value p s Hp) as [a [Ea [Hma Hva]]].
    destruct (coefficientOrZero_value q s Hq) as [b [Eb [Hmb Hvb]]].
    destruct (IH (S s)) as [r [Er [Hlen [Hall Hval]]]].
    exists (mkFE ((value a + sign * value b) mod m) m :: r).
    cbn [seq mapM]. rewrite Ea, Eb. cbn [bind].
    rewrite (op_value a b Hma Hmb). cbn [bind]. rewrite Er. cbn [bind].
    conjs.
    + reflexivity.
    + cbn [length]. lia.
    + constructor; [reflexivity | exact Hall].
    + intros Hmax x. cbn [map polyValue value].
      rewrite (Hval ltac:(lia) x), Hva, Hvb. mod_ring.
Qed.

Lemma combine_value (p q : Polynomial.t) :
  overField m p -> overField m q ->
  exists r,
    (cs <- Polynomial.combine op p q ;; Polynomial.new cs) = Ret r /\
    overField m r /\ trimmed r /\
    (length (Polynomial.coefficients r)
     <= Nat.max (length (Polynomial.coefficients p))
                (length (Polynomial.coefficients q)))%nat /\
    forall x, congruent m (valueAt r x) (valueAt p x + sign * valueAt q x).
Proof.
  intros [Hpm [Hpne Hp]] [Hqm [Hqne Hq]].
  destruct (combine_loop _ _ Hp Hq
              (Nat.max (length (Polynomial.coefficients p))
                       (length (Polynomial.coefficients q))) 0)
    as [cs [Ecs [Hlen [Hall Hval]]]].
  assert (Hpos : (0 < length (Polynomial.coefficients p))%nat).
  { destruct (Polynomial.coefficients p); [contradiction | cbn; lia]. }
  assert (Hne : cs <> []).
  { intros ->. cbn [length] in Hlen. lia. }
  destruct (polynomial_new cs m Hne Hall) as [r [Er [Hof [Htr [Hl Hv]]]]].
  exists r. unfold Polynomial.combine. rewrite Hpm, Ecs. cbn [bind].
  conjs; try assumption; [lia |].
  intros x. rewrite Hv. apply (Hval ltac:(lia) x).
Qed.

End Combine.

Lemma polynomial_add (m : Z) (p q : Polynomial.t) :
  0 < m -> overField m p -> overField m q ->
  exists r,
    Polynomial.add p q = Ret r /\ overField m r /\ trimmed r /\
    (length (Polynomial.coefficients r)
     <= Nat.max (length (Polynomial.coefficients p))
                (length (Polynomial.coefficients q)))%nat /\
    forall x, congruent m (valueAt r x) (valueAt p x + valueAt q x).
Proof.
  intros Hm Hp Hq.
  destruct (combine_value m Hm add 1) with (p := p) (q := q)
    as [r [Er [Hof [Htr [Hl Hv]]]]]; try assumption.
  { intros a b Ha Hb. rewrite (add_pos a b m Hm Ha Hb).
    apply f_equal. apply (f_equal (fun v => mkFE (v mod m) m)). lia. }
  exists r. unfold Polynomial.add, Polynomial.ensureSameField.
  destruct Hp as [Hpm ?], Hq as [Hqm ?]. rewrite Hpm, Hqm, Z.eqb_refl.
  cbn [negb bind]. conjs; try assumption.
  intros x. rewrite (Hv x). mod_ring.
Qed.

Lemma polynomial_sub (m : Z) (p q : Polynomial.t) :
  0 < m -> overField m p -> overField m q ->
  exists r,
    Polynomial.sub p q = Ret r /\ overField m r /\ trimmed r /\
    (length (Polynomial.coefficients r)
     <= Nat.max (length (Polynomial.coefficients p))
                (length (Polynomial.coefficients q)))%nat /\
    forall x, congruent m (valueAt r x) (valueAt p x - valueAt q x).
Proof.
  intros Hm Hp Hq.
  destruct (combine_value m Hm sub (-1)) with (p := p) (q := q)
    as [r [Er [Hof [Htr [Hl Hv]]]]]; try assumption.
  { intros a b Ha Hb. rewrite (sub_pos a b m Hm Ha Hb).
    apply f_equal. apply (f_equal (fun v => mkFE (v mod m) m)). lia. }
  exists r. unfold Polynomial.sub, Polynomial.ensureSameField.
  destruct Hp as [Hpm ?], Hq as [Hqm ?]. rewrite Hpm, Hqm, Z.eqb_refl.
  cbn [negb bind]. conjs; assumption.
Qed.

(** *** Multiplication by a scalar *)

Lemma scalarMul_loop (m : Z) (s : FieldElement) (cs : list FieldElement) :
  0 < m -> modulus s = m -> Forall (fun c => modulus c = m) cs ->
  exists r,
    mapM (fun coef => mul coef s) cs = Ret r /\
    length r = length cs /\ Forall (fun c => modulus c = m) r /\
    forall x,
      congruent m (polyValue (map value r) x)
                  (value s * polyValue (map value cs) x).
Proof.
  intros Hm Hs Hall. induction Hall as [| c cs Hc _ IH].
  - exists []. cbn. conjs; [reflexivity | reflexivity | constructor |].
    intros x. mod_ring.
  - destruct IH as [r [Er [Hlen [Hr Hv]]]].
    exists (mkFE ((value c * value s) mod m) m :: r).
    cbn [mapM]. rewrite (mul_pos c s m Hm Hc Hs). cbn [bind].
    rewrite Er. cbn [bind]. conjs.
    + reflexivity.
    + cbn [length]. lia.
    + constructor; [reflexivity | exact Hr].
    + intros x. cbn [map polyValue value]. rewrite (Hv x). mod_ring.
Qed.

Lemma polynomial_scalarMul (m : Z) (p : Polynomial.t) (s : FieldElement) :
  0 < m -> overField m p -> modulus s = m ->
  exists r,
    Polynomial.scalarMul p s = Ret r /\ overField m r /\ trimmed r /\
    (length (Polynomial.coefficients r)
     <= length (Polynomial.coefficients p))%nat /\
    forall x, congruent m (valueAt r x) (value s * valueAt p x).
Proof.
  intros Hm [Hpm [Hne Hall]] Hs.
  destruct (scalarMul_loop m s _ Hm Hs Hall) as [cs [Ecs [Hlen [Hcs Hv]]]].
  assert (Hpos : (0 < length (Polynomial.coefficients p))%nat).
  { destruct (Polynomial.coefficients p); [contradiction | cbn; lia]. }
  assert (Hne' : cs <> []).
  { intros ->. cbn [length] in Hlen. lia. }
  destruct (polynomial_new cs m Hne' Hcs) as [r [Er [Hof [Htr [Hl Hval]]]]].
  exists r. unfold Polynomial.scalarMul. rewrite Hs, Hpm, Z.eqb_refl.
  cbn [negb]. rewrite Ecs. cbn [bind]. conjs; try assumption; [lia |].
  intros x. rewrite Hval. apply Hv.
Qed.

(** *** Product *)

Lemma setAt_value (k : nat) (v c : FieldElement) (l : list FieldElement)
  (x : Z) :
  nth_error l k = Some c ->
  polyValue (map value (Polynomial.setAt k v l)) x
  = polyValue (map value l) x + (value v - value c) * x ^ Z.of_nat k.
Proof.
  revert k. induction l as [| d l IH]; intros [| k] E; cbn in E;
    try discriminate.
  - injection E as ->. cbn [Polynomial.setAt map polyValue].
    change (Z.of_nat 0) with 0. rewrite Z.pow_0_r. ring.
  - cbn [Polynomial.setAt map polyValue].
    rewrite (IH k E), Nat2Z.inj_succ, Z.pow_succ_r by lia. ring.
Qed.

Lemma setAt_length (k : nat) (v : FieldElement) (l : list FieldElement) :
  length (Polynomial.setAt k v l) = length l.
Proof.
  revert k. induction l as [| d l IH]; intros [| k];
    cbn [Polynomial.setAt length]; try reflexivity.
  rewrite IH. reflexivity.
Qed.

Lemma setAt_Forall (P : FieldElement -> Prop) (k : nat) (v : FieldElement)
  (l : list FieldElement) :
  P v -> Forall P l -> Forall P (Polynomial.setAt k v l).
Proof.
  intros Hv Hl. revert k. induction Hl as [| d l Hd Hl IH]; intros [| k];
    cbn [Polynomial.setAt]; constructor; auto.
Qed.

Section Product.

Variable m : Z.
Hypothesis m_pos : 0 < m.

Local Abbreviation inField := (Forall (fun c : FieldElement => modulus c = m)).

Lemma mulInner_value (a : FieldElement) (bs : list FieldElement) :
  modulus a = m -> inField bs ->
  forall k result,
    inField result -> (k + length bs <= length result)%nat ->
    exists r,
      Polynomial.mulInner a bs k result = Ret r /\
      length r = length result /\ inField r /\
      forall x,
        congruent m (polyValue (map value r) x)
                    (polyValue (map value result) x
                     + value a * x ^ Z.of_nat k * polyValue (map value bs) x).
Proof.
  intros Ha Hbs. induction Hbs as [| b bs Hb _ IH]; intros k result Hres Hk.
  - exists result. cbn [Polynomial.mulInner map polyValue].
    conjs; [reflexivity | reflexivity | exact Hres |]. intros x. mod_ring.
  - cbn [length] in Hk.
    destruct (nth_error result k) as [c |] eqn:Ec;
      [| apply nth_error_None in Ec; lia].
    assert (Hc : modulus c = m).
    { rewrite Forall_forall in Hres.
      apply Hres. apply nth_error_In with (n := k). exact Ec. }
    set (sum := mkFE ((value c + (value a * value b) mod m) mod m) m).
    destruct (IH (S k) (Polynomial.setAt k sum result)) as [r [Er [Hl [Hr Hv]]]].
    { apply setAt_Forall; [reflexivity | exact Hres]. }
    { rewrite setAt_length. lia. }
    exists r. cbn [Polynomial.mulInner]. rewrite Ec. cbn [prop bind].
    rewrite (mul_pos a b m m_pos Ha Hb). cbn [bind].
    rewrite (add_pos c (mkFE ((value a * value b) mod m) m) m m_pos Hc eq_refl).
    cbn [bind value]. fold sum. rewrite setAt_length in Hl.
    conjs; [exact Er | exact Hl | exact Hr |].
    intros x. rewrite (Hv x), (setAt_value k sum c result x Ec).
    rewrite Nat2Z.inj_succ, Z.pow_succ_r by lia.
    cbn [map polyValue]. unfold sum. cbn [value]. mod_ring.
Qed.

Lemma mulOuter_value (bs : list FieldElement) (cs : list FieldElement) :
  inField bs -> inField cs ->
  forall i result,
    inField result ->
    (i + length cs + length bs <= S (length result))%nat ->
    exists r,
      Polynomial.mulOuter cs bs i result = Ret r /\
      length r = length result /\ inField r /\
      forall x,
        congruent m (polyValue (map value r) x)
                    (polyValue (map value result) x
                     + x ^ Z.of_nat i * polyValue (map value cs) x
                       * polyValue (map value bs) x).
Proof.
  intros Hbs Hcs. induction Hcs as [| a cs Ha _ IH]; intros i result Hres Hi.
  - exists result. cbn [Polynomial.mulOuter map polyValue].
    conjs; [reflexivity | reflexivity | exact Hres |]. intros x. mod_ring.
  - cbn [length] in Hi.
    destruct (mulInner_value a bs Ha Hbs i result Hres ltac:(lia))
      as [r1 [E1 [Hl1 [Hr1 Hv1]]]].
    destruct (IH (S i) r1 Hr1 ltac:(lia)) as [r [Er [Hl [Hr Hv]]]].
    exists r. cbn [Polynomial.mulOuter]. rewrite E1. cbn [bind].
    conjs; [exact Er | lia | exact Hr |].
    intros x. rewrite (Hv x), (Hv1 x).
    rewrite Nat2Z.inj_succ, Z.pow_succ_r by lia.
    cbn [map polyValue]. mod_ring.
Qed.

Lemma zeros_value (n : nat) :
  mapM (fun _ : unit => Field.zero m) (repeat tt n)
  = Ret (repeat (mkFE 0 m) n) /\
  inField (repeat (mkFE 0 m) n) /\
  forall x, polyValue (map value (repeat (mkFE 0 m) n)) x = 0.
Proof.
  induction n as [| n [IH1 [IH2 IH3]]]; cbn [repeat mapM map polyValue].
  - conjs; [reflexivity | constructor | reflexivity].
  - rewrite (zero_pos m m_pos) in *. cbn [bind]. rewrite IH1. cbn [bind].
    conjs; [reflexivity | constructor; [reflexivity | exact IH2] |].
    intros x. rewrite IH3. cbn [value]. ring.
Qed.

Lemma polynomial_mul (p q : Polynomial.t) :
  overField m p -> overField m q ->
  Z.of_nat (length (Polynomial.coefficients p))
  + Z.of_nat (length (Polynomial.coefficients q)) - 1 <= maxLength ->
  exists r,
    Polynomial.mul p q = Ret r /\ overField m r /\ trimmed r /\
    (S (length (Polynomial.coefficients r))
     <= length (Polynomial.coefficients p)
        + length (Polynomial.coefficients q))%nat /\
    forall x, congruent m (valueAt r x) (valueAt p x * valueAt q x).
Proof.
  intros [Hpm [Hpne Hp]] [Hqm [Hqne Hq]] Hmax.
  assert (Hlp : (0 < length (Polynomial.coefficients p))%nat).
  { destruct (Polynomial.coefficients p); [contradiction | cbn; lia]. }
  assert (Hlq : (0 < length (Polynomial.coefficients q))%nat).
  { destruct (Polynomial.coefficients q); [contradiction | cbn; lia]. }
  set (n := (length (Polynomial.coefficients p)
             + length (Polynomial.coefficients q) - 1)%nat).
  destruct (zeros_value n) as [Ez [Hz Hvz]].
  destruct (mulOuter_value _ _ Hq Hp 0 (repeat (mkFE 0 m) n) Hz)
    as [cs [Ecs [Hl [Hcs Hv]]]].
  { rewrite repeat_length. unfold n. lia. }
  rewrite repeat_length in Hl.
  assert (Hne : cs <> []).
  { intros ->. cbn [length] in Hl. unfold n in Hl. lia. }
  destruct (polynomial_new cs m Hne Hcs) as [r [Er [Hof [Htr [Hlr Hvr]]]]].
  exists r. unfold Polynomial.mul, Polynomial.ensureSameField.
  rewrite Hpm, Hqm, Z.eqb_refl. cbn [negb bind].
  replace ((Z.of_nat (length (Polynomial.coefficients p))
            + Z.of_nat (length (Polynomial.coefficients q)) - 1 <? 0)
           || (Z.of_nat (length (Polynomial.coefficients p))
               + Z.of_nat (length (Polynomial.coefficients q)) - 1
               >? maxLength)) with false.
  2: { symmetry. apply orb_false_iff. split; [apply Z.ltb_ge; lia |].
       rewrite Z.gtb_ltb. apply Z.ltb_ge. exact Hmax. }
  replace (Z.to_nat (Z.of_nat (length (Polynomial.coefficients p))
                     + Z.of_nat (length (Polynomial.coefficients q)) - 1))
    with n by (unfold n; lia).
  rewrite Ez. cbn [bind]. rewrite Ecs. cbn [bind].
  conjs; [exact Er | exact Hof | exact Htr | unfold n in Hl; lia |].
  intros x. rewrite Hvr, (Hv x), Hvz.
  change (Z.of_nat 0) with 0. rewrite Z.pow_0_r. unfold valueAt. mod_ring.
Qed.

End Product.

(** *** Interpolation *)

Lemma skipn_cons_inv {A : Type} (l : list A) (i : nat) (a : A) (r : list A) :
  skipn i l = a :: r -> nth_error l i = Some a /\ skipn (S i) l = r.
Proof.
  revert i. induction l as [| b l IH]; intros [| i] E; cbn in *;
    try discriminate.
  - injection E as -> ->. split; reflexivity.
  - apply IH, E.
Qed.

Section Interpolation.

Variable m : Z.
Hypothesis m_prime : Z.prime m.

Lemma neg_pos (a : FieldElement) :
  modulus a = m -> neg a = Ret (mkFE ((- value a) mod m) m).
Proof.
  intros Ha. pose proof (Z.prime_ge_2 m m_prime).
  unfold neg. rewrite Ha. apply new_pos. lia.
Qed.

Lemma termLoop_value (xi : FieldElement) (i : nat) :
  modulus xi = m ->
  forall points j term,
    Forall (fun pt => modulus (fst pt) = m) points ->
    (forall k pt, nth_error points k = Some pt -> (j + k)%nat <> i ->
                  (value xi - value (fst pt)) mod m <> 0) ->
    overField m term ->
    Z.of_nat (length (Polynomial.coefficients term))
    + Z.of_nat (length points) <= maxLength ->
    exists term',
      Polynomial.termLoop points j i xi m term = Ret term' /\
      overField m term' /\
      (length (Polynomial.coefficients term')
       <= length (Polynomial.coefficients term) + length points)%nat /\
      ((j <= i < j + length points)%nat ->
       (S (length (Polynomial.coefficients term'))
        <= length (Polynomial.coefficients term) + length points)%nat) /\
      congruent m (valueAt term' (value xi)) (valueAt term (value xi)) /\
      (forall x, congruent m (valueAt term x) 0 ->
                 congruent m (valueAt term' x) 0) /\
      (forall k pt, nth_error points k = Some pt -> (j + k)%nat <> i ->
                    congruent m (valueAt term' (value (fst pt))) 0).
Proof.
  intros Hxi. pose proof (Z.prime_ge_2 m m_prime) as Hm2.
  assert (Hm : 0 < m) by lia.
  induction points as [| [xj yj] rest IH]; intros j term Hpts Hdist Hterm Hlen.
  - exists term. cbn [Polynomial.termLoop length].
    conjs; [reflexivity | exact Hterm | lia | lia | reflexivity | auto |].
    intros [| k] pt E; discriminate.
  - cbn [length] in Hlen. cbn [Polynomial.termLoop].
    assert (Hrest : Forall (fun pt => modulus (fst pt) = m) rest)
      by (inversion Hpts; assumption).
    assert (Hxj : modulus xj = m) by (inversion Hpts; assumption).
    assert (Hdist' : forall k pt, nth_error rest k = Some pt ->
                                  (S j + k)%nat <> i ->
                                  (value xi - value (fst pt)) mod m <> 0).
    { intros k pt E Hk. apply (Hdist (S k) pt); [exact E | lia]. }
    destruct (Nat.eqb_spec i j) as [Hij | Hij].
    + destruct (IH (S j) term Hrest Hdist' Hterm ltac:(lia))
        as [term' [E [Hof [Hl [Hl' [Hv [Hz Hk]]]]]]].
      exists term'. cbn [length].
      conjs; [exact E | exact Hof | lia | | exact Hv | exact Hz |].
      * intros _. lia.
      * intros [| k] pt Ek Hne; [lia |]. apply (Hk k pt Ek). lia.
    + pose proof (Hdist 0%nat (xj, yj) eq_refl ltac:(lia)) as Hd.
      cbn [fst] in Hd.
      rewrite (neg_pos xj Hxj). cbn [bind].
      unfold Field.one. rewrite new_pos by exact Hm. cbn [bind].
      destruct (polynomial_new
                  [mkFE ((- value xj) mod m) m; mkFE (1 mod m) m] m)
        as [num [En [Hnum [_ [Hln Hvn]]]]];
        [discriminate | repeat constructor |].
      rewrite En. cbn [bind].
      rewrite (sub_pos xi xj m Hm Hxi Hxj). cbn [bind].
      cbn [length] in Hln.
      destruct (polynomial_mul m Hm term num Hterm Hnum ltac:(lia))
        as [product [Ep [Hprod [_ [Hlp Hvp]]]]].
      rewrite Ep. cbn [bind].
      destruct (inverse_spec ((value xi - value xj) mod m) m m_prime)
        as [w [Ew Hw]].
      { pose proof (Z.mod_pos_bound (value xi - value xj) m Hm). lia. }
      rewrite Ew. cbn [bind].
      destruct (polynomial_scalarMul m product (mkFE (w mod m) m)
                  Hm Hprod eq_refl)
        as [term1 [E1 [Hterm1 [_ [Hl1 Hv1]]]]].
      rewrite E1. cbn [bind].
      destruct (IH (S j) term1 Hrest Hdist' Hterm1 ltac:(lia))
        as [term' [E [Hof [Hl [Hl' [Hv [Hz Hk]]]]]]].
      assert (Hstep : forall x,
                 congruent m (valueAt term1 x)
                             (valueAt term x * ((x - value xj) * w))).
      { intros x. rewrite (Hv1 x), (Hvp x), Hvn.
        cbn [value map polyValue]. mod_ring. }
      assert (Hunit : congruent m ((value xi - value xj) * w) 1).
      { rewrite <- (congruent_mod m (value xi - value xj)).
        constructor. rewrite Hw. symmetry. apply Z.mod_small. lia. }
      exists term'. cbn [length].
      conjs; [exact E | exact Hof | lia | | | |].
      * intros Hrange. specialize (Hl' ltac:(lia)). lia.
      * rewrite Hv, (Hstep (value xi)), Hunit. mod_ring.
      * intros x Hx. apply Hz. rewrite (Hstep x), Hx. mod_ring.
      * intros [| k] pt Ek Hne.
        -- injection Ek as <-. cbn [fst]. apply Hz.
           rewrite (Hstep (value xj)). mod_ring.
        -- apply (Hk k pt Ek). lia.
Qed.

Variable points : list (FieldElement * FieldElement).
Hypothesis points_field :
  Forall (fun pt => modulus (fst pt) = m /\ modulus (snd pt) = m) points.
Hypothesis points_distinct :
  forall a b pa pb,
    nth_error points a = Some pa -> nth_error points b = Some pb ->
    a <> b -> (value (fst pa) - value (fst pb)) mod m <> 0.
Hypothesis points_length : Z.of_nat (length points) < maxLength.

Lemma interpolateLoop_value :
  forall rest i result,
    rest = skipn i points ->
    overField m result ->
    (length (Polynomial.coefficients result) <= length points)%nat ->
    (forall k pt, nth_error points k = Some pt ->
                  congruent m (valueAt result (value (fst pt)))
                              (if (k <? i)%nat then value (snd pt) else 0)) ->
    exists r,
      Polynomial.interpolateLoop rest points i m result = Ret r /\
      overField m r /\
      (length (Polynomial.coefficients r) <= length points)%nat /\
      forall k pt, nth_error points k = Some pt ->
                   congruent m (valueAt r (value (fst pt))) (value (snd pt)).
Proof.
  pose proof (Z.prime_ge_2 m m_prime) as Hm2.
  assert (Hm : 0 < m) by lia.
  assert (Hxs : Forall (fun pt => modulus (fst pt) = m) points).
  { eapply Forall_impl; [| exact points_field]. intros pt [H _]. exact H. }
  induction rest as [| [xi yi] rest IH]; intros i result Hrest Hres Hlen Hinv.
  - exists result. cbn [Polynomial.interpolateLoop].
    conjs; [reflexivity | exact Hres | exact Hlen |].
    intros k pt Ek. specialize (Hinv k pt Ek).
    assert (Hk : (k < length points)%nat)
      by (apply nth_error_Some; congruence).
    assert (Hi : (length points <= i)%nat).
    { destruct (Nat.le_gt_cases (length points) i) as [H | H]; [exact H |].
      pose proof (length_skipn i points) as Hs. rewrite <- Hrest in Hs.
      cbn [length] in Hs. lia. }
    destruct (Nat.ltb_spec k i); [exact Hinv | lia].
  - symmetry in Hrest. apply skipn_cons_inv in Hrest.
    destruct Hrest as [Ei Hrest].
    assert (Hi : (i < length points)%nat)
      by (apply nth_error_Some; congruence).
    assert (Hpt : modulus xi = m /\ modulus yi = m).
    { rewrite Forall_forall in points_field.
      apply (points_field (xi, yi)). apply nth_error_In with (n := i).
      exact Ei. }
    destruct Hpt as [Hxi Hyi].
    cbn [Polynomial.interpolateLoop].
    destruct (polynomial_new [yi] m) as [term0 [E0 [Hterm0 [_ [Hl0 Hv0]]]]];
      [discriminate | repeat constructor; exact Hyi |].
    rewrite E0. cbn [bind]. cbn [length] in Hl0.
    destruct (termLoop_value xi i Hxi points 0 term0 Hxs)
      as [term [Et [Hterm [_ [Hlt [Hvt [_ Hkt]]]]]]].
    { intros k pt Ek Hne. apply (points_distinct i k (xi, yi) pt Ei Ek).
      lia. }
    { exact Hterm0. }
    { lia. }
    rewrite Et. cbn [bind]. specialize (Hlt ltac:(lia)).
    destruct (polynomial_add m result term Hm Hres Hterm)
      as [r1 [E1 [Hr1 [_ [Hl1 Hv1]]]]].
    rewrite E1. cbn [bind].
    apply (IH (S i) r1 (eq_sym Hrest) Hr1 ltac:(lia)).
    intros k pt Ek. rewrite (Hv1 (value (fst pt))).
    pose proof (Hinv k pt Ek) as Hold.
    destruct (Nat.eq_dec k i) as [-> | Hne].
    + assert (pt = (xi, yi)) by congruence. subst pt. cbn [fst snd] in *.
      destruct (Nat.ltb_spec i i); [lia |].
      destruct (Nat.ltb_spec i (S i)); [| lia].
      rewrite Hold, Hvt, Hv0. cbn [map polyValue]. mod_ring.
    + rewrite (Hkt k pt Ek ltac:(lia)), Hold.
      destruct (Nat.ltb_spec k i), (Nat.ltb_spec k (S i)); try lia; mod_ring.
Qed.

Lemma interpolate_value :
  points <> [] ->
  exists p,
    Polynomial.interpolate points = Ret p /\ overField m p /\
    Polynomial.degree p < Z.of_nat (length points) /\
    forall x y, In (x, y) points ->
                Polynomial.evaluate p x = Ret (mkFE (value y mod m) m).
Proof.
  intros Hne. pose proof (Z.prime_ge_2 m m_prime) as Hm2.
  assert (Hm : 0 < m) by lia.
  assert (Hhd : exists x0 y0 rest, points = (x0, y0) :: rest).
  { destruct points as [| [x0 y0] rest]; [contradiction | eauto]. }
  destruct Hhd as [x0 [y0 [rest Epts]]].
  assert (Hx0 : modulus x0 = m).
  { rewrite Forall_forall in points_field.
    apply (points_field (x0, y0)). rewrite Epts. left. reflexivity. }
  assert (Hunfold :
            Polynomial.interpolate points
            = (result <- Polynomial.zero (modulus x0) ;;
               Polynomial.interpolateLoop points points 0 (modulus x0) result)).
  { rewrite Epts. reflexivity. }
  destruct (polynomial_new [mkFE 0 m] m) as [z [Ez [Hz [_ [Hlz Hvz]]]]];
    [discriminate | repeat constructor |].
  cbn [length] in Hlz.
  destruct (interpolateLoop_value points 0 z eq_refl Hz)
    as [p [Ep [Hp [Hlp Hvp]]]].
  { rewrite Epts. cbn [length]. lia. }
  { intros k pt _. rewrite Hvz. cbn [map polyValue value].
    destruct (k <? 0)%nat eqn:E; [apply Nat.ltb_lt in E; lia | mod_ring]. }
  exists p. conjs.
  - rewrite Hunfold, Hx0. unfold Polynomial.zero.
    rewrite zero_pos by exact Hm. cbn [bind]. rewrite Ez. cbn [bind].
    exact Ep.
  - exact Hp.
  - unfold Polynomial.degree. lia.
  - intros x y Hin. apply In_nth_error in Hin. destruct Hin as [k Ek].
    assert (Hx : modulus x = m).
    { rewrite Forall_forall in points_field.
      apply (points_field (x, y)). apply nth_error_In with (n := k).
      exact Ek. }
    rewrite (evaluate_value m p x Hm Hp Hx).
    pose proof (Hvp k (x, y) Ek) as Hc. cbn [fst snd] in Hc.
    apply congruent_eq in Hc. rewrite Hc. reflexivity.
Qed.

End Interpolation.

(** *** The operations of [Polynomial] *)

(** X26: the constructor keeps the coefficients up to the highest
    non-zero one (but at least the constant term): what it drops are
    zeros, and the polynomial it returns is over the field of its
    coefficients.  It throws on a coefficient of another field and on an
    empty array. *)
Theorem polynomial_constructor (cs : list FieldElement) (m : Z) :
  cs <> [] -> Forall (fun c => modulus c = m) cs ->
  (exists p zeros,
     Polynomial.new cs = Ret p /\ overField m p /\ trimmed p /\
     cs = Polynomial.coefficients p ++ zeros /\
     Forall (fun c => isZero c = true) zeros)
  /\ (forall c more,
        modulus c <> m ->
        Polynomial.new (cs ++ c :: more)
        = Throw Polynomial.MixedCoefficients)
  /\ Polynomial.new [] = Throw Polynomial.EmptyPolynomial.
Proof.
  intros Hne Hall. split; [| split; [| reflexivity]].
  - destruct (polynomial_new cs m Hne Hall) as [p [Ep [Hof [Htr _]]]].
    destruct (trimLeadingZeros_spec cs Hne) as [zeros [Hsplit [Hz _]]].
    exists p, zeros. conjs; try assumption.
    unfold Polynomial.new in Ep. destruct cs as [| c0 cs']; [contradiction |].
    destruct (forallb _ (c0 :: cs')); [| discriminate].
    injection Ep as <-. exact Hsplit.
  - intros c more Hc. destruct cs as [| c0 cs']; [contradiction |].
    assert (Hc0 : modulus c0 = m) by (inversion Hall; assumption).
    cbn [app]. unfold Polynomial.new. rewrite Hc0.
    replace (forallb (fun coef => modulus coef =? m) (c0 :: cs' ++ c :: more))
      with false; [reflexivity |].
    symmetry. change (c0 :: cs' ++ c :: more) with ((c0 :: cs') ++ c :: more).
    rewrite forallb_app. cbn [forallb].
    destruct (Z.eqb_spec (modulus c) m) as [E | _]; [contradiction |].
    cbn [andb]. apply andb_false_r.
Qed.

Lemma polynomial_constructor_witness :
  (exists p zeros,
     Polynomial.new Instances.quadratic = Ret p /\ overField 11 p /\
     trimmed p /\
     Instances.quadratic = Polynomial.coefficients p ++ zeros /\
     Forall (fun c => isZero c = true) zeros)
  /\ (forall c more,
        modulus c <> 11 ->
        Polynomial.new (Instances.quadratic ++ c :: more)
        = Throw Polynomial.MixedCoefficients)
  /\ Polynomial.new [] = Throw Polynomial.EmptyPolynomial.
Proof.
  apply (polynomial_constructor Instances.quadratic 11).
  - discriminate.
  - repeat constructor.
Defined.

(** X27: [evaluate] of the polynomial built from [cs] returns, at a point
    of its field, the canonical element whose value is
    [c0 + c1 x + c2 x^2 + ...] reduced; a point of another field makes it
    throw. *)
Theorem evaluate_correct (cs : list FieldElement) (m : Z) (x : FieldElement) :
  0 < m -> cs <> [] -> Forall (fun c => modulus c = m) cs ->
  modulus x = m ->
  exists p v,
    Polynomial.new cs = Ret p /\ Polynomial.evaluate p x = Ret v /\
    canonical v /\ modulus v = m /\
    value v = polyValue (map value cs) (value x) mod m /\
    forall y, modulus y <> m ->
              Polynomial.evaluate p y = Throw Polynomial.PointMismatch.
Proof.
  intros Hm Hne Hall Hx.
  destruct (polynomial_new cs m Hne Hall) as [p [Ep [Hof [_ [_ Hv]]]]].
  exists p, (mkFE (valueAt p (value x) mod m) m).
  pose proof (Z.mod_pos_bound (valueAt p (value x)) m Hm) as Hb.
  conjs.
  - exact Ep.
  - apply evaluate_value; assumption.
  - exact Hb.
  - reflexivity.
  - cbn [value]. rewrite Hv. reflexivity.
  - intros y Hy. unfold Polynomial.evaluate.
    destruct Hof as [-> _].
    destruct (Z.eqb_spec (modulus y) m) as [E | _]; [contradiction |].
    reflexivity.
Qed.

Lemma evaluate_correct_witness :
  exists p v,
    Polynomial.new Instances.quadratic = Ret p /\
    Polynomial.evaluate p (mkFE 2 11) = Ret v /\
    canonical v /\ modulus v = 11 /\
    value v = polyValue (map value Instances.quadratic) (value (mkFE 2 11)) mod 11 /\
    forall y, modulus y <> 11 ->
              Polynomial.evaluate p y = Throw Polynomial.PointMismatch.
Proof.
  apply (evaluate_correct Instances.quadratic 11 (mkFE 2 11)).
  - lia.
  - discriminate.
  - repeat constructor.
  - reflexivity.
Defined.

(** X28: [add] and [sub] of two polynomials of one field return
    polynomials in normal form, of degree at most the larger of the two,
    whose value at any point of the field is the sum, respectively the
    difference, of the two values. *)
Theorem sum_evaluates (m : Z) (p q : Polynomial.t) (x : FieldElement) :
  0 < m -> overField m p -> overField m q -> modulus x = m ->
  exists s d vp vq vs vd,
    Polynomial.add p q = Ret s /\ Polynomial.sub p q = Ret d /\
    overField m s /\ overField m d /\ trimmed s /\ trimmed d /\
    Polynomial.degree s <= Z.max (Polynomial.degree p) (Polynomial.degree q) /\
    Polynomial.degree d <= Z.max (Polynomial.degree p) (Polynomial.degree q) /\
    Polynomial.evaluate p x = Ret vp /\ Polynomial.evaluate q x = Ret vq /\
    add vp vq = Ret vs /\ Polynomial.evaluate s x = Ret vs /\
    sub vp vq = Ret vd /\ Polynomial.evaluate d x = Ret vd.
Proof.
  intros Hm Hp Hq Hx.
  destruct (polynomial_add m p q Hm Hp Hq) as [s [Es [Hs [Hts [Hls Hvs]]]]].
  destruct (polynomial_sub m p q Hm Hp Hq) as [d [Ed [Hd [Htd [Hld Hvd]]]]].
  exists s, d, (mkFE (valueAt p (value x) mod m) m),
    (mkFE (valueAt q (value x) mod m) m),
    (mkFE (valueAt s (value x) mod m) m),
    (mkFE (valueAt d (value x) mod m) m).
  rewrite !(evaluate_value m _ x Hm) by assumption.
  rewrite (add_pos (mkFE (valueAt p (value x) mod m) m)
             (mkFE (valueAt q (value x) mod m) m) m Hm eq_refl eq_refl).
  rewrite (sub_pos (mkFE (valueAt p (value x) mod m) m)
             (mkFE (valueAt q (value x) mod m) m) m Hm eq_refl eq_refl).
  cbn [value].
  unfold Polynomial.degree.
  conjs; try assumption; try reflexivity; try lia.
  - do 2 f_equal. symmetry. rewrite (congruent_eq _ _ _ (Hvs (value x))).
    mod_ring.
  - do 2 f_equal. symmetry. rewrite (congruent_eq _ _ _ (Hvd (value x))).
    mod_ring.
Qed.

Lemma overField_parabola : overField 11 Instances.parabola.
Proof. repeat split; [discriminate | repeat constructor]. Qed.

Lemma overField_line : overField 11 Instances.line.
Proof. repeat split; [discriminate | repeat constructor]. Qed.

Lemma sum_evaluates_witness :
  exists s d vp vq vs vd,
    Polynomial.add Instances.parabola Instances.line = Ret s /\
    Polynomial.sub Instances.parabola Instances.line = Ret d /\
    overField 11 s /\ overField 11 d /\ trimmed s /\ trimmed d /\
    Polynomial.degree s
    <= Z.max (Polynomial.degree Instances.parabola) (Polynomial.degree Instances.line) /\
    Polynomial.degree d
    <= Z.max (Polynomial.degree Instances.parabola) (Polynomial.degree Instances.line) /\
    Polynomial.evaluate Instances.parabola (mkFE 2 11) = Ret vp /\
    Polynomial.evaluate Instances.line (mkFE 2 11) = Ret vq /\
    add vp vq = Ret vs /\ Polynomial.evaluate s (mkFE 2 11) = Ret vs /\
    sub vp vq = Ret vd /\ Polynomial.evaluate d (mkFE 2 11) = Ret vd.
Proof.
  apply (sum_evaluates 11 Instances.parabola Instances.line (mkFE 2 11)).
  - lia.
  - exact overField_parabola.
  - exact overField_line.
  - reflexivity.
Defined.

(** X29: [mul] returns a polynomial in normal form, of degree at most
    the sum of the two degrees, whose value at any point of the field is
    the product of the two values; [scalarMul] multiplies the value by
    the scalar.  The array that [mul] allocates has to fit the length of
    an array. *)
Theorem product_evaluates (m : Z) (p q : Polynomial.t)
  (c x : FieldElement) :
  0 < m -> overField m p -> overField m q ->
  modulus c = m -> modulus x = m ->
  Polynomial.degree p + Polynomial.degree q < maxLength ->
  exists r t vp vq vr vt,
    Polynomial.mul p q = Ret r /\ Polynomial.scalarMul p c = Ret t /\
    overField m r /\ overField m t /\ trimmed r /\ trimmed t /\
    Polynomial.degree r <= Polynomial.degree p + Polynomial.degree q /\
    Polynomial.degree t <= Polynomial.degree p /\
    Polynomial.evaluate p x = Ret vp /\ Polynomial.evaluate q x = Ret vq /\
    mul vp vq = Ret vr /\ Polynomial.evaluate r x = Ret vr /\
    mul vp c = Ret vt /\ Polynomial.evaluate t x = Ret vt.
Proof.
  intros Hm Hp Hq Hc Hx Hlen. unfold Polynomial.degree in *.
  destruct (polynomial_mul m Hm p q Hp Hq ltac:(lia))
    as [r [Er [Hr [Htr [Hlr Hvr]]]]].
  destruct (polynomial_scalarMul m p c Hm Hp Hc)
    as [t [Et [Ht [Htt [Hlt Hvt]]]]].
  exists r, t, (mkFE (valueAt p (value x) mod m) m),
    (mkFE (valueAt q (value x) mod m) m),
    (mkFE (valueAt r (value x) mod m) m),
    (mkFE (valueAt t (value x) mod m) m).
  rewrite !(evaluate_value m _ x Hm) by assumption.
  rewrite (mul_pos (mkFE (valueAt p (value x) mod m) m)
             (mkFE (valueAt q (value x) mod m) m) m Hm eq_refl eq_refl).
  rewrite (mul_pos (mkFE (valueAt p (value x) mod m) m) c m Hm eq_refl Hc).
  cbn [value].
  conjs; try assumption; try reflexivity; try lia.
  - do 2 f_equal. symmetry. rewrite (congruent_eq _ _ _ (Hvr (value x))).
    mod_ring.
  - do 2 f_equal. symmetry. rewrite (congruent_eq _ _ _ (Hvt (value x))).
    mod_ring.
Qed.

Lemma product_evaluates_witness :
  exists r t vp vq vr vt,
    Polynomial.mul Instances.parabola Instances.line = Ret r /\
    Polynomial.scalarMul Instances.parabola (mkFE 7 11) = Ret t /\
    overField 11 r /\ overField 11 t /\ trimmed r /\ trimmed t /\
    Polynomial.degree r
    <= Polynomial.degree Instances.parabola + Polynomial.degree Instances.line /\
    Polynomial.degree t <= Polynomial.degree Instances.parabola /\
    Polynomial.evaluate Instances.parabola (mkFE 2 11) = Ret vp /\
    Polynomial.evaluate Instances.line (mkFE 2 11) = Ret vq /\
    mul vp vq = Ret vr /\ Polynomial.evaluate r (mkFE 2 11) = Ret vr /\
    mul vp (mkFE 7 11) = Ret vt /\
    Polynomial.evaluate t (mkFE 2 11) = Ret vt.
Proof.
  apply (product_evaluates 11 Instances.parabola Instances.line (mkFE 7 11)
           (mkFE 2 11)).
  - lia.
  - exact overField_parabola.
  - exact overField_line.
  - reflexivity.
  - reflexivity.
  - vm_compute. reflexivity.
Defined.

Lemma distinct_abscissas (m : Z) (points : list (FieldElement * FieldElement)) :
  NoDup (map (fun pt => value (fst pt) mod m) points) ->
  forall a b pa pb,
    nth_error points a = Some pa -> nth_error points b = Some pb ->
    a <> b -> (value (fst pa) - value (fst pb)) mod m <> 0.
Proof.
  intros Hnd a b pa pb Ea Eb Hne Hz. apply Hne.
  rewrite NoDup_nth_error in Hnd. apply Hnd.
  - rewrite length_map. apply nth_error_Some. congruence.
  - rewrite !nth_error_map, Ea, Eb. cbn [option_map]. f_equal.
    replace (value (fst pa)) with (value (fst pa) - value (fst pb) + value (fst pb))
      by ring.
    rewrite <- Zplus_mod_idemp_l, Hz. reflexivity.
Qed.

(** X30: over a prime field, [interpolate] of points with pairwise
    different abscissas returns a polynomial of degree below the number
    of points that [evaluate] maps from every abscissa to its ordinate.
    Without a point it throws. *)
Theorem interpolate_correct (m : Z)
  (points : list (FieldElement * FieldElement)) :
  Z.prime m ->
  points <> [] ->
  Forall (fun pt => modulus (fst pt) = m /\ modulus (snd pt) = m) points ->
  NoDup (map (fun pt => value (fst pt) mod m) points) ->
  Z.of_nat (length points) < maxLength ->
  (exists p,
     Polynomial.interpolate points = Ret p /\ overField m p /\
     Polynomial.degree p < Z.of_nat (length points) /\
     forall x y, In (x, y) points ->
                 Polynomial.evaluate p x = Ret (mkFE (value y mod m) m))
  /\ Polynomial.interpolate [] = Throw Polynomial.NoPoints.
Proof.
  intros Hm Hne Hfield Hnd Hlen. split; [| reflexivity].
  apply (interpolate_value m Hm points Hfield
           (distinct_abscissas m points Hnd) Hlen Hne).
Qed.

Lemma interpolate_correct_witness :
  (exists p,
     Polynomial.interpolate Instances.samples = Ret p /\ overField 11 p /\
     Polynomial.degree p < Z.of_nat (length Instances.samples) /\
     forall x y, In (x, y) Instances.samples ->
                 Polynomial.evaluate p x = Ret (mkFE (value y mod 11) 11))
  /\ Polynomial.interpolate [] = Throw Polynomial.NoPoints.
Proof.
  apply (interpolate_correct 11 Instances.samples).
  - exact prime_11.
  - discriminate.
  - repeat constructor.
  - vm_compute. repeat constructor; simpl; intuition discriminate.
  - vm_compute. reflexivity.
Defined.
